(** * MAZEDASH: the seeded maze generator of [maze-generator.ts]

    A shallow embedding of the class [MazeGenerator] and of the module-level
    pseudo-random generator it draws from, followed by the properties of the
    build pipeline (reset, carve, repair, loop injection) and of the query
    layer.

    Conventions of the embedding.
    - JavaScript numbers that hold grid coordinates, indices and the seed
      counter are integers ([Z]); numbers that hold world coordinates or a
      pseudo-random draw are rationals ([Q]) and arithmetic on them is exact
      (IEEE rounding is not modelled).
    - [Math.sin] is not computable here: the table of its values at the
      integers is a variable of the development, so every theorem holds for
      whatever that table is.
    - The object [this] and the module-level [currentSeed] are one record,
      [State], passed explicitly; a method that assigns returns the new state.
    - Cells are objects mutated in place and reached only through
      [this.grid[y][x]]; an assignment to a field of a cell is an update of the
      grid at that index.
    - [while] loops take fuel and return [None] when it runs out. *)

From Stdlib Require Import ZArith QArith Qround Qabs Lia Lqa List Bool.
From Stdlib Require String.
From stdpp Require Import base tactics option list sorting gmap.

Open Scope Z_scope.

(** ** Constants *)

Definition MAZE_SIZE : Z := 50.
Definition PATH_WIDTH : Z := 4.
Definition PLATFORM_DEPTH : Z := 10.

(** ** Data model *)

Inductive WallDirection := top | right | bottom | left.

#[global] Instance WallDirection_eq_dec : EqDecision WallDirection.
Proof. solve_decision. Defined.

Record Walls := mkWalls {
  wall_top : bool;
  wall_right : bool;
  wall_bottom : bool;
  wall_left : bool }.

Record Cell := mkCell {
  cell_x : Z;
  cell_y : Z;
  visited : bool;
  walls : Walls }.

Record Direction := mkDirection {
  dir_x : Z;
  dir_y : Z;
  wall : WallDirection;
  opposite : WallDirection }.

Definition DIRECTIONS : list Direction :=
  [ mkDirection 0 (-1) top bottom;
    mkDirection 1 0 right left;
    mkDirection 0 1 bottom top;
    mkDirection (-1) 0 left right ].

Abbreviation Grid := (list (list Cell)).

Record Vec3 := mkVec3 { vx : Q; vy : Q; vz : Q }.

(** [this] together with the module-level counter [currentSeed]. *)
Record State := mkState {
  currentSeed : Z;
  grid : Grid;
  entrance : Z * Z;
  exit : Z * Z;
  entranceWorldPosition : Vec3 }.

Definition set_seed (s : Z) (st : State) : State :=
  mkState s (grid st) (entrance st) (exit st) (entranceWorldPosition st).
Definition set_grid (g : Grid) (st : State) : State :=
  mkState (currentSeed st) g (entrance st) (exit st) (entranceWorldPosition st).
Definition set_entrance (p : Z * Z) (st : State) : State :=
  mkState (currentSeed st) (grid st) p (exit st) (entranceWorldPosition st).
Definition set_exit (p : Z * Z) (st : State) : State :=
  mkState (currentSeed st) (grid st) (entrance st) p (entranceWorldPosition st).
Definition set_entranceWorldPosition (w : Vec3) (st : State) : State :=
  mkState (currentSeed st) (grid st) (entrance st) (exit st) w.

(** ** Arrays and cells *)

(** [a[i]] for an integer [i]: [undefined] outside [0 .. length-1]. *)
Definition arr_get {A} (l : list A) (i : Z) : option A :=
  if 0 <=? i then l !! Z.to_nat i else None.

(** [this.grid[y]?.[x]] *)
Definition cellAt (g : Grid) (x y : Z) : option Cell :=
  match arr_get g y with
  | Some row => arr_get row x
  | None => None
  end.

(** An assignment to fields of the cell object stored at [grid[y][x]]. *)
Definition updCell (g : Grid) (x y : Z) (f : Cell -> Cell) : Grid :=
  alter (alter f (Z.to_nat x)) (Z.to_nat y) g.

Definition wall_get (w : Walls) (d : WallDirection) : bool :=
  match d with
  | top => wall_top w
  | right => wall_right w
  | bottom => wall_bottom w
  | left => wall_left w
  end.

Definition wall_set (d : WallDirection) (b : bool) (w : Walls) : Walls :=
  match d with
  | top => mkWalls b (wall_right w) (wall_bottom w) (wall_left w)
  | right => mkWalls (wall_top w) b (wall_bottom w) (wall_left w)
  | bottom => mkWalls (wall_top w) (wall_right w) b (wall_left w)
  | left => mkWalls (wall_top w) (wall_right w) (wall_bottom w) b
  end.

(** [cell.visited = true] *)
Definition markVisited (c : Cell) : Cell :=
  mkCell (cell_x c) (cell_y c) true (walls c).

(** [cell.walls[d] = false] *)
Definition removeWall (d : WallDirection) (c : Cell) : Cell :=
  mkCell (cell_x c) (cell_y c) (visited c) (wall_set d false (walls c)).

(** [for (let i = 0; i < n; i++)] enumerates [0 .. n-1]. *)
Definition range (n : Z) : list Z := map Z.of_nat (seq 0 (Z.to_nat n)).

(** The order of the nested loops [for y ... for x ...]: row-major, as
    pairs [(x, y)]. *)
Definition rowMajor : list (Z * Z) :=
  flat_map (fun y => map (fun x => (x, y)) (range MAZE_SIZE)) (range MAZE_SIZE).

Definition isValidCell (x y : Z) : bool :=
  (0 <=? x) && (x <? MAZE_SIZE) && (0 <=? y) && (y <? MAZE_SIZE).

Definition Qltb (a b : Q) : bool := negb (Qle_bool b a).

(** [x - Math.floor(x)] *)
Definition frac (x : Q) : Q := (x - inject_Z (Qfloor x))%Q.

(** [Math.floor(r * n)] for a draw [r] and an integer [n]. *)
Definition scaleFloor (r : Q) (n : Z) : Z := Qfloor (r * inject_Z n).

Section MazeGenerator.

(** [Math.sin] at the integers, each value the rational its double denotes. *)
Variable Math_sin : Z -> Q.

(** [FIXED_SEED], 12345 in the source ("you can change this number"). *)
Variable FIXED_SEED : Z.

(** ** The seeded generator *)

Definition seedRandom (st : State) : Q * State :=
  let x := (Math_sin (currentSeed st) * inject_Z 10000)%Q in
  (frac x, set_seed (currentSeed st + 1) st).

(** ** Grid initialisation *)

Definition freshCell (x y : Z) : Cell :=
  mkCell x y false (mkWalls true true true true).

Definition freshGrid : Grid :=
  map (fun y => map (fun x => freshCell x y) (range MAZE_SIZE)) (range MAZE_SIZE).

Definition initializeGrid (st : State) : State := set_grid freshGrid st.

(** The constructor: [initializeGrid()] then [currentSeed = FIXED_SEED];
    the field initialisers give the other fields. *)
Definition constructor : State :=
  mkState FIXED_SEED freshGrid (0, 0) (0, 0) (mkVec3 0 1 0).

(** ** Connectivity repair *)

Definition hasPathToExit (st : State) : bool :=
  let '(ex, ey) := exit st in
  if isValidCell ex ey then
    match cellAt (grid st) ex ey with
    | Some exitCell => visited exitCell
    | None => false
    end
  else false.

(** [this.isValidCell(x, y) ? this.grid[y]?.[x] : null] *)
Definition validCellAt (g : Grid) (x y : Z) : option Cell :=
  if isValidCell x y then cellAt g x y else None.

(** Removal of the wall pair between the cell at [(x, y)] and the cell at
    [(nx, ny)]: [current.walls[w] = false; next.walls[o] = false]. *)
Definition removeWallPair (g : Grid) (x y : Z) (w : WallDirection)
    (nx ny : Z) (o : WallDirection) : Grid :=
  updCell (updCell g x y (removeWall w)) nx ny (removeWall o).

(** The loop of [createPathToExit]; one unit of fuel per iteration. *)
Fixpoint createPathLoop (fuel : nat) (g : Grid) (ex ey : Z)
    (currentX currentY : Z) : option Grid :=
  if negb (currentX =? ex) || negb (currentY =? ey) then
    match fuel with
    | O => None
    | S fuel' =>
      match validCellAt g currentX currentY with
      | None => Some g
      | Some _ =>
        let g1 := updCell g currentX currentY markVisited in
        let xDiff := ex - currentX in
        let yDiff := ey - currentY in
        if 0 <? Z.abs yDiff then
          if 0 <? yDiff then
            match validCellAt g1 currentX (currentY + 1) with
            | Some _ =>
              createPathLoop fuel'
                (removeWallPair g1 currentX currentY bottom currentX (currentY + 1) top)
                ex ey currentX (currentY + 1)
            | None => Some g1
            end
          else
            match validCellAt g1 currentX (currentY - 1) with
            | Some _ =>
              createPathLoop fuel'
                (removeWallPair g1 currentX currentY top currentX (currentY - 1) bottom)
                ex ey currentX (currentY - 1)
            | None => Some g1
            end
        else if 0 <? Z.abs xDiff then
          if 0 <? xDiff then
            match validCellAt g1 (currentX + 1) currentY with
            | Some _ =>
              createPathLoop fuel'
                (removeWallPair g1 currentX currentY right (currentX + 1) currentY left)
                ex ey (currentX + 1) currentY
            | None => Some g1
            end
          else
            match validCellAt g1 (currentX - 1) currentY with
            | Some _ =>
              createPathLoop fuel'
                (removeWallPair g1 currentX currentY left (currentX - 1) currentY right)
                ex ey (currentX - 1) currentY
            | None => Some g1
            end
        else Some g1
      end
    end
  else Some g.

Definition createPathToExit (fuel : nat) (x y : Z) (st : State) : option State :=
  let '(ex, ey) := exit st in
  match createPathLoop fuel (grid st) ex ey x y with
  | None => None
  | Some g =>
    match validCellAt g ex ey with
    | Some _ => Some (set_grid (updCell g ex ey markVisited) st)
    | None => Some (set_grid g st)
    end
  end.

(** One step of the scan of [connectToExit]: the running [closestCell]
    after looking at [(x, y)]. *)
Definition closestStep (g : Grid) (ex ey : Z)
    (closestCell : option (Z * Z * Z)) (p : Z * Z) : option (Z * Z * Z) :=
  let '(x, y) := p in
  match validCellAt g x y with
  | Some cell =>
    if visited cell then
      let distance := Z.abs (x - ex) + Z.abs (y - ey) in
      match closestCell with
      | None => Some (x, y, distance)
      | Some (_, _, d0) => if distance <? d0 then Some (x, y, distance) else closestCell
      end
    else closestCell
  | None => closestCell
  end.

Definition findClosest (g : Grid) (ex ey : Z) : option (Z * Z * Z) :=
  fold_left (closestStep g ex ey) rowMajor None.

Definition connectToExit (fuel : nat) (st : State) : option State :=
  let '(ex, ey) := exit st in
  match findClosest (grid st) ex ey with
  | Some (x, y, _) => createPathToExit fuel x y st
  | None => Some st
  end.

(** The check at the end of the body of the carving loop:
    [if (stack.length === 0 && !this.hasPathToExit()) this.connectToExit()]. *)
Definition repairCheck (fuel : nat) (stack : list (Z * Z)) (st : State) : option State :=
  match stack with
  | [] => if hasPathToExit st then Some st else connectToExit fuel st
  | _ :: _ => Some st
  end.

(** ** The carver *)

Record Neighbor := mkNeighbor { nb_x : Z; nb_y : Z; dirIndex : nat }.

(** The candidate of direction number [i], if it is in bounds and unvisited. *)
Definition candidate (g : Grid) (x y : Z) (i : nat) (dir : Direction) : list Neighbor :=
  let newX := x + dir_x dir in
  let newY := y + dir_y dir in
  if isValidCell newX newY then
    match cellAt g newX newY with
    | Some neighborCell =>
      if visited neighborCell then [] else [mkNeighbor newX newY i]
    | None => []
    end
  else [].

Definition unvisitedNeighbors (g : Grid) (x y : Z) : list Neighbor :=
  concat (imap (candidate g x y) DIRECTIONS).

(** The body of the [while (stack.length > 0)] loop of [depthFirstSearch],
    run with [(x, y)] on top of the stack and [rest] below it (the head of a
    list is the top of the stack). It returns the state and the stack at the
    end of the iteration; the three [continue] statements leave the stack as
    it was and skip the repair check. *)
Definition dfsBody (fuel : nat) (st : State) (x y : Z) (rest : list (Z * Z))
    : option (State * list (Z * Z)) :=
  let stack := (x, y) :: rest in
  let neighbors := unvisitedNeighbors (grid st) x y in
  match neighbors with
  | _ :: _ =>
    let '(r, st1) := seedRandom st in
    let neighborIndex := scaleFloor r (Z.of_nat (length neighbors)) in
    match arr_get neighbors neighborIndex with
    | None => Some (st1, stack)
    | Some neighbor =>
      match DIRECTIONS !! dirIndex neighbor with
      | None => Some (st1, stack)
      | Some dir =>
        match cellAt (grid st1) x y, cellAt (grid st1) (nb_x neighbor) (nb_y neighbor) with
        | Some _, Some _ =>
          let g1 := removeWallPair (grid st1) x y (wall dir)
                      (nb_x neighbor) (nb_y neighbor) (opposite dir) in
          let g2 := updCell g1 (nb_x neighbor) (nb_y neighbor) markVisited in
          let stack' := (nb_x neighbor, nb_y neighbor) :: stack in
          match repairCheck fuel stack' (set_grid g2 st1) with
          | Some st2 => Some (st2, stack')
          | None => None
          end
        | _, _ => Some (st1, stack)
        end
      end
    end
  | [] =>
    match repairCheck fuel rest st with
    | Some st2 => Some (st2, rest)
    | None => None
    end
  end.

(** The loop itself; one unit of fuel per iteration. *)
Fixpoint dfsLoop (fuel : nat) (st : State) (stack : list (Z * Z)) : option State :=
  match stack with
  | [] => Some st
  | (x, y) :: rest =>
    match fuel with
    | O => None
    | S fuel' =>
      match dfsBody fuel' st x y rest with
      | Some (st', stack') => dfsLoop fuel' st' stack'
      | None => None
      end
    end
  end.

Definition depthFirstSearch (fuel : nat) (startX startY : Z) (st : State) : option State :=
  if negb (isValidCell startX startY) then Some st
  else
    match cellAt (grid st) startX startY with
    | Some _ =>
      dfsLoop fuel (set_grid (updCell (grid st) startX startY markVisited) st)
        [(startX, startY)]
    | None => Some st
    end.

(** ** Loop injection *)

(** [Math.floor(totalCells * 0.1)] *)
Definition connectionsToAdd : Z :=
  Qfloor (inject_Z (MAZE_SIZE * MAZE_SIZE) * (1 # 10)).

(** The body of the [for] loop of [addExtraConnections]. *)
Definition extraConnection (st : State) : State :=
  let '(r1, st1) := seedRandom st in
  let x := scaleFloor r1 MAZE_SIZE in
  let '(r2, st2) := seedRandom st1 in
  let y := scaleFloor r2 MAZE_SIZE in
  if negb (isValidCell x y) then st2
  else
    let '(r3, st3) := seedRandom st2 in
    let dirIndex := scaleFloor r3 (Z.of_nat (length DIRECTIONS)) in
    match arr_get DIRECTIONS dirIndex with
    | None => st3
    | Some dir =>
      let nextX := x + dir_x dir in
      let nextY := y + dir_y dir in
      if isValidCell nextX nextY then
        match cellAt (grid st3) x y, cellAt (grid st3) nextX nextY with
        | Some _, Some _ =>
          set_grid (removeWallPair (grid st3) x y (wall dir) nextX nextY (opposite dir)) st3
        | _, _ => st3
        end
      else st3
    end.

Definition addExtraConnections (st : State) : State :=
  Nat.iter (Z.to_nat connectionsToAdd) extraConnection st.

(** ** The build pipeline *)

(** "Ensure the entrance has no top wall" / "Ensure the exit has no bottom
    wall": the guarded assignment [cell.walls[d] = false]. *)
Definition openWall (x y : Z) (d : WallDirection) (st : State) : State :=
  if isValidCell x y then
    match cellAt (grid st) x y with
    | Some _ => set_grid (updCell (grid st) x y (removeWall d)) st
    | None => st
    end
  else st.

(** [Math.floor(MAZE_SIZE / 2)] is the integer quotient [MAZE_SIZE / 2]. The
    two guards of the source, [startY >= 0 && startY < MAZE_SIZE && startX >= 0
    && startX < MAZE_SIZE] and the same for the exit, are [isValidCell]. *)
Definition generateMaze (fuel : nat) (st : State) : option State :=
  let st := set_seed FIXED_SEED st in
  let startX := MAZE_SIZE / 2 in
  let startY := 0 in
  let st := set_entrance (startX, startY) st in
  let st := initializeGrid st in
  let st := openWall startX startY top st in
  let exitX := MAZE_SIZE / 2 in
  let exitY := MAZE_SIZE - 1 in
  let st := set_exit (exitX, exitY) st in
  match depthFirstSearch fuel startX startY st with
  | None => None
  | Some st =>
    let st := openWall exitX exitY bottom st in
    Some (addExtraConnections st)
  end.

End MazeGenerator.

(** ** The query layer *)

Definition visitedAt (g : Grid) (x y : Z) : bool :=
  match cellAt g x y with
  | Some cell => visited cell
  | None => false
  end.

(** [cell?.visited || false] *)
Definition isWalkableCell (st : State) (gridX gridZ : Z) : bool :=
  visitedAt (grid st) gridX gridZ.

(** World coordinates are finite doubles, given by their rational values.
    [PATH_WIDTH] is a power of two, so the quotient [x / PATH_WIDTH] of a
    double is exact unless it falls under the normal range, below
    [MIN_NORMAL = 2^-1022] in absolute value. There it is rounded to the
    nearest multiple of [MIN_VALUE = 2^-1074], a tie going to the even
    multiple. A quotient that rounds to zero is [0] or [-0]; both pass
    [>= 0] and both index the element [0]. *)
Definition MIN_VALUE : Q := 1 # (2 ^ 1074).
Definition MIN_NORMAL : Q := 1 # (2 ^ 1022).

Definition roundTiesToEven (q : Q) : Z :=
  let n := Qfloor q in
  match (q - inject_Z n ?= 1 # 2)%Q with
  | Lt => n
  | Gt => n + 1
  | Eq => if Z.even n then n else n + 1
  end.

(** [x / PATH_WIDTH] *)
Definition divPathWidth (x : Q) : Q :=
  let q := (x / inject_Z PATH_WIDTH)%Q in
  if Qle_bool MIN_NORMAL (Qabs q) then q
  else (inject_Z (roundTiesToEven (q / MIN_VALUE)) * MIN_VALUE)%Q.

Definition isWalkablePath (st : State) (worldX worldY worldZ : Q) : bool :=
  if Qltb worldZ 0 || Qle_bool (inject_Z (MAZE_SIZE * PATH_WIDTH)) worldZ then true
  else
    let gridX := Qfloor (divPathWidth worldX) in
    let gridZ := Qfloor (divPathWidth worldZ) in
    isValidCell gridX gridZ && isWalkableCell st gridX gridZ.

Definition getCellCenter (st : State) (gridX gridZ : Z) : Vec3 :=
  mkVec3 (inject_Z gridX * inject_Z PATH_WIDTH + inject_Z PATH_WIDTH / 2)
         (vy (entranceWorldPosition st) + 1)
         (inject_Z gridZ * inject_Z PATH_WIDTH + inject_Z PATH_WIDTH / 2).

(** The cells are pushed as [{x, z}], in the order of the nested loops. *)
Definition getAllWalkableCells (st : State) : list (Z * Z) :=
  List.filter (fun c => isWalkableCell st (fst c) (snd c)) rowMajor.

Definition getExit (st : State) : Vec3 :=
  mkVec3 (inject_Z (fst (exit st)) * inject_Z PATH_WIDTH + inject_Z PATH_WIDTH / 2)
         1
         (inject_Z (MAZE_SIZE * PATH_WIDTH) + inject_Z PLATFORM_DEPTH / 2).

Definition manhattan (p q : Z * Z) : Z :=
  Z.abs (fst p - fst q) + Z.abs (snd p - snd q).

Section Queries.

Variable Math_sin : Z -> Q.

(** [getEntrance] assigns [this.entranceWorldPosition] and returns it. *)
Definition getEntrance (st : State) : Vec3 * State :=
  let w := mkVec3 (inject_Z (fst (entrance st)) * inject_Z PATH_WIDTH + inject_Z PATH_WIDTH / 2)
                  1
                  (- inject_Z PLATFORM_DEPTH / 2) in
  (w, set_entranceWorldPosition w st).

Definition farFromEnds (st : State) (excludeRadius : Q) (cell : Z * Z) : bool :=
  let distFromEntrance := manhattan cell (entrance st) in
  let distFromExit := manhattan cell (exit st) in
  Qltb excludeRadius (inject_Z distFromEntrance) && Qltb excludeRadius (inject_Z distFromExit).

Definition getRandomWalkablePosition (excludeRadius : Q) (st : State) : option Vec3 * State :=
  let walkableCells := getAllWalkableCells st in
  if (length walkableCells =? 0)%nat then (None, st)
  else
    let eligibleCells :=
      if Qltb 0 excludeRadius then List.filter (farFromEnds st excludeRadius) walkableCells
      else walkableCells in
    let eligibleCells :=
      if (length eligibleCells =? 0)%nat then walkableCells else eligibleCells in
    if (length eligibleCells =? 0)%nat then (None, st)
    else
      let '(r, st1) := seedRandom Math_sin st in
      let len := Z.of_nat (length eligibleCells) in
      let randomIndex := Z.min (scaleFloor r len) (len - 1) in
      match arr_get eligibleCells randomIndex with
      | None => (None, st1)
      | Some randomCell => (Some (getCellCenter st1 (fst randomCell) (snd randomCell)), st1)
      end.

End Queries.

(** ** The unseeded helpers [createPatternMaze] and [addRandomPaths] *)

(** The body of the first loop of [createPatternMaze] for one [row]; the
    state of the loop is the grid and [currentCol]. *)
Definition patternRow (s : Grid * Z) (row : Z) : Grid * Z :=
  let '(g, currentCol) := s in
  match cellAt g currentCol row with
  | None => (g, currentCol)
  | Some _ =>
    let g1 := updCell g currentCol row markVisited in
    let nextCol :=
      if row mod 2 =? 0 then Z.min (currentCol + 1) (MAZE_SIZE - 1)
      else Z.max (currentCol - 1) 0 in
    let g2 :=
      if currentCol <? nextCol then
        let g' := updCell g1 currentCol row (removeWall right) in
        match cellAt g' nextCol row with
        | Some _ => updCell g' nextCol row (removeWall left)
        | None => g'
        end
      else if nextCol <? currentCol then
        let g' := updCell g1 currentCol row (removeWall left) in
        match cellAt g' nextCol row with
        | Some _ => updCell g' nextCol row (removeWall right)
        | None => g'
        end
      else g1 in
    let g3 := updCell g2 currentCol row (removeWall bottom) in
    let g4 :=
      match cellAt g3 currentCol (row + 1) with
      | Some _ => updCell g3 currentCol (row + 1) (removeWall top)
      | None => g3
      end in
    (g4, nextCol)
  end.

(** The body of the second loop of [createPatternMaze], on the last row. *)
Definition patternLastStep (direction : Z) (g : Grid) (col : Z) : Grid :=
  let lastRow := MAZE_SIZE - 1 in
  match cellAt g col lastRow with
  | None => g
  | Some _ =>
    let g1 := updCell g col lastRow markVisited in
    if 0 <? direction then
      let g2 := updCell g1 col lastRow (removeWall right) in
      match cellAt g2 (col + direction) lastRow with
      | Some _ => updCell g2 (col + direction) lastRow (removeWall left)
      | None => g2
      end
    else
      let g2 := updCell g1 col lastRow (removeWall left) in
      match cellAt g2 (col + direction) lastRow with
      | Some _ => updCell g2 (col + direction) lastRow (removeWall right)
      | None => g2
      end
  end.

(** The values of [col] in [for (col = from; col !== to; col += direction)]
    when [direction] is the unit step from [from] towards [to]. *)
Definition colsToward (from to direction : Z) : list Z :=
  map (fun k => from + direction * Z.of_nat k) (seq 0 (Z.to_nat (Z.abs (to - from)))).

Definition createPatternMaze (st : State) : State :=
  let entranceCol := MAZE_SIZE / 2 in
  let exitCol := MAZE_SIZE / 2 in
  let '(g, currentCol) :=
    fold_left patternRow (range (MAZE_SIZE - 1)) (grid st, entranceCol) in
  let lastRow := MAZE_SIZE - 1 in
  match arr_get g lastRow with
  | Some _ =>
    if negb (currentCol =? exitCol) then
      let direction := if currentCol <? exitCol then 1 else -1 in
      set_grid (fold_left (patternLastStep direction) (colsToward currentCol exitCol direction) g) st
    else set_grid g st
  | None => set_grid g st
  end.

(** [addRandomPaths] draws from [Math.random()], which is not the seeded
    generator: [rand k] is the value of the [k]-th call. The state of the
    loop is the grid and the number of calls made so far. *)
Definition randomPath (rand : nat -> Q) (s : Grid * nat) : Grid * nat :=
  let '(g, k) := s in
  let row := scaleFloor (rand k) (MAZE_SIZE - 1) in
  let col := scaleFloor (rand (S k)) (MAZE_SIZE - 1) in
  match cellAt g col row with
  | None => (g, S (S k))
  | Some _ =>
    let wallToRemove := scaleFloor (rand (S (S k))) 4 in
    let k' := S (S (S k)) in
    if (wallToRemove =? 0) && (0 <? row) then
      let g1 := updCell g col row (removeWall top) in
      match cellAt g1 col (row - 1) with
      | Some _ => (updCell g1 col (row - 1) (removeWall bottom), k')
      | None => (g1, k')
      end
    else if (wallToRemove =? 1) && (col <? MAZE_SIZE - 1) then
      let g1 := updCell g col row (removeWall right) in
      match cellAt g1 (col + 1) row with
      | Some _ => (updCell g1 (col + 1) row (removeWall left), k')
      | None => (g1, k')
      end
    else if (wallToRemove =? 2) && (row <? MAZE_SIZE - 1) then
      let g1 := updCell g col row (removeWall bottom) in
      match cellAt g1 col (row + 1) with
      | Some _ => (updCell g1 col (row + 1) (removeWall top), k')
      | None => (g1, k')
      end
    else if (wallToRemove =? 3) && (0 <? col) then
      let g1 := updCell g col row (removeWall left) in
      match cellAt g1 (col - 1) row with
      | Some _ => (updCell g1 (col - 1) row (removeWall left), k')
      | None => (g1, k')
      end
    else (g, k')
  end.

Definition addRandomPaths (rand : nat -> Q) (count : nat) (st : State) : State :=
  set_grid (fst (Nat.iter count (randomPath rand) (grid st, 0%nat))) st.

(** ** Predicates used by the statements *)

(** The shape [initializeGrid] gives the grid: [MAZE_SIZE] rows of
    [MAZE_SIZE] cells. *)
Definition wfGrid (g : Grid) : Prop :=
  length g = Z.to_nat MAZE_SIZE /\
  Forall (fun row => length row = Z.to_nat MAZE_SIZE) g.

Definition adjacent (x y x' y' : Z) : Prop :=
  Z.abs (x - x') + Z.abs (y - y') = 1.

(** The cell at [(x, y)] exists and has no wall on side [d]. *)
Definition wallAbsent (g : Grid) (x y : Z) (d : WallDirection) : Prop :=
  exists c, cellAt g x y = Some c /\ wall_get (walls c) d = false.

Definition allVisited (g : Grid) : Prop :=
  forall x y, isValidCell x y = true ->
    exists c, cellAt g x y = Some c /\ visited c = true.

(** Assignments that only set [visited] or only clear wall flags. *)
Definition monotoneOp (f : Cell -> Cell) : Prop :=
  forall c,
    (visited c = true -> visited (f c) = true) /\
    (forall d, wall_get (walls c) d = false -> wall_get (walls (f c)) d = false).

(** [carved g g']: [g'] is [g] after a sequence of such assignments. *)
Inductive carved : Grid -> Grid -> Prop :=
| carved_refl g : carved g g
| carved_upd g g' x y f :
    carved g g' -> 0 <= x -> 0 <= y -> monotoneOp f ->
    carved g (updCell g' x y f).

Definition unvisitedCount (g : Grid) : nat :=
  length (List.filter (fun p => negb (visitedAt g (fst p) (snd p))) rowMajor).

(** The invariant of the carving loop. *)
Definition dfsInv (g : Grid) (stack : list (Z * Z)) : Prop :=
  (forall p, In p stack -> isValidCell (fst p) (snd p) = true /\ visitedAt g (fst p) (snd p) = true) /\
  (forall x y, isValidCell x y = true -> visitedAt g x y = true ->
     In (x, y) stack \/
     forall x' y', adjacent x y x' y' -> isValidCell x' y' = true -> visitedAt g x' y' = true).

(** Fuel that always suffices for one build. *)
Definition buildFuel : nat := 2 * length rowMajor + 1.

(** What a build step may change: the grid, by carving only, and the seed
    counter, by advancing it. *)
Definition framed (st st' : State) : Prop :=
  carved (grid st) (grid st') /\
  entrance st' = entrance st /\
  exit st' = exit st /\
  entranceWorldPosition st' = entranceWorldPosition st /\
  currentSeed st <= currentSeed st'.

Definition exitValid (st : State) : Prop :=
  isValidCell (fst (exit st)) (snd (exit st)) = true.

(** The wall flag of side [d] of the cell at [(x, y)], if the cell exists. *)
Definition wallAt (g : Grid) (x y : Z) (d : WallDirection) : option bool :=
  (fun c => wall_get (walls c) d) <$> cellAt g x y.

(** The value the generator returns when the counter is [s]. *)
Definition drawAt (Math_sin : Z -> Q) (s : Z) : Q :=
  frac (Math_sin s * inject_Z 10000).

(** Specification of one iteration of the loop injector, in the words of
    its contract: draw a cell and one of the four directions, and remove the
    wall pair towards the neighbour in that direction if that neighbour is in
    bounds. *)
Definition injectedCell (Math_sin : Z -> Q) (s : Z) : Z * Z :=
  (scaleFloor (drawAt Math_sin s) MAZE_SIZE,
   scaleFloor (drawAt Math_sin (s + 1)) MAZE_SIZE).

Definition injectedDirection (Math_sin : Z -> Q) (s : Z) : Direction :=
  nth (Z.to_nat (scaleFloor (drawAt Math_sin (s + 2)) 4)) DIRECTIONS
      (mkDirection 0 0 top top).

Definition injectOnceSpec (Math_sin : Z -> Q) (st : State) : State :=
  let s := currentSeed st in
  let '(x, y) := injectedCell Math_sin s in
  let dir := injectedDirection Math_sin s in
  let nx := x + dir_x dir in
  let ny := y + dir_y dir in
  mkState (s + 3)
    (if isValidCell nx ny
     then removeWallPair (grid st) x y (wall dir) nx ny (opposite dir)
     else grid st)
    (entrance st) (exit st) (entranceWorldPosition st).

(** What [buildMaze] assigns: [this.entranceWorldPosition.y = 1]. The
    blocks it places go to the world, which is not part of the state. *)
Definition buildMaze (st : State) : State :=
  set_entranceWorldPosition
    (mkVec3 (vx (entranceWorldPosition st)) 1 (vz (entranceWorldPosition st))) st.

(** A built maze, as the server makes it: [new MazeGenerator()], then
    [generateMaze()], then [buildMaze(world)]. *)
Definition built (Math_sin : Z -> Q) (FIXED_SEED : Z) (st : State) : Prop :=
  exists fuel st0,
    generateMaze Math_sin FIXED_SEED fuel (constructor FIXED_SEED) = Some st0 /\
    st = buildMaze st0.

(** The six query methods, with their arguments, and what each returns. *)
Inductive Query :=
| QIsWalkablePath (worldX worldY worldZ : Q)
| QGetCellCenter (gridX gridZ : Z)
| QGetAllWalkableCells
| QGetRandomWalkablePosition (excludeRadius : Q)
| QGetEntrance
| QGetExit.

Inductive QueryResult :=
| RBool (b : bool)
| RVec (v : Vec3)
| RCells (l : list (Z * Z))
| RVecOrNull (o : option Vec3).

(** A call of a query method: its result and the state it leaves. The
    methods that assign nothing leave the state they were called on. *)
Definition runQuery (Math_sin : Z -> Q) (q : Query) (st : State) : QueryResult * State :=
  match q with
  | QIsWalkablePath worldX worldY worldZ => (RBool (isWalkablePath st worldX worldY worldZ), st)
  | QGetCellCenter gridX gridZ => (RVec (getCellCenter st gridX gridZ), st)
  | QGetAllWalkableCells => (RCells (getAllWalkableCells st), st)
  | QGetRandomWalkablePosition excludeRadius =>
    let '(o, st') := getRandomWalkablePosition Math_sin excludeRadius st in (RVecOrNull o, st')
  | QGetEntrance => let '(v, st') := getEntrance st in (RVec v, st')
  | QGetExit => (RVec (getExit st), st)
  end.

(** A cell of the grid that is in bounds and visited. *)
Definition walkable (st : State) (c : Z * Z) : Prop :=
  isValidCell (fst c) (snd c) = true /\
  exists cell, cellAt (grid st) (fst c) (snd c) = Some cell /\ visited cell = true.

(** Its Manhattan distances to the entrance and to the exit both exceed [r]. *)
Definition farFromBoth (st : State) (r : Q) (c : Z * Z) : Prop :=
  (r < inject_Z (manhattan c (entrance st)))%Q /\
  (r < inject_Z (manhattan c (exit st)))%Q.

(** ** Specification of the connectivity repair *)

(** [p] comes before [q] in the row-major scan. *)
Definition rowMajorLt (p q : Z * Z) : Prop :=
  snd p < snd q \/ (snd p = snd q /\ fst p < fst q).

Definition visitedCell (g : Grid) (p : Z * Z) : Prop :=
  isValidCell (fst p) (snd p) = true /\ visitedAt g (fst p) (snd p) = true.

(** [p] is the visited cell with the least Manhattan distance to [e], and
    among those at that distance the first of the row-major scan. *)
Definition nearestVisited (g : Grid) (e p : Z * Z) : Prop :=
  visitedCell g p /\
  forall q, visitedCell g q ->
    manhattan p e < manhattan q e \/
    (manhattan p e = manhattan q e /\ (p = q \/ rowMajorLt p q)).

(** One step of the corridor from [p] towards [e]: vertically while any row
    offset remains, horizontally after that. It gives the next cell, the wall
    of [p] to remove and the facing wall of the next cell. *)
Definition corridorStep (e p : Z * Z) : (Z * Z) * WallDirection * WallDirection :=
  let '(ex, ey) := e in
  let '(x, y) := p in
  if y <? ey then ((x, y + 1), bottom, top)
  else if ey <? y then ((x, y - 1), top, bottom)
  else if x <? ex then ((x + 1, y), right, left)
  else ((x - 1, y), left, right).

(** The corridor of [steps] steps: each step marks the cell it leaves as
    visited and removes the wall pair towards the next cell. *)
Fixpoint carveCorridor (steps : nat) (g : Grid) (e p : Z * Z) : Grid :=
  match steps with
  | O => g
  | S n =>
    let '(q, w, o) := corridorStep e p in
    let g1 := updCell g (fst p) (snd p) markVisited in
    carveCorridor n (removeWallPair g1 (fst p) (snd p) w (fst q) (snd q) o) e q
  end.

(** The repair from [p]: the corridor to the exit [e], then the exit is
    marked visited. *)
Definition repairSpec (g : Grid) (e p : Z * Z) : Grid :=
  updCell (carveCorridor (Z.to_nat (manhattan p e)) g e p) (fst e) (snd e) markVisited.

(** The cells of that corridor: the column of [p] between the rows of [p]
    and [e], then the row of [e] between the columns of [p] and [e]. *)
Definition onCorridor (e p c : Z * Z) : Prop :=
  (fst c = fst p /\ Z.min (snd p) (snd e) <= snd c <= Z.max (snd p) (snd e)) \/
  (snd c = snd e /\ Z.min (fst p) (fst e) <= fst c <= Z.max (fst p) (fst e)).

(** The invariant of the scan of [connectToExit] after the cells [l]. *)
Definition scanInv (g : Grid) (e : Z * Z) (l : list (Z * Z)) (acc : option (Z * Z * Z)) : Prop :=
  match acc with
  | None => forall p, In p l -> ~ visitedCell g p
  | Some (x, y, dist) =>
    dist = manhattan (x, y) e /\ visitedCell g (x, y) /\
    exists la lb, l = la ++ (x, y) :: lb /\
      (forall p, In p la -> visitedCell g p -> manhattan (x, y) e < manhattan p e) /\
      (forall p, In p lb -> visitedCell g p -> manhattan (x, y) e <= manhattan p e)
  end.

(** Mutual wall consistency: between two adjacent in-bounds cells the
    wall flag of the one facing the other is absent exactly when the facing
    flag of the other is. *)
Definition wallsConsistent (g : Grid) : Prop :=
  forall x y dir, In dir DIRECTIONS ->
    isValidCell x y = true -> isValidCell (x + dir_x dir) (y + dir_y dir) = true ->
    (wallAt g x y (wall dir) = Some false
     <-> wallAt g (x + dir_x dir) (y + dir_y dir) (opposite dir) = Some false).

(** The entry of [DIRECTIONS] whose [wall] is [d]. *)
Definition dirOf (d : WallDirection) : Direction :=
  match d with
  | top => mkDirection 0 (-1) top bottom
  | right => mkDirection 1 0 right left
  | bottom => mkDirection 0 1 bottom top
  | left => mkDirection (-1) 0 left right
  end.

(** The wall flag that faces the flag [d] of the cell [(x, y)]: the
    opposite flag of the neighbour on side [d]. *)
Definition facing (f : Z * Z * WallDirection) : Z * Z * WallDirection :=
  let '(x, y, d) := f in
  (x + dir_x (dirOf d), y + dir_y (dirOf d), opposite (dirOf d)).

(** [pairCarved g g']: [g'] is [g] after a sequence of assignments each of
    which marks a cell visited, or removes the two facing flags of a wall
    between two cells of the grid, or removes a flag that faces no cell of
    the grid (a wall on the outer boundary). *)
Inductive pairCarved : Grid -> Grid -> Prop :=
| pc_refl g : pairCarved g g
| pc_visit g g' x y :
    pairCarved g g' -> 0 <= x -> 0 <= y ->
    pairCarved g (updCell g' x y markVisited)
| pc_pair g g' x y d nx ny o :
    pairCarved g g' ->
    is_Some (cellAt g' x y) -> is_Some (cellAt g' nx ny) ->
    (nx, ny, o) = facing (x, y, d) ->
    pairCarved g (removeWallPair g' x y d nx ny o)
| pc_outer g g' x y d :
    pairCarved g g' ->
    is_Some (cellAt g' x y) ->
    cellAt g' (x + dir_x (dirOf d)) (y + dir_y (dirOf d)) = None ->
    pairCarved g (updCell g' x y (removeWall d)).

(** Values of [Math.random()] that make [addRandomPaths] pick row 0,
    column 1 and the left wall: [floor(0 * 49) = 0], [floor(0.03 * 49) = 1],
    [floor(0.8 * 4) = 3]. *)
Definition leftWallDraws (k : nat) : Q :=
  match k with
  | O => 0
  | S O => 3 # 100
  | _ => 4 # 5
  end.

(** A table to instantiate [Math.sin] with in examples. *)
Definition sample_sin (s : Z) : Q := ((s * 7919) mod 20001 - 10000) # 10000.

(** ** Passages *)

(** A passage from [p] to [q]: [q] is the neighbour of [p] in one of the
    four directions and neither cell has a wall facing the other. *)
Definition passage (g : Grid) (p q : Z * Z) : Prop :=
  exists dir, In dir DIRECTIONS /\
    q = (fst p + dir_x dir, snd p + dir_y dir) /\
    wallAt g (fst p) (snd p) (wall dir) = Some false /\
    wallAt g (fst q) (snd q) (opposite dir) = Some false.

(** [connected g s p]: a walk of passages leads from [s] to [p]. *)
Inductive connected (g : Grid) (s : Z * Z) : Z * Z -> Prop :=
| connected_refl : connected g s s
| connected_step p q : connected g s p -> passage g p q -> connected g s q.

(** Every visited in-bounds cell is connected to [s]. *)
Definition reachInv (g : Grid) (s : Z * Z) : Prop :=
  forall x y, isValidCell x y = true -> visitedAt g x y = true -> connected g s (x, y).

(** The maze a new generator builds with the table [sample_sin] and the
    seed 12345, for examples. *)
Definition sampleMaze : State :=
  default (constructor 12345)
    (generateMaze sample_sin 12345 buildFuel (constructor 12345)).

(** ** The block registry ([block-registry.ts]) and the world *)

Definition WALL_HEIGHT : Z := 7.
Definition PLATFORM_WIDTH : Z := 10.

Definition MAZE_FLOOR_BLOCK_ID : Z := 101.
Definition MAZE_WALL_DRAGONS_STONE_ID : Z := 100.
Definition MAZE_WALL_GHOST_DIRT_ID : Z := 102.
Definition MAZE_WALL_VOID_SAND_ID : Z := 103.
Definition MAZE_WALL_INFECTED_SHADOWROCK_ID : Z := 104.

Definition MAZE_WALL_BLOCK_IDS : list Z :=
  [ MAZE_WALL_DRAGONS_STONE_ID; MAZE_WALL_GHOST_DIRT_ID;
    MAZE_WALL_VOID_SAND_ID; MAZE_WALL_INFECTED_SHADOWROCK_ID ].

Definition FLOOR_BLOCK_ID : Z := MAZE_FLOOR_BLOCK_ID.

(** The initial value of the module-level [blockSeed], which is also the
    value [getRandomWallBlockId] resets it to. *)
Definition BLOCK_SEED : Z := 54321.

(** [seedRandomBlock], on the module-level counter [blockSeed]. *)
Definition seedRandomBlock (Math_sin : Z -> Q) (blockSeed : Z) : Q * Z :=
  (frac (Math_sin blockSeed * inject_Z 10000), blockSeed + 1).

(** [getRandomWallBlockId]: the identifier and the counter it leaves. [%] is
    the remainder that takes the sign of the dividend ([Z.rem]); [a || b] is
    [b] when [a] is [undefined] or [0]. *)
Definition getRandomWallBlockId (Math_sin : Z -> Q) (blockSeed : Z) : Z * Z :=
  let blockSeed := if Z.rem blockSeed 1000 =? 0 then BLOCK_SEED else blockSeed in
  let '(r, blockSeed) := seedRandomBlock Math_sin blockSeed in
  let len := Z.of_nat (length MAZE_WALL_BLOCK_IDS) in
  let randomIndex := scaleFloor r len in
  match arr_get MAZE_WALL_BLOCK_IDS (Z.rem randomIndex len) with
  | Some id => (if id =? 0 then MAZE_WALL_DRAGONS_STONE_ID else id, blockSeed)
  | None => (MAZE_WALL_DRAGONS_STONE_ID, blockSeed)
  end.

(** The blocks of [world.chunkLattice]: block type identifiers by position
    [(x, y, z)]. *)
Abbreviation World := (gmap (Z * Z * Z) Z).

(** [world.chunkLattice.setBlock({x, y, z}, id)] *)
Definition setBlock (p : Z * Z * Z) (id : Z) (w : World) : World := <[p := id]> w.

(** [for (let i = a; i < b; i++)] enumerates [a .. b-1]. *)
Definition rangeFrom (a b : Z) : list Z :=
  map (fun k => a + Z.of_nat k) (seq 0 (Z.to_nat (b - a))).

(** The two nested loops [for x ... for z ... setBlock({x, y: 0, z},
    FLOOR_BLOCK_ID)] over the values [xs] and [zs]. *)
Definition fillFloor (xs zs : list Z) (w : World) : World :=
  fold_left (fun w x => fold_left (fun w z => setBlock (x, 0, z) FLOOR_BLOCK_ID w) zs w) xs w.

(** [PLATFORM_WIDTH / 2] is the integer 5. *)
Definition buildBasePlate (st : State) (w : World) : World :=
  let totalSize := MAZE_SIZE * PATH_WIDTH in
  let w := fillFloor (range totalSize) (range totalSize) w in
  let entranceX := fst (entrance st) * PATH_WIDTH in
  let halfPlatformWidth := PLATFORM_WIDTH / 2 in
  let entrancePlatformStartX := Z.max 0 (entranceX - halfPlatformWidth) in
  let entrancePlatformEndX := Z.min totalSize (entranceX + PATH_WIDTH + halfPlatformWidth) in
  let w := fillFloor (rangeFrom entrancePlatformStartX entrancePlatformEndX)
             (rangeFrom (- PLATFORM_DEPTH) 0) w in
  let exitX := fst (exit st) * PATH_WIDTH in
  let exitPlatformStartX := Z.max 0 (exitX - halfPlatformWidth) in
  let exitPlatformEndX := Z.min totalSize (exitX + PATH_WIDTH + halfPlatformWidth) in
  fillFloor (rangeFrom exitPlatformStartX exitPlatformEndX)
    (rangeFrom totalSize (totalSize + PLATFORM_DEPTH)) w.

(** One wall of a cell: the loops [for i in 0 .. PATH_WIDTH-1, for y in
    1 .. WALL_HEIGHT], each iteration drawing a block identifier and placing
    it at [pos i y]. The state is the world and [blockSeed]. *)
Definition placeWallBlock (Math_sin : Z -> Q) (pos : Z -> Z -> Z * Z * Z) (i : Z)
    (s : World * Z) (y : Z) : World * Z :=
  let '(blockId, blockSeed) := getRandomWallBlockId Math_sin (snd s) in
  (setBlock (pos i y) blockId (fst s), blockSeed).

Definition placeWall (Math_sin : Z -> Q) (pos : Z -> Z -> Z * Z * Z) (s : World * Z)
    : World * Z :=
  fold_left (fun s i => fold_left (placeWallBlock Math_sin pos i) (rangeFrom 1 (WALL_HEIGHT + 1)) s)
    (range PATH_WIDTH) s.

(** The body of the loops of [buildWalls] for the cell [(gridX, gridY)]. *)
Definition buildCellWalls (Math_sin : Z -> Q) (g : Grid) (s : World * Z) (p : Z * Z)
    : World * Z :=
  let '(gridX, gridY) := p in
  if negb (isValidCell gridX gridY) then s
  else
    match cellAt g gridX gridY with
    | None => s
    | Some cell =>
      let baseX := gridX * PATH_WIDTH in
      let baseZ := gridY * PATH_WIDTH in
      let s := if wall_top (walls cell)
               then placeWall Math_sin (fun x y => (baseX + x, y, baseZ)) s else s in
      let s := if wall_right (walls cell)
               then placeWall Math_sin (fun z y => (baseX + PATH_WIDTH, y, baseZ + z)) s else s in
      let s := if wall_bottom (walls cell)
               then placeWall Math_sin (fun x y => (baseX + x, y, baseZ + PATH_WIDTH)) s else s in
      let s := if wall_left (walls cell)
               then placeWall Math_sin (fun z y => (baseX, y, baseZ + z)) s else s in
      s
    end.

Definition buildWalls (Math_sin : Z -> Q) (st : State) (s : World * Z) : World * Z :=
  fold_left (buildCellWalls Math_sin (grid st)) rowMajor s.

(** What [buildMaze] does to the world and to [blockSeed]: the base plate,
    then the walls. *)
Definition buildMazeWorld (Math_sin : Z -> Q) (st : State) (s : World * Z) : World * Z :=
  buildWalls Math_sin st (buildBasePlate st (fst s), snd s).

(** The block positions of the wall on side [d] of the cell [(gx, gy)]:
    [i] runs along the wall, [y] up. *)
Definition wallBlock (gx gy : Z) (d : WallDirection) (i y : Z) : Z * Z * Z :=
  match d with
  | top => (gx * PATH_WIDTH + i, y, gy * PATH_WIDTH)
  | right => (gx * PATH_WIDTH + PATH_WIDTH, y, gy * PATH_WIDTH + i)
  | bottom => (gx * PATH_WIDTH + i, y, gy * PATH_WIDTH + PATH_WIDTH)
  | left => (gx * PATH_WIDTH, y, gy * PATH_WIDTH + i)
  end.

(** The positions the loop body of [buildWalls] writes for one cell. *)
Definition cellWallSite (g : Grid) (gx gy : Z) (p : Z * Z * Z) : Prop :=
  exists d i y, wallAt g gx gy d = Some true /\
    0 <= i < PATH_WIDTH /\ 1 <= y <= WALL_HEIGHT /\ p = wallBlock gx gy d i y.

(** [p] is a block of a wall that some in-bounds cell of [g] has. *)
Definition wallSite (g : Grid) (p : Z * Z * Z) : Prop :=
  exists gx gy d i y,
    isValidCell gx gy = true /\ wallAt g gx gy d = Some true /\
    0 <= i < PATH_WIDTH /\ 1 <= y <= WALL_HEIGHT /\ p = wallBlock gx gy d i y.

(** The block at [p] is one of the wall blocks. *)
Definition wallBlockAt (w : World) (p : Z * Z * Z) : Prop :=
  exists id, In id MAZE_WALL_BLOCK_IDS /\ w !! p = Some id.

(** [w'] is [w] except for wall blocks at positions that satisfy [P]. *)
Definition touched (P : Z * Z * Z -> Prop) (w w' : World) : Prop :=
  forall p, w' !! p = w !! p \/ (P p /\ wallBlockAt w' p).

(** [w'] is [w] with wall blocks placed at the positions that satisfy [P],
    at all of them and nowhere else. *)
Definition painted (P : Z * Z * Z -> Prop) (w w' : World) : Prop :=
  (forall p, P p -> wallBlockAt w' p) /\ touched P w w'.

(** [blockSeed] after [n] calls of [getRandomWallBlockId] since the module
    was loaded, and the identifier the next call returns. *)
Definition blockSeedAfter (Math_sin : Z -> Q) (n : nat) : Z :=
  Nat.iter n (fun s => snd (getRandomWallBlockId Math_sin s)) BLOCK_SEED.

Definition wallBlockIdAt (Math_sin : Z -> Q) (n : nat) : Z :=
  fst (getRandomWallBlockId Math_sin (blockSeedAfter Math_sin n)).

(** [p] is a floor position of the base plate: the footprint of the maze or
    one of the two platforms. *)
Definition floorSite (st : State) (p : Z * Z * Z) : Prop :=
  let totalSize := MAZE_SIZE * PATH_WIDTH in
  let '(x, y, z) := p in
  y = 0 /\
  ((0 <= x < totalSize /\ 0 <= z < totalSize) \/
   (Z.max 0 (fst (entrance st) * PATH_WIDTH - 5) <= x
      < Z.min totalSize (fst (entrance st) * PATH_WIDTH + PATH_WIDTH + 5) /\
    - PLATFORM_DEPTH <= z < 0) \/
   (Z.max 0 (fst (exit st) * PATH_WIDTH - 5) <= x
      < Z.min totalSize (fst (exit st) * PATH_WIDTH + PATH_WIDTH + 5) /\
    totalSize <= z < totalSize + PLATFORM_DEPTH)).

(** The block a position stands in, and the block under it. *)
Definition blockOf (v : Vec3) : Z * Z * Z := (Qfloor (vx v), Qfloor (vy v), Qfloor (vz v)).
Definition blockBelow (v : Vec3) : Z * Z * Z := (Qfloor (vx v), Qfloor (vy v) - 1, Qfloor (vz v)).

(** ** [getMazeLayout] *)

(** [this.grid.map(row => row.map(cell => cell.visited))] *)
Definition getMazeLayout (st : State) : list (list bool) :=
  map (fun row => map (fun cell => visited cell) row) (grid st).

(** [layout[z]?.[x]] *)
Definition layoutAt (layout : list (list bool)) (x z : Z) : option bool :=
  match arr_get layout z with
  | Some row => arr_get row x
  | None => None
  end.

(** ** Item and zombie placement ([index.ts]) *)

Definition MAX_ZOMBIES : nat := 100.
Definition ZOMBIE_SPAWN_EXCLUSION_RADIUS : Q := 3.

(** An entry [{entity, position, active}] of the array [potions]. Of an
    entity, what is kept is the position it was spawned at. *)
Record Potion := mkPotion { potion_position : Vec3; potion_active : bool }.

(** [placeItemSafely]: the entity it returns, or [null], and the array
    [potions]. *)
Definition placeItemSafely (st : State) (position : Vec3) (potions : list Potion)
    : option Vec3 * list Potion :=
  if negb (isWalkablePath st (vx position) (vy position) (vz position)) then (None, potions)
  else (Some position, potions ++ [mkPotion position true]).

(** The body of the loop of [placeRandomPotions]; the state is the
    generator, [potions] and [placedPotions]. *)
Definition placeRandomPotionsStep (Math_sin : Z -> Q)
    (s : State * list Potion * list Vec3) : State * list Potion * list Vec3 :=
  let '(st, potions, placedPotions) := s in
  let '(position, st) := getRandomWalkablePosition Math_sin 3 st in
  match position with
  | Some position =>
    let '(potion, potions) := placeItemSafely st position potions in
    match potion with
    | Some potion => (st, potions, placedPotions ++ [potion])
    | None => (st, potions, placedPotions)
    end
  | None => (st, potions, placedPotions)
  end.

(** [placeRandomPotions(world, mazeGenerator, count)] for a whole number
    [count]: [placedPotions], and the generator and [potions] it leaves. *)
Definition placeRandomPotions (Math_sin : Z -> Q) (count : nat) (st : State)
    (potions : list Potion) : list Vec3 * State * list Potion :=
  let '(st, potions, placedPotions) :=
    Nat.iter count (placeRandomPotionsStep Math_sin) (st, potions, []) in
  (placedPotions, st, potions).

(** [placeWaterPotion(world, entrance)] and [placeEntrancePotion(world,
    entrance)]: the array [potions] they leave. *)
Definition placeWaterPotion (st : State) (entrance : Vec3) (potions : list Potion)
    : list Potion :=
  let potionPosition :=
    mkVec3 (vx entrance) (vy entrance + 1)
           (inject_Z PATH_WIDTH + inject_Z PATH_WIDTH / 2) in
  snd (placeItemSafely st potionPosition potions).

Definition placeEntrancePotion (st : State) (entrance : Vec3) (potions : list Potion)
    : list Potion :=
  let potionPosition :=
    mkVec3 (vx entrance) (vy entrance + 1) (inject_Z PATH_WIDTH / 2) in
  snd (placeItemSafely st potionPosition potions).

(** The body of the spawn loop of [spawnZombies]; the state is the generator
    and the positions the zombies were spawned at. *)
Definition spawnZombiesStep (Math_sin : Z -> Q) (s : State * list Vec3) : State * list Vec3 :=
  let '(st, zombies) := s in
  let '(position, st) := getRandomWalkablePosition Math_sin ZOMBIE_SPAWN_EXCLUSION_RADIUS st in
  match position with
  | None => (st, zombies)
  | Some position =>
    (st, zombies ++ [mkVec3 (vx position) (vy position + (1 # 2)) (vz position)])
  end.

Definition spawnZombies (Math_sin : Z -> Q) (st : State) : State * list Vec3 :=
  Nat.iter MAX_ZOMBIES (spawnZombiesStep Math_sin) (st, []).

(** [st'] is [st] but for the seed counter. *)
Definition sameMaze (st st' : State) : Prop :=
  grid st' = grid st /\ entrance st' = entrance st /\ exit st' = exit st /\
  entranceWorldPosition st' = entranceWorldPosition st.

(** The centre of a walkable cell farther than [r] from both ends. *)
Definition farCentre (st : State) (r : Q) (p : Vec3) : Prop :=
  exists c, walkable st c /\ farFromBoth st r c /\ p = getCellCenter st (fst c) (snd c).

(** [placeRandomPotion(world, mazeGenerator)]: the generator and the array
    [potions] it leaves. *)
Definition placeRandomPotion (Math_sin : Z -> Q) (st : State) (potions : list Potion)
    : State * list Potion :=
  let '(randomPosition, st) := getRandomWalkablePosition Math_sin 3 st in
  match randomPosition with
  | Some randomPosition => (st, snd (placeItemSafely st randomPosition potions))
  | None => (st, potions)
  end.

(** What the start of the server does with the maze generator, in the order
    of [index.ts]: generate and build the maze, take the entrance
    ([getExit], called next, assigns nothing), place the two potions at the
    entrance, 150 random potions and one more, build the maze again and spawn
    the zombies. The result is the generator, the array [potions] and the
    positions of the zombies. The object [entrance] is the generator's own
    [entranceWorldPosition]; the one assignment made to it afterwards, the
    [y = 1] of the second [buildMaze], writes the value it holds. *)
Definition startServer (Math_sin : Z -> Q) (FIXED_SEED : Z) (fuel : nat)
    : option (State * list Potion * list Vec3) :=
  match generateMaze Math_sin FIXED_SEED fuel (constructor FIXED_SEED) with
  | None => None
  | Some mazeGenerator =>
    let mazeGenerator := buildMaze mazeGenerator in
    let '(entrance, mazeGenerator) := getEntrance mazeGenerator in
    let potions := placeWaterPotion mazeGenerator entrance [] in
    let potions := placeEntrancePotion mazeGenerator entrance potions in
    let '(_, mazeGenerator, potions) :=
      placeRandomPotions Math_sin 150 mazeGenerator potions in
    let '(mazeGenerator, potions) := placeRandomPotion Math_sin mazeGenerator potions in
    let mazeGenerator := buildMaze mazeGenerator in
    let '(mazeGenerator, zombies) := spawnZombies Math_sin mazeGenerator in
    Some (mazeGenerator, potions, zombies)
  end.

(** The cells [createPatternMaze] marks: one per row above the last, zig-zag
    between the middle column and the next, and one in the last row. *)
Definition patternCell (x y : Z) : bool :=
  ((0 <=? y) && (y <? MAZE_SIZE - 1) && (x =? MAZE_SIZE / 2 + y mod 2))
  || ((x =? MAZE_SIZE / 2 + 1) && (y =? MAZE_SIZE - 1)).

(** The flag [d] of the in-bounds cell [(x, y)] is on the outer boundary:
    the position it faces is outside the grid. *)
Definition outerWall (x y : Z) (d : WallDirection) : Prop :=
  isValidCell x y = true /\
  isValidCell (x + dir_x (dirOf d)) (y + dir_y (dirOf d)) = false.

(** Every wall of the outer boundary stands, but for those listed. *)
Definition outerKept (opened : list (Z * Z * WallDirection)) (g : Grid) : Prop :=
  forall x y d, outerWall x y d -> ~ In (x, y, d) opened -> wallAt g x y d = Some true.

(** In the world [w] the side [d] of the cell [(x, y)] can be walked
    through: over the three inner columns of that side there is floor and
    no block above it, up to the height of the walls. *)
Definition openSide (w : World) (x y : Z) (d : WallDirection) : Prop :=
  forall i, 1 <= i < PATH_WIDTH ->
    w !! wallBlock x y d i 0 = Some FLOOR_BLOCK_ID /\
    forall h, 1 <= h <= WALL_HEIGHT -> w !! wallBlock x y d i h = None.

(** The inside of the cell [(x, y)], three blocks by three, is floor with
    no block above it. *)
Definition openCell (w : World) (x y : Z) : Prop :=
  forall i j, 1 <= i < PATH_WIDTH -> 1 <= j < PATH_WIDTH ->
    w !! (x * PATH_WIDTH + i, 0, y * PATH_WIDTH + j) = Some FLOOR_BLOCK_ID /\
    forall h, 1 <= h <= WALL_HEIGHT ->
      w !! (x * PATH_WIDTH + i, h, y * PATH_WIDTH + j) = None.

(** A step from the cell [p] through one of its sides into the
    neighbouring cell [q]. *)
Definition openStep (w : World) (p q : Z * Z) : Prop :=
  exists dir, In dir DIRECTIONS /\
    q = (fst p + dir_x dir, snd p + dir_y dir) /\
    openSide w (fst p) (snd p) (wall dir) /\ openCell w (fst q) (snd q).

(** The cells that can be walked to from the cell [s]. *)
Inductive walk (w : World) (s : Z * Z) : Z * Z -> Prop :=
| walk_refl : openCell w (fst s) (snd s) -> walk w s s
| walk_step p q : walk w s p -> openStep w p q -> walk w s q.

(** ** The leaderboard ([index.ts]) *)

Record LeaderboardEntry := mkEntry { username : String.string; time : Z }.

(** [Array.prototype.sort] is stable: of the orderings of the entries by
    [a.time - b.time] it gives the one that keeps entries of equal time in
    the order they had. Inserting the entries one by one from the last to the
    first, each before the first entry that is not below it, computes that
    ordering. *)
Fixpoint insertByTime (e : LeaderboardEntry) (l : list LeaderboardEntry)
    : list LeaderboardEntry :=
  match l with
  | [] => [e]
  | a :: l' => if time e <=? time a then e :: l else a :: insertByTime e l'
  end.

Definition sortByTime (l : list LeaderboardEntry) : list LeaderboardEntry :=
  fold_right insertByTime [] l.

(** The leaderboard update of the goal callback:
    [leaderboardTimes.push(entry); leaderboardTimes.sort(...);
     leaderboardTimes = leaderboardTimes.slice(0, 10)]. *)
Definition updateLeaderboard (entry : LeaderboardEntry)
    (leaderboardTimes : list LeaderboardEntry) : list LeaderboardEntry :=
  firstn 10 (sortByTime (leaderboardTimes ++ [entry])).

(** Entries in the order of their times. *)
Definition byTime (a b : LeaderboardEntry) : Prop := time a <= time b.

(** Case analysis on the integer comparisons of a goal. *)
Ltac bool_cases :=
  repeat match goal with
         | |- context [?a =? ?b] => destruct (Z.eqb_spec a b)
         | |- context [?a <? ?b] => destruct (Z.ltb_spec a b)
         | |- context [?a <=? ?b] => destruct (Z.leb_spec a b)
         end;
  cbn [andb orb negb]; try reflexivity; try (exfalso; Z.to_euclidean_division_equations; lia).

(** ** The generator while the server runs *)

(** The states the generator goes through once the maze is built: the
    server goes on with queries and with one more [buildMaze], in any
    number and order here. *)
Inductive served (Math_sin : Z -> Q) (FIXED_SEED : Z) : State -> Prop :=
| served_built st :
    built Math_sin FIXED_SEED st -> served Math_sin FIXED_SEED st
| served_query q st :
    served Math_sin FIXED_SEED st ->
    served Math_sin FIXED_SEED (snd (runQuery Math_sin q st))
| served_buildMaze st :
    served Math_sin FIXED_SEED st -> served Math_sin FIXED_SEED (buildMaze st).

(** The sample maze after [buildMaze], [getEntrance] and one draw of a
    position, for examples. *)
Definition sampleServed : State :=
  snd (runQuery sample_sin (QGetRandomWalkablePosition 3)
         (snd (runQuery sample_sin QGetEntrance (buildMaze sampleMaze)))).

(** [p] is the centre of the cell [c] in the plane: [4 c + 2] in [x] and
    in [z]. *)
Definition centreOfCell (c : Z * Z) (p : Vec3) : Prop :=
  (vx p == inject_Z (4 * fst c + 2))%Q /\ (vz p == inject_Z (4 * snd c + 2))%Q.

(** The cell [c] is farther than [r] from the cell [e]:
    [|c.x - e.x| + |c.z - e.z| > r]. *)
Definition fartherThan (r : Q) (c e : Z * Z) : Prop :=
  (r < inject_Z (Z.abs (fst c - fst e) + Z.abs (snd c - snd e)))%Q.

(** The wall flags the corridor from [p] to [e] goes through: the flag [d]
    of the cell [c] is one of them when a step of the corridor leaves [c]
    through its side [d] or enters [c] through it. *)
Definition corridorWall (e p : Z * Z) (c : Z * Z) (d : WallDirection) : Prop :=
  exists a, onCorridor e p a /\ a <> e /\
    ((c = a /\ d = snd (fst (corridorStep e a))) \/
     (c = fst (fst (corridorStep e a)) /\ d = snd (corridorStep e a))).

(** [simpl] is kept from unfolding the grid size and the loops over it. *)
Arguments MAZE_SIZE : simpl never.
Arguments range : simpl never.
Arguments rowMajor : simpl never.
Arguments freshGrid : simpl never.

(** ** Arithmetic of the draws *)

Lemma frac_range (x : Q) : (0 <= frac x)%Q /\ (frac x < 1)%Q.
Proof.
  unfold frac. pose proof (Qfloor_le x) as Hl. pose proof (Qlt_floor x) as Hu.
  rewrite inject_Z_plus in Hu. change (inject_Z 1) with 1%Q in Hu.
  split; lra.
Qed.

Lemma scaleFloor_range (r : Q) (n : Z) :
  (0 <= r)%Q -> (r < 1)%Q -> 0 < n -> 0 <= scaleFloor r n < n.
Proof.
  intros H0 H1 Hn. unfold scaleFloor.
  assert (Hq : (inject_Z 0 < inject_Z n)%Q) by (rewrite <- Zlt_Qlt; exact Hn).
  change (inject_Z 0) with 0%Q in Hq.
  split.
  - change 0 with (Qfloor 0). apply Qfloor_resp_le.
    apply Qmult_le_0_compat; [exact H0 | apply Qlt_le_weak; exact Hq].
  - rewrite Zlt_Qlt.
    eapply Qle_lt_trans; [apply Qfloor_le |].
    assert (r * inject_Z n < 1 * inject_Z n)%Q by (apply Qmult_lt_r; assumption).
    lra.
Qed.

Lemma draw_range (x : Q) (n : Z) : 0 < n -> 0 <= scaleFloor (frac x) n < n.
Proof. intros. destruct (frac_range x). by apply scaleFloor_range. Qed.

(** ** Arrays, cells and the shape of the grid *)

Lemma arr_get_Some {A} (l : list A) (i : Z) (a : A) :
  arr_get l i = Some a -> 0 <= i /\ l !! Z.to_nat i = Some a.
Proof.
  unfold arr_get. destruct (Z.leb_spec 0 i); [auto | discriminate].
Qed.

Lemma arr_get_lt {A} (l : list A) (i : Z) :
  0 <= i < Z.of_nat (length l) -> is_Some (arr_get l i).
Proof.
  intros [H0 H1]. unfold arr_get. destruct (Z.leb_spec 0 i); [| lia].
  apply lookup_lt_is_Some. lia.
Qed.

Lemma arr_get_In {A} (l : list A) (i : Z) (a : A) : arr_get l i = Some a -> In a l.
Proof.
  intros H. apply arr_get_Some in H as [_ H].
  apply list_elem_of_In. eapply list_elem_of_lookup_2. exact H.
Qed.

Lemma isValidCell_true (x y : Z) :
  isValidCell x y = true <-> 0 <= x < MAZE_SIZE /\ 0 <= y < MAZE_SIZE.
Proof.
  unfold isValidCell. rewrite !andb_true_iff, !Z.leb_le, !Z.ltb_lt. lia.
Qed.

Lemma isValidCell_false (x y : Z) :
  isValidCell x y = false <-> ~ (0 <= x < MAZE_SIZE /\ 0 <= y < MAZE_SIZE).
Proof.
  rewrite <- isValidCell_true. destruct (isValidCell x y); naive_solver.
Qed.

Lemma cellAt_nonneg (g : Grid) (x y : Z) (c : Cell) :
  cellAt g x y = Some c -> 0 <= x /\ 0 <= y.
Proof.
  unfold cellAt. destruct (arr_get g y) as [row|] eqn:E; [| done].
  intros H. apply arr_get_Some in E, H. lia.
Qed.

Lemma cellAt_updCell_eq (g : Grid) (x y : Z) (f : Cell -> Cell) :
  0 <= x -> 0 <= y -> cellAt (updCell g x y f) x y = f <$> cellAt g x y.
Proof.
  intros Hx Hy. unfold cellAt, updCell, arr_get.
  destruct (Z.leb_spec 0 y); [| lia]. destruct (Z.leb_spec 0 x); [| lia].
  rewrite list_lookup_alter_eq. destruct (g !! Z.to_nat y) as [row|]; simpl; [| done].
  by rewrite list_lookup_alter_eq.
Qed.

Lemma cellAt_updCell_ne (g : Grid) (x y x' y' : Z) (f : Cell -> Cell) :
  0 <= x -> 0 <= y -> (x', y') <> (x, y) ->
  cellAt (updCell g x y f) x' y' = cellAt g x' y'.
Proof.
  intros Hx Hy Hne. unfold cellAt, updCell, arr_get.
  destruct (Z.leb_spec 0 y'); [| done].
  destruct (decide (y' = y)) as [->|Hy'].
  - rewrite list_lookup_alter_eq. destruct (g !! Z.to_nat y) as [row|]; simpl; [| done].
    destruct (Z.leb_spec 0 x'); [| done].
    rewrite list_lookup_alter_ne; [done |]. intros E. apply Hne. f_equal. lia.
  - rewrite list_lookup_alter_ne; [done | lia].
Qed.

Lemma cellAt_updCell_is_Some (g : Grid) (x y x' y' : Z) (f : Cell -> Cell) :
  0 <= x -> 0 <= y ->
  is_Some (cellAt (updCell g x y f) x' y') <-> is_Some (cellAt g x' y').
Proof.
  intros Hx Hy. destruct (decide ((x', y') = (x, y))) as [E|E].
  - inversion E; subst. rewrite cellAt_updCell_eq by done. apply fmap_is_Some.
  - by rewrite cellAt_updCell_ne.
Qed.

Lemma wfGrid_updCell (g : Grid) (x y : Z) (f : Cell -> Cell) :
  wfGrid g -> wfGrid (updCell g x y f).
Proof.
  intros [Hl Hr]. unfold updCell. split.
  - by rewrite length_alter.
  - rewrite Forall_lookup in Hr |- *. intros i row Hi.
    destruct (decide (i = Z.to_nat y)) as [->|Hne].
    + rewrite list_lookup_alter_eq in Hi.
      destruct (g !! Z.to_nat y) as [row0|] eqn:E; simpl in Hi; [| done].
      inversion Hi; subst. rewrite length_alter. eauto.
    + rewrite list_lookup_alter_ne in Hi by done. eauto.
Qed.

Lemma wfGrid_cellAt (g : Grid) (x y : Z) :
  wfGrid g -> isValidCell x y = true -> is_Some (cellAt g x y).
Proof.
  intros [Hl Hr] Hv. apply isValidCell_true in Hv as [Hx Hy].
  unfold cellAt. destruct (arr_get_lt g y) as [row Hrow]; [lia |].
  rewrite Hrow. apply arr_get_lt.
  apply arr_get_Some in Hrow as [_ Hrow].
  rewrite Forall_lookup in Hr. rewrite (Hr _ _ Hrow). lia.
Qed.

Lemma range_In (n z : Z) : In z (range n) <-> 0 <= z < n.
Proof.
  unfold range. rewrite in_map_iff. split.
  - intros (k & <- & Hk). apply in_seq in Hk. lia.
  - intros Hz. exists (Z.to_nat z). split; [lia |]. apply in_seq. lia.
Qed.

Lemma rowMajor_In (x y : Z) : In (x, y) rowMajor <-> isValidCell x y = true.
Proof.
  rewrite isValidCell_true. unfold rowMajor. rewrite in_flat_map. split.
  - intros (y0 & Hy & Hin). apply in_map_iff in Hin as (x0 & E & Hx).
    inversion E; subst. apply range_In in Hy, Hx. lia.
  - intros [Hx Hy]. exists y. split; [by apply range_In |].
    apply in_map_iff. exists x. split; [done | by apply range_In].
Qed.

Lemma wfGrid_freshGrid : wfGrid freshGrid.
Proof.
  unfold wfGrid, freshGrid. split.
  - rewrite length_map. unfold range. by rewrite length_map, length_seq.
  - apply Forall_forall. intros row Hin. apply list_elem_of_In in Hin.
    apply in_map_iff in Hin as (y & <- & _).
    rewrite length_map. unfold range. by rewrite length_map, length_seq.
Qed.

(** ** Effect of the assignments on [visited] and on the walls *)

Lemma visitedAt_removeWall (g : Grid) (x y x' y' : Z) (d : WallDirection) :
  0 <= x -> 0 <= y ->
  visitedAt (updCell g x y (removeWall d)) x' y' = visitedAt g x' y'.
Proof.
  intros Hx Hy. unfold visitedAt.
  destruct (decide ((x', y') = (x, y))) as [E|E].
  - inversion E; subst. rewrite cellAt_updCell_eq by done.
    by destruct (cellAt g x y).
  - by rewrite cellAt_updCell_ne.
Qed.

Lemma visitedAt_markVisited_eq (g : Grid) (x y : Z) :
  0 <= x -> 0 <= y -> is_Some (cellAt g x y) ->
  visitedAt (updCell g x y markVisited) x y = true.
Proof.
  intros Hx Hy [c Hc]. unfold visitedAt. rewrite cellAt_updCell_eq by done.
  by rewrite Hc.
Qed.

Lemma visitedAt_markVisited_ne (g : Grid) (x y x' y' : Z) :
  0 <= x -> 0 <= y -> (x', y') <> (x, y) ->
  visitedAt (updCell g x y markVisited) x' y' = visitedAt g x' y'.
Proof.
  intros Hx Hy Hne. unfold visitedAt. by rewrite cellAt_updCell_ne.
Qed.

Lemma visitedAt_markVisited_mono (g : Grid) (x y x' y' : Z) :
  0 <= x -> 0 <= y -> visitedAt g x' y' = true ->
  visitedAt (updCell g x y markVisited) x' y' = true.
Proof.
  intros Hx Hy H. destruct (decide ((x', y') = (x, y))) as [E|E].
  - inversion E; subst. apply visitedAt_markVisited_eq; try done.
    unfold visitedAt in H. destruct (cellAt g x y); [eauto | done].
  - by rewrite visitedAt_markVisited_ne.
Qed.

Lemma visitedAt_removeWallPair (g : Grid) (x y nx ny x' y' : Z) (w o : WallDirection) :
  0 <= x -> 0 <= y -> 0 <= nx -> 0 <= ny ->
  visitedAt (removeWallPair g x y w nx ny o) x' y' = visitedAt g x' y'.
Proof.
  intros. unfold removeWallPair. by rewrite !visitedAt_removeWall.
Qed.

Lemma visitedAt_Some (g : Grid) (x y : Z) :
  visitedAt g x y = true <-> exists c, cellAt g x y = Some c /\ visited c = true.
Proof.
  unfold visitedAt. destruct (cellAt g x y) as [c|]; split.
  - intros H. by exists c.
  - intros (c' & E & H). by inversion E; subst.
  - done.
  - intros (c' & E & _). done.
Qed.

Lemma monotoneOp_markVisited : monotoneOp markVisited.
Proof. intros c. split; [done | by intros d]. Qed.

Lemma monotoneOp_removeWall (d : WallDirection) : monotoneOp (removeWall d).
Proof.
  intros c. split; [done |]. intros d' H. destruct c as [? ? ? []].
  destruct d, d'; simpl in *; done.
Qed.

Create HintDb maze.
#[local] Hint Resolve monotoneOp_markVisited monotoneOp_removeWall : maze.
#[local] Hint Constructors carved : maze.

Lemma carved_trans (g1 g2 g3 : Grid) : carved g1 g2 -> carved g2 g3 -> carved g1 g3.
Proof. intros H12 H23. induction H23; eauto with maze. Qed.

Lemma carved_step (g : Grid) (x y : Z) (f : Cell -> Cell) :
  0 <= x -> 0 <= y -> monotoneOp f -> carved g (updCell g x y f).
Proof. intros. apply carved_upd; auto with maze. Qed.

Lemma carved_removeWallPair (g : Grid) (x y nx ny : Z) (w o : WallDirection) :
  0 <= x -> 0 <= y -> 0 <= nx -> 0 <= ny ->
  carved g (removeWallPair g x y w nx ny o).
Proof.
  intros. unfold removeWallPair.
  apply carved_upd; auto with maze.
Qed.

Lemma carved_wfGrid (g g' : Grid) : carved g g' -> wfGrid g -> wfGrid g'.
Proof. induction 1; intros; auto using wfGrid_updCell. Qed.

Lemma carved_visitedAt (g g' : Grid) (x y : Z) :
  carved g g' -> visitedAt g x y = true -> visitedAt g' x y = true.
Proof.
  induction 1 as [|g g' x0 y0 f Hc IH Hx Hy Hf]; intros Hv; [done |].
  specialize (IH Hv). unfold visitedAt in *.
  destruct (decide ((x, y) = (x0, y0))) as [E|E].
  - inversion E; subst. rewrite cellAt_updCell_eq by done.
    destruct (cellAt g' x0 y0) as [c|]; simpl; [| done]. by apply Hf.
  - by rewrite cellAt_updCell_ne.
Qed.

Lemma carved_wallAbsent (g g' : Grid) (x y : Z) (d : WallDirection) :
  carved g g' -> wallAbsent g x y d -> wallAbsent g' x y d.
Proof.
  induction 1 as [|g g' x0 y0 f Hc IH Hx Hy Hf]; intros Hv; [done |].
  destruct (IH Hv) as (c & Hc' & Hw). unfold wallAbsent.
  destruct (decide ((x, y) = (x0, y0))) as [E|E].
  - inversion E; subst. rewrite cellAt_updCell_eq by done. rewrite Hc'. simpl.
    eexists; split; [done |]. by apply Hf.
  - rewrite cellAt_updCell_ne by done. eauto.
Qed.

Lemma carved_is_Some (g g' : Grid) (x y : Z) :
  carved g g' -> is_Some (cellAt g' x y) <-> is_Some (cellAt g x y).
Proof.
  induction 1; [done |]. by rewrite cellAt_updCell_is_Some.
Qed.

(** ** Counting the unvisited cells *)

Lemma filter_length_le {A} (f f' : A -> bool) (l : list A) :
  (forall q, In q l -> f' q = true -> f q = true) ->
  (length (List.filter f' l) <= length (List.filter f l))%nat.
Proof.
  induction l as [|a l IH]; intros H; simpl; [lia |].
  assert (IH' := IH (fun q Hq => H q (or_intror Hq))).
  destruct (f' a) eqn:E'.
  - rewrite (H a (or_introl eq_refl) E'). simpl. lia.
  - destruct (f a); simpl; lia.
Qed.

Lemma filter_length_lt {A} (f f' : A -> bool) (l : list A) (p : A) :
  (forall q, In q l -> f' q = true -> f q = true) ->
  In p l -> f p = true -> f' p = false ->
  (length (List.filter f' l) < length (List.filter f l))%nat.
Proof.
  induction l as [|a l IH]; intros H Hin Hp Hp'; simpl; [done |].
  assert (Hle := filter_length_le f f' l (fun q Hq => H q (or_intror Hq))).
  destruct Hin as [->|Hin].
  - rewrite Hp, Hp'. simpl. lia.
  - assert (IH' := IH (fun q Hq => H q (or_intror Hq)) Hin Hp Hp').
    destruct (f' a) eqn:E'.
    + rewrite (H a (or_introl eq_refl) E'). simpl. lia.
    + destruct (f a); simpl; lia.
Qed.

Lemma filter_length_bound {A} (f : A -> bool) (l : list A) :
  (length (List.filter f l) <= length l)%nat.
Proof. induction l as [|a l IH]; simpl; [lia |]. destruct (f a); simpl; lia. Qed.

Lemma unvisitedCount_bound (g : Grid) : (unvisitedCount g <= length rowMajor)%nat.
Proof. unfold unvisitedCount. apply filter_length_bound. Qed.

Lemma unvisitedCount_mark (g g' : Grid) (x y : Z) :
  isValidCell x y = true ->
  visitedAt g x y = false -> visitedAt g' x y = true ->
  (forall x' y', visitedAt g x' y' = true -> visitedAt g' x' y' = true) ->
  (unvisitedCount g' < unvisitedCount g)%nat.
Proof.
  intros Hv H0 H1 Hmono. unfold unvisitedCount.
  apply (filter_length_lt _ _ _ (x, y)); simpl.
  - intros [a b] _. simpl. destruct (visitedAt g a b) eqn:E; [| done].
    by rewrite (Hmono _ _ E).
  - by apply rowMajor_In.
  - by rewrite H0.
  - by rewrite H1.
Qed.

(** ** The candidate set of the carver *)

Lemma concat_imap_In {A B} (f : nat -> A -> list B) (l : list A) (b : B) :
  In b (concat (imap f l)) <-> exists i a, l !! i = Some a /\ In b (f i a).
Proof.
  rewrite in_concat. split.
  - intros (bs & Hbs & Hb). apply list_elem_of_In in Hbs.
    apply elem_of_lookup_imap in Hbs as (i & a & -> & Hi). eauto.
  - intros (i & a & Hi & Hb). exists (f i a). split; [| done].
    apply list_elem_of_In. apply elem_of_lookup_imap. eauto.
Qed.

Lemma candidate_In (g : Grid) (x y : Z) (i : nat) (dir : Direction) (nb : Neighbor) :
  In nb (candidate g x y i dir) <->
  nb = mkNeighbor (x + dir_x dir) (y + dir_y dir) i /\
  isValidCell (x + dir_x dir) (y + dir_y dir) = true /\
  is_Some (cellAt g (x + dir_x dir) (y + dir_y dir)) /\
  visitedAt g (x + dir_x dir) (y + dir_y dir) = false.
Proof.
  unfold candidate, visitedAt.
  destruct (isValidCell (x + dir_x dir) (y + dir_y dir)); simpl.
  - destruct (cellAt g (x + dir_x dir) (y + dir_y dir)) as [c|]; simpl.
    + destruct (visited c); simpl.
      * split; [done | by intros (_ & _ & _ & ?)].
      * split; [intros [<-|[]]; eauto | intros (-> & _); by left].
    + split; [done | by intros (_ & _ & [? ?] & _)].
  - split; [done | by intros (_ & ? & _)].
Qed.

Lemma unvisitedNeighbors_In (g : Grid) (x y : Z) (nb : Neighbor) :
  In nb (unvisitedNeighbors g x y) ->
  exists dir, DIRECTIONS !! dirIndex nb = Some dir /\
    nb_x nb = x + dir_x dir /\ nb_y nb = y + dir_y dir /\
    isValidCell (nb_x nb) (nb_y nb) = true /\
    is_Some (cellAt g (nb_x nb) (nb_y nb)) /\
    visitedAt g (nb_x nb) (nb_y nb) = false.
Proof.
  unfold unvisitedNeighbors. rewrite concat_imap_In.
  intros (i & dir & Hi & Hin). apply candidate_In in Hin as (-> & Hv & Hs & Hu).
  exists dir. simpl. repeat split; assumption.
Qed.

Lemma DIRECTIONS_adjacent (x y x' y' : Z) :
  adjacent x y x' y' <->
  exists i dir, DIRECTIONS !! i = Some dir /\ x' = x + dir_x dir /\ y' = y + dir_y dir.
Proof.
  unfold adjacent. split.
  - intros H.
    assert (Hc : (x' = x /\ y' = y - 1) \/ (x' = x + 1 /\ y' = y) \/
                 (x' = x /\ y' = y + 1) \/ (x' = x - 1 /\ y' = y)) by lia.
    destruct Hc as [[-> ->]|[[-> ->]|[[-> ->]|[-> ->]]]].
    + exists 0%nat, (mkDirection 0 (-1) top bottom). simpl. split; [done | lia].
    + exists 1%nat, (mkDirection 1 0 right left). simpl. split; [done | lia].
    + exists 2%nat, (mkDirection 0 1 bottom top). simpl. split; [done | lia].
    + exists 3%nat, (mkDirection (-1) 0 left right). simpl. split; [done | lia].
  - intros (i & dir & Hi & -> & ->).
    destruct i as [|[|[|[|i]]]]; simpl in Hi; inversion Hi; subst; simpl; lia.
Qed.

Lemma unvisitedNeighbors_nil (g : Grid) (x y x' y' : Z) :
  wfGrid g -> unvisitedNeighbors g x y = [] ->
  adjacent x y x' y' -> isValidCell x' y' = true -> visitedAt g x' y' = true.
Proof.
  intros Hwf Hnil Hadj Hv.
  apply DIRECTIONS_adjacent in Hadj as (i & dir & Hi & -> & ->).
  destruct (visitedAt g (x + dir_x dir) (y + dir_y dir)) eqn:E; [done |].
  exfalso.
  assert (Hin : In (mkNeighbor (x + dir_x dir) (y + dir_y dir) i) (unvisitedNeighbors g x y)).
  { unfold unvisitedNeighbors. apply concat_imap_In. exists i, dir. split; [done |].
    apply candidate_In. auto using wfGrid_cellAt. }
  rewrite Hnil in Hin. destruct Hin.
Qed.

(** A set of visited cells that is closed under in-bounds adjacency and
    holds one in-bounds cell holds them all: the grid graph is connected. *)
Lemma closed_allVisited (g : Grid) (sx sy : Z) :
  isValidCell sx sy = true -> visitedAt g sx sy = true ->
  dfsInv g [] ->
  forall x y, isValidCell x y = true -> visitedAt g x y = true.
Proof.
  intros Hs Hvs [_ Hclosed].
  assert (Hstep : forall x y x' y', isValidCell x y = true -> visitedAt g x y = true ->
            adjacent x y x' y' -> isValidCell x' y' = true -> visitedAt g x' y' = true).
  { intros x y x' y' Hv Hvis. destruct (Hclosed x y Hv Hvis) as [[]|H]. apply H. }
  assert (Hn : forall n : nat, forall x y, isValidCell x y = true ->
            Z.abs (x - sx) + Z.abs (y - sy) = Z.of_nat n -> visitedAt g x y = true).
  { induction n as [|n IH]; intros x y Hv Hd.
    - assert (x = sx /\ y = sy) as [-> ->] by lia. done.
    - apply isValidCell_true in Hs. pose proof (proj1 (isValidCell_true _ _) Hv) as Hv'.
      destruct (decide (x = sx)) as [->|Hx].
      + set (y0 := if y <? sy then y + 1 else y - 1).
        assert (Hy0 : (y0 = y + 1 /\ y < sy) \/ (y0 = y - 1 /\ sy < y)).
        { unfold y0. destruct (Z.ltb_spec y sy); lia. }
        apply (Hstep sx y0).
        * apply isValidCell_true. lia.
        * apply IH; [apply isValidCell_true |]; lia.
        * unfold adjacent. lia.
        * done.
      + set (x0 := if x <? sx then x + 1 else x - 1).
        assert (Hx0 : (x0 = x + 1 /\ x < sx) \/ (x0 = x - 1 /\ sx < x)).
        { unfold x0. destruct (Z.ltb_spec x sx); lia. }
        apply (Hstep x0 y).
        * apply isValidCell_true. lia.
        * apply IH; [apply isValidCell_true |]; lia.
        * unfold adjacent. lia.
        * done. }
  intros x y Hv. apply (Hn (Z.to_nat (Z.abs (x - sx) + Z.abs (y - sy)))); [done | lia].
Qed.

Lemma allVisited_visitedAt (g : Grid) :
  allVisited g <-> forall x y, isValidCell x y = true -> visitedAt g x y = true.
Proof.
  unfold allVisited. split; intros H x y Hv; apply visitedAt_Some; auto.
Qed.

(** ** Frame of the build steps *)

Lemma validCellAt_Some (g : Grid) (x y : Z) (c : Cell) :
  validCellAt g x y = Some c ->
  0 <= x < MAZE_SIZE /\ 0 <= y < MAZE_SIZE /\ cellAt g x y = Some c.
Proof.
  unfold validCellAt. destruct (isValidCell x y) eqn:E; [| done].
  apply isValidCell_true in E. tauto.
Qed.

Lemma validCellAt_wf (g : Grid) (x y : Z) :
  wfGrid g -> isValidCell x y = true -> is_Some (validCellAt g x y).
Proof. intros Hwf Hv. unfold validCellAt. rewrite Hv. by apply wfGrid_cellAt. Qed.

Lemma framed_refl (st : State) : framed st st.
Proof. unfold framed. repeat split; auto with maze; lia. Qed.

Lemma framed_trans (st1 st2 st3 : State) : framed st1 st2 -> framed st2 st3 -> framed st1 st3.
Proof.
  intros (H1 & H2 & H3 & H4 & H5) (K1 & K2 & K3 & K4 & K5). unfold framed.
  repeat split; try congruence; [by eapply carved_trans | lia].
Qed.

Lemma framed_set_grid (st : State) (g : Grid) :
  carved (grid st) g -> framed st (set_grid g st).
Proof. intros H. unfold framed. simpl. repeat split; auto; lia. Qed.

Lemma createPathLoop_carved (fuel : nat) :
  forall g ex ey x y g',
    createPathLoop fuel g ex ey x y = Some g' -> carved g g'.
Proof.
  induction fuel as [|fuel IH]; intros g ex ey x y g' H; simpl in H.
  - destruct (negb (x =? ex) || negb (y =? ey)); [done |]. inversion H; auto with maze.
  - destruct (negb (x =? ex) || negb (y =? ey)); [| inversion H; auto with maze].
    destruct (validCellAt g x y) as [c|] eqn:Ec; [| inversion H; auto with maze].
    apply validCellAt_Some in Ec as (Hx & Hy & _).
    assert (Hmark : carved g (updCell g x y markVisited))
      by (apply carved_step; auto with maze; lia).
    repeat case_match; try (inversion H; subst; exact Hmark);
      match goal with
      | E : validCellAt _ _ _ = Some _ |- _ => apply validCellAt_Some in E as (? & ? & _)
      end;
      apply IH in H; (eapply carved_trans; [| exact H]);
      (eapply carved_trans; [exact Hmark |]);
      apply carved_removeWallPair; lia.
Qed.

Lemma createPathToExit_framed (fuel : nat) (x y : Z) (st st' : State) :
  createPathToExit fuel x y st = Some st' -> framed st st'.
Proof.
  unfold createPathToExit. destruct (exit st) as [ex ey].
  destruct (createPathLoop fuel (grid st) ex ey x y) as [g|] eqn:E; [| done].
  apply createPathLoop_carved in E.
  destruct (validCellAt g ex ey) as [c|] eqn:Ec; intros H; inversion H; subst.
  - apply validCellAt_Some in Ec as (? & ? & _).
    apply framed_set_grid. apply carved_upd; auto with maze; lia.
  - by apply framed_set_grid.
Qed.

Lemma connectToExit_framed (fuel : nat) (st st' : State) :
  connectToExit fuel st = Some st' -> framed st st'.
Proof.
  unfold connectToExit. destruct (exit st) as [ex ey].
  destruct (findClosest (grid st) ex ey) as [[[x y] d]|].
  - apply createPathToExit_framed.
  - intros H; inversion H; apply framed_refl.
Qed.

Lemma repairCheck_framed (fuel : nat) (stack : list (Z * Z)) (st st' : State) :
  repairCheck fuel stack st = Some st' -> framed st st'.
Proof.
  unfold repairCheck. destruct stack.
  - destruct (hasPathToExit st); [intros H; inversion H; apply framed_refl |].
    apply connectToExit_framed.
  - intros H; inversion H; apply framed_refl.
Qed.

Lemma repairCheck_connected (fuel : nat) (stack : list (Z * Z)) (st : State) :
  exitValid st -> allVisited (grid st) -> repairCheck fuel stack st = Some st.
Proof.
  intros Hv Hall. unfold repairCheck. destruct stack; [| done].
  unfold hasPathToExit. unfold exitValid in Hv. destruct (exit st) as [ex ey]. simpl in Hv.
  rewrite Hv. destruct (Hall ex ey Hv) as (c & -> & ->). done.
Qed.

Section Carver.

Variable Math_sin : Z -> Q.

Lemma seedRandom_framed (st : State) : framed st (snd (seedRandom Math_sin st)).
Proof. unfold framed, seedRandom. simpl. repeat split; auto with maze; lia. Qed.

Lemma dfsBody_framed (fuel : nat) (st st' : State) (x y : Z) (rest stack' : list (Z * Z)) :
  dfsBody Math_sin fuel st x y rest = Some (st', stack') -> framed st st'.
Proof.
  unfold dfsBody.
  pose proof (seedRandom_framed st) as Hs. unfold seedRandom in *. simpl in Hs |- *.
  destruct (unvisitedNeighbors (grid st) x y) as [|n0 ns] eqn:En.
  - destruct (repairCheck fuel rest st) as [st2|] eqn:Er; [| done].
    intros H; inversion H; subst. by eapply repairCheck_framed.
  - rewrite <- En.
    destruct (arr_get _ _) as [nb|] eqn:Eg; [| by intros H; inversion H; subst].
    apply arr_get_In in Eg. apply unvisitedNeighbors_In in Eg
      as (dir & Hdir & _ & _ & Hnv & _). apply isValidCell_true in Hnv.
    rewrite Hdir.
    destruct (cellAt (grid st) x y) eqn:Ec; [| by intros H; inversion H; subst].
    apply cellAt_nonneg in Ec.
    destruct (cellAt (grid st) (nb_x nb) (nb_y nb)); [| by intros H; inversion H; subst].
    intros H; inversion H; subst.
    eapply framed_trans; [exact Hs |].
    unfold framed. simpl. repeat split; try lia.
    apply carved_upd; auto with maze; try lia. apply carved_removeWallPair; lia.
Qed.

Lemma dfsInv_pop (g : Grid) (x y : Z) (rest : list (Z * Z)) :
  wfGrid g -> unvisitedNeighbors g x y = [] ->
  dfsInv g ((x, y) :: rest) -> dfsInv g rest.
Proof.
  intros Hwf Hnil [Ha Hb]. split.
  - intros p Hp. apply Ha. by right.
  - intros x0 y0 Hv Hvis. destruct (Hb x0 y0 Hv Hvis) as [[E|Hin]|Hc]; auto.
    inversion E; subst. right. intros x' y'. by apply unvisitedNeighbors_nil.
Qed.

Lemma dfsInv_push (g g' : Grid) (nx ny : Z) (stack : list (Z * Z)) :
  isValidCell nx ny = true -> visitedAt g' nx ny = true ->
  (forall a b, visitedAt g a b = true -> visitedAt g' a b = true) ->
  (forall a b, (a, b) <> (nx, ny) -> visitedAt g' a b = visitedAt g a b) ->
  dfsInv g stack -> dfsInv g' ((nx, ny) :: stack).
Proof.
  intros Hv Hvis Hmono Hne [Ha Hb]. split.
  - intros p [<-|Hp]; [done |]. destruct (Ha p Hp). auto.
  - intros x0 y0 Hv0 Hvis0. destruct (decide ((x0, y0) = (nx, ny))) as [E|E].
    + left. by left.
    + rewrite (Hne _ _ E) in Hvis0.
      destruct (Hb x0 y0 Hv0 Hvis0) as [Hin|Hc]; [left; by right |].
      right. intros x' y' Hadj Hv'. apply Hmono. by apply Hc.
Qed.

(** One iteration of the carving loop on a state that satisfies the
    invariant: it completes, keeps the invariant and lowers the measure
    [2 * unvisited + depth of the stack]. *)
Lemma dfsBody_progress (fuel : nat) (st : State) (x y sx sy : Z) (rest : list (Z * Z)) :
  wfGrid (grid st) -> exitValid st ->
  isValidCell sx sy = true -> visitedAt (grid st) sx sy = true ->
  dfsInv (grid st) ((x, y) :: rest) ->
  exists st' stack',
    dfsBody Math_sin fuel st x y rest = Some (st', stack') /\
    dfsInv (grid st') stack' /\
    (2 * unvisitedCount (grid st') + length stack'
     < 2 * unvisitedCount (grid st) + length ((x, y) :: rest))%nat.
Proof.
  intros Hwf Hex Hs Hsv Hinv. unfold dfsBody.
  destruct (unvisitedNeighbors (grid st) x y) as [|n0 ns] eqn:En.
  - pose proof (dfsInv_pop _ _ _ _ Hwf En Hinv) as Hinv'.
    assert (Hr : repairCheck fuel rest st = Some st).
    { destruct rest; [| done]. apply repairCheck_connected; [done |].
      apply allVisited_visitedAt. by apply (closed_allVisited _ sx sy). }
    rewrite Hr. exists st, rest. split; [done |]. split; [done |]. simpl. lia.
  - rewrite <- En. unfold seedRandom. cbn zeta beta iota.
    set (r := frac _).
    assert (Hidx : 0 <= scaleFloor r (Z.of_nat (length (unvisitedNeighbors (grid st) x y)))
                   < Z.of_nat (length (unvisitedNeighbors (grid st) x y))).
    { apply draw_range. rewrite En. simpl. lia. }
    destruct (arr_get_lt _ _ Hidx) as [nb Hnb]. rewrite Hnb.
    apply arr_get_In in Hnb.
    apply unvisitedNeighbors_In in Hnb as (dir & Hdir & Hnx & Hny & Hnv & Hsome & Hunv).
    rewrite Hdir. cbn [grid set_seed].
    destruct Hinv as [Ha Hb].
    destruct (Ha (x, y) (or_introl eq_refl)) as [Hxy _]. simpl in Hxy.
    destruct (wfGrid_cellAt _ _ _ Hwf Hxy) as [c Hc]. rewrite Hc.
    destruct Hsome as [c' Hc']. rewrite Hc'.
    pose proof (proj1 (isValidCell_true _ _) Hxy) as Hxy'.
    pose proof (proj1 (isValidCell_true _ _) Hnv) as Hnv'.
    cbn [repairCheck].
    eexists _, _. split; [reflexivity |]. cbn [grid set_grid set_seed].
    set (g2 := updCell _ _ _ markVisited).
    assert (Hvis2 : visitedAt g2 (nb_x nb) (nb_y nb) = true).
    { apply visitedAt_markVisited_eq; try lia.
      unfold removeWallPair. rewrite !cellAt_updCell_is_Some by lia. eauto. }
    assert (Hmono : forall a b, visitedAt (grid st) a b = true -> visitedAt g2 a b = true).
    { intros a b H. apply visitedAt_markVisited_mono; try lia.
      rewrite visitedAt_removeWallPair by lia. done. }
    assert (Hne : forall a b, (a, b) <> (nb_x nb, nb_y nb) ->
                   visitedAt g2 a b = visitedAt (grid st) a b).
    { intros a b H. unfold g2. rewrite visitedAt_markVisited_ne by (try lia; done).
      by rewrite visitedAt_removeWallPair by lia. }
    split.
    + apply (dfsInv_push (grid st)); try done.
    + pose proof (unvisitedCount_mark (grid st) g2 _ _ Hnv Hunv Hvis2 Hmono). simpl. lia.
Qed.

End Carver.

(** ** The fresh grid *)

Lemma lookup_map {A B} (f : A -> B) (l : list A) (i : nat) :
  map f l !! i = f <$> (l !! i).
Proof. revert i. induction l as [|a l IH]; intros [|i]; simpl; auto. Qed.

Lemma range_lookup (n : Z) (k : nat) :
  range n !! k = if decide (k < Z.to_nat n)%nat then Some (Z.of_nat k) else None.
Proof.
  unfold range. rewrite lookup_map. case_decide as Hk.
  - by rewrite lookup_seq_lt.
  - rewrite lookup_seq_ge; [done | lia].
Qed.

Lemma cellAt_freshGrid (x y : Z) :
  cellAt freshGrid x y = if isValidCell x y then Some (freshCell x y) else None.
Proof.
  unfold cellAt, arr_get, freshGrid.
  destruct (isValidCell x y) eqn:Ev.
  - apply isValidCell_true in Ev as [Hx Hy].
    destruct (Z.leb_spec 0 y); [| lia]. destruct (Z.leb_spec 0 x); [| lia].
    rewrite lookup_map, range_lookup. case_decide; [| lia].
    cbn [fmap option_fmap option_map].
    rewrite lookup_map, range_lookup. case_decide; [| lia].
    cbn [fmap option_fmap option_map].
    by rewrite !Z2Nat.id.
  - apply isValidCell_false in Ev.
    destruct (Z.leb_spec 0 y); [| done].
    rewrite lookup_map, range_lookup. case_decide; [| done].
    cbn [fmap option_fmap option_map].
    destruct (Z.leb_spec 0 x); [| done].
    rewrite lookup_map, range_lookup. case_decide; [lia | done].
Qed.

Lemma visitedAt_freshGrid (x y : Z) : visitedAt freshGrid x y = false.
Proof.
  unfold visitedAt. rewrite cellAt_freshGrid. by destruct (isValidCell x y).
Qed.

(** ** The carving loop: frame and termination *)

Section CarverLoop.

Variable Math_sin : Z -> Q.

Lemma dfsLoop_framed (fuel : nat) :
  forall st stack st', dfsLoop Math_sin fuel st stack = Some st' -> framed st st'.
Proof.
  induction fuel as [|fuel IH]; intros st [|[x y] rest] st' H; simpl in H;
    try (inversion H; subst; apply framed_refl); try done.
  destruct (dfsBody Math_sin fuel st x y rest) as [[st1 stack1]|] eqn:E; [| done].
  apply dfsBody_framed in E. apply IH in H. by eapply framed_trans.
Qed.

Lemma dfsLoop_total (sx sy : Z) (fuel : nat) :
  forall st stack,
    wfGrid (grid st) -> exitValid st ->
    isValidCell sx sy = true -> visitedAt (grid st) sx sy = true ->
    dfsInv (grid st) stack ->
    (2 * unvisitedCount (grid st) + length stack <= fuel)%nat ->
    exists st', dfsLoop Math_sin fuel st stack = Some st' /\ allVisited (grid st').
Proof.
  induction fuel as [|fuel IH]; intros st [|[x y] rest] Hwf Hex Hs Hsv Hinv Hfuel;
    try (cbn [length] in Hfuel; lia);
    try (exists st; split; [done |]; apply allVisited_visitedAt;
         by apply (closed_allVisited _ sx sy)).
  destruct (dfsBody_progress Math_sin fuel st x y sx sy rest Hwf Hex Hs Hsv Hinv)
    as (st1 & stack1 & Hbody & Hinv1 & Hm).
  simpl dfsLoop. rewrite Hbody.
  pose proof (dfsBody_framed _ _ _ _ _ _ _ _ Hbody) as (Hc & _ & Hexit & _).
  apply IH; try done.
  - by eapply carved_wfGrid.
  - unfold exitValid. by rewrite Hexit.
  - by eapply carved_visitedAt.
  - lia.
Qed.

Lemma depthFirstSearch_framed (fuel : nat) (startX startY : Z) (st st' : State) :
  depthFirstSearch Math_sin fuel startX startY st = Some st' -> framed st st'.
Proof.
  unfold depthFirstSearch.
  destruct (isValidCell startX startY) eqn:Ev; simpl;
    [| intros H; inversion H; apply framed_refl].
  apply isValidCell_true in Ev.
  destruct (cellAt (grid st) startX startY); [| intros H; inversion H; apply framed_refl].
  intros H. apply dfsLoop_framed in H. eapply framed_trans; [| exact H].
  apply framed_set_grid. apply carved_step; auto with maze; lia.
Qed.

Lemma depthFirstSearch_total (fuel : nat) (startX startY : Z) (st : State) :
  wfGrid (grid st) -> exitValid st -> isValidCell startX startY = true ->
  (forall x y, visitedAt (grid st) x y = false) ->
  (buildFuel <= fuel)%nat ->
  exists st', depthFirstSearch Math_sin fuel startX startY st = Some st' /\
              allVisited (grid st').
Proof.
  intros Hwf Hex Hv Hfresh Hfuel. unfold depthFirstSearch. rewrite Hv. simpl.
  destruct (wfGrid_cellAt _ _ _ Hwf Hv) as [c Hc]. rewrite Hc.
  pose proof (proj1 (isValidCell_true _ _) Hv) as Hv'.
  apply (dfsLoop_total startX startY); simpl; try done.
  - by apply wfGrid_updCell.
  - apply visitedAt_markVisited_eq; try lia. eauto.
  - split.
    + intros p [<-|[]]. simpl. split; [done |].
      apply visitedAt_markVisited_eq; try lia. eauto.
    + intros x y _ Hvis. left. left.
      destruct (decide ((x, y) = (startX, startY))) as [E|E]; [done |].
      rewrite visitedAt_markVisited_ne in Hvis by (try lia; done).
      by rewrite Hfresh in Hvis.
  - pose proof (unvisitedCount_bound (updCell (grid st) startX startY markVisited)).
    unfold buildFuel in Hfuel. lia.
Qed.

End CarverLoop.

(** ** Independence of the cached entrance position

    No build step reads [entranceWorldPosition]: changing it before a step
    changes it after the step and nothing else. *)

Lemma hasPathToExit_ewp (w : Vec3) (st : State) :
  hasPathToExit (set_entranceWorldPosition w st) = hasPathToExit st.
Proof. reflexivity. Qed.

Lemma createPathToExit_ewp (fuel : nat) (x y : Z) (w : Vec3) (st : State) :
  createPathToExit fuel x y (set_entranceWorldPosition w st)
  = set_entranceWorldPosition w <$> createPathToExit fuel x y st.
Proof.
  unfold createPathToExit. cbn [exit grid set_entranceWorldPosition].
  destruct (exit st) as [ex ey].
  destruct (createPathLoop fuel (grid st) ex ey x y) as [g|]; [| done].
  by destruct (validCellAt g ex ey).
Qed.

Lemma connectToExit_ewp (fuel : nat) (w : Vec3) (st : State) :
  connectToExit fuel (set_entranceWorldPosition w st)
  = set_entranceWorldPosition w <$> connectToExit fuel st.
Proof.
  unfold connectToExit. cbn [exit grid set_entranceWorldPosition].
  destruct (exit st) as [ex ey].
  destruct (findClosest (grid st) ex ey) as [[[x y] d]|]; [| done].
  apply createPathToExit_ewp.
Qed.

Lemma repairCheck_ewp (fuel : nat) (stack : list (Z * Z)) (w : Vec3) (st : State) :
  repairCheck fuel stack (set_entranceWorldPosition w st)
  = set_entranceWorldPosition w <$> repairCheck fuel stack st.
Proof.
  unfold repairCheck. destruct stack; [| done].
  rewrite hasPathToExit_ewp. destruct (hasPathToExit st); [done |].
  apply connectToExit_ewp.
Qed.

Section Independence.

Variable Math_sin : Z -> Q.

Lemma dfsBody_ewp (fuel : nat) (x y : Z) (rest : list (Z * Z)) (w : Vec3) (st : State) :
  dfsBody Math_sin fuel (set_entranceWorldPosition w st) x y rest
  = (fun r => (set_entranceWorldPosition w (fst r), snd r)) <$> dfsBody Math_sin fuel st x y rest.
Proof.
  unfold dfsBody, seedRandom. cbn [grid currentSeed set_seed set_entranceWorldPosition].
  destruct (unvisitedNeighbors (grid st) x y) as [|n0 ns].
  - rewrite repairCheck_ewp. by destruct (repairCheck fuel rest st).
  - destruct (arr_get _ _) as [nb|]; [| done].
    destruct (DIRECTIONS !! dirIndex nb) as [dir|]; [| done].
    destruct (cellAt (grid st) x y); [| done].
    destruct (cellAt (grid st) (nb_x nb) (nb_y nb)); done.
Qed.

Lemma dfsLoop_ewp (fuel : nat) :
  forall (stack : list (Z * Z)) (w : Vec3) (st : State),
    dfsLoop Math_sin fuel (set_entranceWorldPosition w st) stack
    = set_entranceWorldPosition w <$> dfsLoop Math_sin fuel st stack.
Proof.
  induction fuel as [|fuel IH]; intros [|[x y] rest] w st; try done.
  cbn [dfsLoop]. rewrite dfsBody_ewp.
  destruct (dfsBody Math_sin fuel st x y rest) as [[st1 stack1]|]; [| done].
  apply IH.
Qed.

Lemma depthFirstSearch_ewp (fuel : nat) (startX startY : Z) (w : Vec3) (st : State) :
  depthFirstSearch Math_sin fuel startX startY (set_entranceWorldPosition w st)
  = set_entranceWorldPosition w <$> depthFirstSearch Math_sin fuel startX startY st.
Proof.
  unfold depthFirstSearch. cbn [grid set_entranceWorldPosition].
  destruct (negb (isValidCell startX startY)); [done |].
  destruct (cellAt (grid st) startX startY); [| done].
  apply (dfsLoop_ewp fuel _ w (set_grid _ st)).
Qed.

Lemma extraConnection_ewp (w : Vec3) (st : State) :
  extraConnection Math_sin (set_entranceWorldPosition w st)
  = set_entranceWorldPosition w (extraConnection Math_sin st).
Proof.
  unfold extraConnection, seedRandom.
  cbn [grid currentSeed set_seed set_entranceWorldPosition].
  destruct (negb (isValidCell _ _)); [done |].
  destruct (arr_get DIRECTIONS _) as [dir|]; [| done].
  destruct (isValidCell _ _); [| done].
  destruct (cellAt (grid st) _ _); [| done].
  destruct (cellAt (grid st) _ _); done.
Qed.

Lemma iter_extraConnection_ewp (n : nat) (w : Vec3) (st : State) :
  Nat.iter n (extraConnection Math_sin) (set_entranceWorldPosition w st)
  = set_entranceWorldPosition w (Nat.iter n (extraConnection Math_sin) st).
Proof.
  induction n as [|n IH]; [done |]. rewrite !Nat.iter_succ.
  rewrite IH. apply extraConnection_ewp.
Qed.

Lemma openWall_ewp (x y : Z) (d : WallDirection) (w : Vec3) (st : State) :
  openWall x y d (set_entranceWorldPosition w st)
  = set_entranceWorldPosition w (openWall x y d st).
Proof.
  unfold openWall. cbn [grid set_entranceWorldPosition].
  destruct (isValidCell x y); [| done]. by destruct (cellAt (grid st) x y).
Qed.

End Independence.

(** ** Removal of a wall pair *)

Lemma wall_get_set (w : Walls) (d d' : WallDirection) (b : bool) :
  wall_get (wall_set d b w) d' = if decide (d' = d) then b else wall_get w d'.
Proof.
  case_decide as E.
  - subst. by destruct d.
  - destruct d, d'; try done; by destruct w.
Qed.

Lemma wallAt_updCell_removeWall (g : Grid) (x y a b : Z) (d d' : WallDirection) :
  0 <= x -> 0 <= y ->
  wallAt (updCell g x y (removeWall d)) a b d'
  = if decide ((a, b) = (x, y) /\ d' = d)
    then (fun _ => false) <$> cellAt g x y
    else wallAt g a b d'.
Proof.
  intros Hx Hy. unfold wallAt.
  destruct (decide ((a, b) = (x, y))) as [E|E].
  - inversion E; subst. rewrite cellAt_updCell_eq by done.
    destruct (cellAt g x y) as [c|]; simpl.
    + rewrite wall_get_set. repeat case_decide; try done; intuition congruence.
    + by case_decide.
  - rewrite cellAt_updCell_ne by done. case_decide; [intuition congruence | done].
Qed.

(** What removing the wall pair between two distinct existing cells does to
    the wall flags: the two facing flags become [false], every other flag
    keeps its value. *)
Lemma removeWallPair_wallAt (g : Grid) (x y nx ny : Z) (w o : WallDirection) :
  0 <= x -> 0 <= y -> 0 <= nx -> 0 <= ny ->
  is_Some (cellAt g x y) -> is_Some (cellAt g nx ny) -> (x, y) <> (nx, ny) ->
  wallAt (removeWallPair g x y w nx ny o) x y w = Some false /\
  wallAt (removeWallPair g x y w nx ny o) nx ny o = Some false /\
  forall a b d, (a, b, d) <> (x, y, w) -> (a, b, d) <> (nx, ny, o) ->
    wallAt (removeWallPair g x y w nx ny o) a b d = wallAt g a b d.
Proof.
  intros Hx Hy Hnx Hny [c Hc] [c' Hc'] Hne. unfold removeWallPair.
  repeat split.
  - rewrite !wallAt_updCell_removeWall by done.
    case_decide; [intuition congruence |]. case_decide; [| intuition congruence].
    by rewrite Hc.
  - rewrite wallAt_updCell_removeWall by done. case_decide; [| intuition congruence].
    rewrite cellAt_updCell_ne by done. by rewrite Hc'.
  - intros a b d H1 H2. rewrite !wallAt_updCell_removeWall by done.
    case_decide as E1; [destruct E1 as [E1 ->]; inversion E1; subst; done |].
    case_decide as E2; [destruct E2 as [E2 ->]; inversion E2; subst; done |]. done.
Qed.

Lemma removeWallPair_visited (g : Grid) (x y nx ny a b : Z) (w o : WallDirection) :
  0 <= x -> 0 <= y -> 0 <= nx -> 0 <= ny ->
  visited <$> cellAt (removeWallPair g x y w nx ny o) a b = visited <$> cellAt g a b.
Proof.
  intros Hx Hy Hnx Hny. unfold removeWallPair.
  assert (H : forall g x y d, 0 <= x -> 0 <= y ->
            visited <$> cellAt (updCell g x y (removeWall d)) a b = visited <$> cellAt g a b).
  { intros g0 x0 y0 d0 ? ?. destruct (decide ((a, b) = (x0, y0))) as [E|E].
    - inversion E; subst. rewrite cellAt_updCell_eq by done. by destruct (cellAt g0 x0 y0).
    - by rewrite cellAt_updCell_ne. }
  by rewrite !H.
Qed.

(** ** The loop injector *)

Section LoopInjector.

Variable Math_sin : Z -> Q.

Lemma MAZE_SIZE_pos : 0 < MAZE_SIZE.
Proof. reflexivity. Qed.

Lemma injectedCell_valid (s : Z) :
  isValidCell (fst (injectedCell Math_sin s)) (snd (injectedCell Math_sin s)) = true.
Proof.
  apply isValidCell_true. unfold injectedCell, drawAt. simpl.
  split; apply draw_range, MAZE_SIZE_pos.
Qed.

Lemma injectedDirection_lookup (s : Z) :
  arr_get DIRECTIONS (scaleFloor (drawAt Math_sin (s + 2)) 4)
  = Some (injectedDirection Math_sin s) /\
  In (injectedDirection Math_sin s) DIRECTIONS.
Proof.
  unfold injectedDirection, drawAt, arr_get.
  pose proof (draw_range (Math_sin (s + 2) * inject_Z 10000) 4 eq_refl) as Hd.
  set (k := scaleFloor _ 4) in *.
  destruct (Z.leb_spec 0 k); [| lia].
  assert (Hk : (Z.to_nat k < 4)%nat) by lia.
  destruct (Z.to_nat k) as [|[|[|[|n]]]]; simpl; try lia; auto 6.
Qed.

Lemma direction_moves (dir : Direction) (x y : Z) :
  In dir DIRECTIONS -> (x, y) <> (x + dir_x dir, y + dir_y dir).
Proof.
  intros [<-|[<-|[<-|[<-|[]]]]]; simpl; intros E; inversion E; lia.
Qed.

Lemma extraConnection_spec (st : State) :
  wfGrid (grid st) -> extraConnection Math_sin st = injectOnceSpec Math_sin st.
Proof.
  intros Hwf. unfold extraConnection, injectOnceSpec, seedRandom.
  cbn [grid currentSeed set_seed].
  pose proof (injectedCell_valid (currentSeed st)) as Hv.
  destruct (injectedDirection_lookup (currentSeed st)) as [Hd _].
  unfold injectedCell, drawAt in *. cbn [fst snd] in Hv.
  replace (currentSeed st + 1 + 1) with (currentSeed st + 2) by lia.
  rewrite Hv. cbn [negb]. change (Z.of_nat (length DIRECTIONS)) with 4.
  unfold drawAt in Hd. rewrite Hd.
  set (x := scaleFloor (frac (Math_sin (currentSeed st) * _)) MAZE_SIZE) in *.
  set (y := scaleFloor (frac (Math_sin (currentSeed st + 1) * _)) MAZE_SIZE) in *.
  set (dir := injectedDirection Math_sin (currentSeed st)).
  replace (currentSeed st + 2 + 1) with (currentSeed st + 3) by lia.
  destruct (isValidCell (x + dir_x dir) (y + dir_y dir)) eqn:Ev; [| reflexivity].
  destruct (wfGrid_cellAt _ _ _ Hwf Hv) as [c ->].
  destruct (wfGrid_cellAt _ _ _ Hwf Ev) as [c' ->]. reflexivity.
Qed.

Lemma injectOnceSpec_framed (st : State) : framed st (injectOnceSpec Math_sin st).
Proof.
  unfold injectOnceSpec. pose proof (injectedCell_valid (currentSeed st)) as Hv.
  destruct (injectedCell Math_sin (currentSeed st)) as [x y]. cbn [fst snd] in Hv.
  apply isValidCell_true in Hv.
  unfold framed. cbn [grid entrance exit entranceWorldPosition currentSeed].
  repeat split; try lia.
  destruct (isValidCell _ _) eqn:Ev; auto with maze.
  apply isValidCell_true in Ev. apply carved_removeWallPair; lia.
Qed.

Lemma injectOnceSpec_visited (st : State) (a b : Z) :
  visited <$> cellAt (grid (injectOnceSpec Math_sin st)) a b
  = visited <$> cellAt (grid st) a b.
Proof.
  unfold injectOnceSpec. pose proof (injectedCell_valid (currentSeed st)) as Hv.
  destruct (injectedCell Math_sin (currentSeed st)) as [x y]. cbn [fst snd] in Hv.
  apply isValidCell_true in Hv. cbn [grid].
  destruct (isValidCell _ _) eqn:Ev; [| done].
  apply isValidCell_true in Ev. apply removeWallPair_visited; lia.
Qed.

Lemma iter_extraConnection_spec (n : nat) (st : State) :
  wfGrid (grid st) ->
  Nat.iter n (extraConnection Math_sin) st = Nat.iter n (injectOnceSpec Math_sin) st /\
  framed st (Nat.iter n (injectOnceSpec Math_sin) st) /\
  currentSeed (Nat.iter n (injectOnceSpec Math_sin) st) = currentSeed st + 3 * Z.of_nat n /\
  forall a b, visited <$> cellAt (grid (Nat.iter n (injectOnceSpec Math_sin) st)) a b
              = visited <$> cellAt (grid st) a b.
Proof.
  intros Hwf. induction n as [|n (IH1 & IH2 & IH3 & IH4)].
  - simpl. split; [done |]. split; [apply framed_refl |]. split; [lia | done].
  - rewrite !Nat.iter_succ. rewrite IH1. split; [| split; [| split]].
    + apply extraConnection_spec. destruct IH2 as [Hc _]. by eapply carved_wfGrid.
    + eapply framed_trans; [exact IH2 |]. apply injectOnceSpec_framed.
    + transitivity (currentSeed (Nat.iter n (injectOnceSpec Math_sin) st) + 3); [| lia].
      unfold injectOnceSpec at 1. by destruct (injectedCell _ _).
    + intros a b. by rewrite injectOnceSpec_visited.
Qed.

Lemma connectionsToAdd_eq : connectionsToAdd = 250.
Proof. reflexivity. Qed.

Lemma addExtraConnections_framed (st : State) :
  wfGrid (grid st) -> framed st (addExtraConnections Math_sin st).
Proof.
  intros Hwf. unfold addExtraConnections.
  destruct (iter_extraConnection_spec (Z.to_nat connectionsToAdd) st Hwf) as (-> & H & _).
  exact H.
Qed.

Lemma addExtraConnections_visitedAt (st : State) (a b : Z) :
  wfGrid (grid st) ->
  visitedAt (grid (addExtraConnections Math_sin st)) a b = visitedAt (grid st) a b.
Proof.
  intros Hwf. unfold addExtraConnections.
  destruct (iter_extraConnection_spec (Z.to_nat connectionsToAdd) st Hwf) as (-> & _ & _ & H).
  specialize (H a b). unfold visitedAt.
  destruct (cellAt _ a b), (cellAt (grid st) a b); simpl in H; congruence.
Qed.

End LoopInjector.

(** ** More fuel changes nothing *)

Lemma createPathLoop_mono (fuel : nat) :
  forall fuel' g ex ey x y g',
    (fuel <= fuel')%nat ->
    createPathLoop fuel g ex ey x y = Some g' ->
    createPathLoop fuel' g ex ey x y = Some g'.
Proof.
  induction fuel as [|fuel IH]; intros fuel' g ex ey x y g' Hle H.
  - destruct fuel'; simpl in *; destruct (negb (x =? ex) || negb (y =? ey)); done.
  - destruct fuel' as [|fuel']; [lia |]. simpl in *.
    destruct (negb (x =? ex) || negb (y =? ey)); [| done].
    destruct (validCellAt g x y); [| done].
    repeat case_match; try done; apply (IH fuel'); try done; lia.
Qed.

Lemma createPathToExit_mono (fuel fuel' : nat) (x y : Z) (st st' : State) :
  (fuel <= fuel')%nat ->
  createPathToExit fuel x y st = Some st' -> createPathToExit fuel' x y st = Some st'.
Proof.
  intros Hle. unfold createPathToExit. destruct (exit st) as [ex ey].
  destruct (createPathLoop fuel (grid st) ex ey x y) as [g|] eqn:E; [| done].
  by rewrite (createPathLoop_mono _ _ _ _ _ _ _ _ Hle E).
Qed.

Lemma repairCheck_mono (fuel fuel' : nat) (stack : list (Z * Z)) (st st' : State) :
  (fuel <= fuel')%nat ->
  repairCheck fuel stack st = Some st' -> repairCheck fuel' stack st = Some st'.
Proof.
  intros Hle. unfold repairCheck, connectToExit. destruct stack; [| done].
  destruct (hasPathToExit st); [done |]. destruct (exit st) as [ex ey].
  destruct (findClosest (grid st) ex ey) as [[[x y] d]|]; [| done].
  by apply createPathToExit_mono.
Qed.

Section FuelMonotone.

Variable Math_sin : Z -> Q.
Variable FIXED_SEED : Z.

Lemma dfsBody_mono (fuel fuel' : nat) (st : State) (x y : Z) (rest : list (Z * Z))
    (r : State * list (Z * Z)) :
  (fuel <= fuel')%nat ->
  dfsBody Math_sin fuel st x y rest = Some r -> dfsBody Math_sin fuel' st x y rest = Some r.
Proof.
  intros Hle. unfold dfsBody.
  destruct (unvisitedNeighbors (grid st) x y) as [|n0 ns].
  - destruct (repairCheck fuel rest st) as [st2|] eqn:E; [| done].
    by rewrite (repairCheck_mono _ _ _ _ _ Hle E).
  - done.
Qed.

Lemma dfsLoop_mono (fuel : nat) :
  forall fuel' st stack st',
    (fuel <= fuel')%nat ->
    dfsLoop Math_sin fuel st stack = Some st' -> dfsLoop Math_sin fuel' st stack = Some st'.
Proof.
  induction fuel as [|fuel IH]; intros fuel' st [|[x y] rest] st' Hle H;
    try (destruct fuel'; done).
  destruct fuel' as [|fuel']; [lia |]. cbn [dfsLoop] in *.
  destruct (dfsBody Math_sin fuel st x y rest) as [[st1 stack1]|] eqn:E; [| done].
  rewrite (dfsBody_mono fuel fuel' _ _ _ _ _ ltac:(lia) E).
  apply (IH fuel'); [lia | done].
Qed.

Lemma generateMaze_mono (fuel fuel' : nat) (st st' : State) :
  (fuel <= fuel')%nat ->
  generateMaze Math_sin FIXED_SEED fuel st = Some st' ->
  generateMaze Math_sin FIXED_SEED fuel' st = Some st'.
Proof.
  intros Hle. unfold generateMaze, depthFirstSearch.
  destruct (negb (isValidCell (MAZE_SIZE / 2) 0)); [done |].
  destruct (cellAt _ (MAZE_SIZE / 2) 0); [| done].
  destruct (dfsLoop Math_sin fuel _ _) as [st1|] eqn:E; [| done].
  by rewrite (dfsLoop_mono _ _ _ _ _ Hle E).
Qed.

End FuelMonotone.

(** ** The build pipeline *)

Lemma openWall_framed (x y : Z) (d : WallDirection) (st : State) :
  framed st (openWall x y d st).
Proof.
  unfold openWall. destruct (isValidCell x y) eqn:Ev; [| apply framed_refl].
  apply isValidCell_true in Ev.
  destruct (cellAt (grid st) x y); [| apply framed_refl].
  apply framed_set_grid. apply carved_step; auto with maze; lia.
Qed.

Lemma openWall_wallAbsent (x y : Z) (d : WallDirection) (st : State) :
  wfGrid (grid st) -> isValidCell x y = true ->
  wallAbsent (grid (openWall x y d st)) x y d.
Proof.
  intros Hwf Hv. unfold openWall. rewrite Hv.
  destruct (wfGrid_cellAt _ _ _ Hwf Hv) as [c Hc]. rewrite Hc. cbn [grid set_grid].
  apply isValidCell_true in Hv. unfold wallAbsent.
  rewrite cellAt_updCell_eq by lia. rewrite Hc. eexists; split; [done |].
  simpl. rewrite wall_get_set. by case_decide.
Qed.

Lemma openWall_visitedAt (x y a b : Z) (d : WallDirection) (st : State) :
  visitedAt (grid (openWall x y d st)) a b = visitedAt (grid st) a b.
Proof.
  unfold openWall. destruct (isValidCell x y) eqn:Ev; [| done].
  apply isValidCell_true in Ev.
  destruct (cellAt (grid st) x y); [| done].
  cbn [grid set_grid]. apply visitedAt_removeWall; lia.
Qed.

Section Pipeline.

Variable Math_sin : Z -> Q.
Variable FIXED_SEED : Z.

Lemma extraConnection_framed (st : State) : framed st (extraConnection Math_sin st).
Proof.
  unfold extraConnection, seedRandom. cbn [grid currentSeed set_seed].
  assert (Hs : forall k, 0 <= k -> framed st (set_seed (currentSeed st + k) st)).
  { intros k Hk. unfold framed. simpl. repeat split; auto with maze; lia. }
  destruct (negb (isValidCell _ _)) eqn:Ev.
  { replace (currentSeed st + 1 + 1) with (currentSeed st + 2) by lia. apply Hs; lia. }
  apply negb_false_iff, isValidCell_true in Ev.
  replace (currentSeed st + 1 + 1 + 1) with (currentSeed st + 3) by lia.
  destruct (arr_get DIRECTIONS _) as [dir|]; [| apply Hs; lia].
  destruct (isValidCell _ _) eqn:Ev'; [| apply Hs; lia].
  apply isValidCell_true in Ev'.
  destruct (cellAt (grid st) _ _); [| apply Hs; lia].
  destruct (cellAt (grid st) _ _); [| apply Hs; lia].
  unfold framed. simpl. repeat split; try lia.
  apply carved_removeWallPair; lia.
Qed.

Lemma iter_extraConnection_framed (n : nat) (st : State) :
  framed st (Nat.iter n (extraConnection Math_sin) st).
Proof.
  induction n as [|n IH]; [apply framed_refl |]. rewrite Nat.iter_succ.
  eapply framed_trans; [exact IH | apply extraConnection_framed].
Qed.

Lemma generateMaze_reset (fuel : nat) (st : State) :
  generateMaze Math_sin FIXED_SEED fuel st
  = generateMaze Math_sin FIXED_SEED fuel
      (mkState 0 [] (0, 0) (0, 0) (entranceWorldPosition st)).
Proof. reflexivity. Qed.

Lemma generateMaze_ewp (fuel : nat) (w : Vec3) (st : State) :
  generateMaze Math_sin FIXED_SEED fuel (set_entranceWorldPosition w st)
  = set_entranceWorldPosition w <$> generateMaze Math_sin FIXED_SEED fuel st.
Proof.
  unfold generateMaze.
  change (set_exit ?p (openWall ?x ?y ?d (initializeGrid (set_entrance ?e
            (set_seed ?s (set_entranceWorldPosition w st))))))
    with (set_exit p (openWall x y d (set_entranceWorldPosition w
            (initializeGrid (set_entrance e (set_seed s st)))))).
  rewrite openWall_ewp.
  change (set_exit ?p (set_entranceWorldPosition w ?s))
    with (set_entranceWorldPosition w (set_exit p s)).
  rewrite depthFirstSearch_ewp.
  destruct (depthFirstSearch _ _ _ _ _) as [st1|]; [| done].
  cbn [fmap option_fmap option_map]. f_equal.
  rewrite openWall_ewp. unfold addExtraConnections. apply iter_extraConnection_ewp.
Qed.

(** The build completes on every input state and for every table of
    [Math.sin], and this is what it leaves. *)
Lemma generateMaze_built (fuel : nat) (st : State) :
  (buildFuel <= fuel)%nat ->
  exists st',
    generateMaze Math_sin FIXED_SEED fuel st = Some st' /\
    wfGrid (grid st') /\
    allVisited (grid st') /\
    entrance st' = (MAZE_SIZE / 2, 0) /\
    exit st' = (MAZE_SIZE / 2, MAZE_SIZE - 1) /\
    entranceWorldPosition st' = entranceWorldPosition st /\
    wallAbsent (grid st') (MAZE_SIZE / 2) 0 top /\
    wallAbsent (grid st') (MAZE_SIZE / 2) (MAZE_SIZE - 1) bottom.
Proof.
  intros Hfuel. unfold generateMaze.
  set (s0 := set_exit _ (openWall _ _ _ _)).
  assert (Hstart : isValidCell (MAZE_SIZE / 2) 0 = true) by reflexivity.
  assert (Hexit : isValidCell (MAZE_SIZE / 2) (MAZE_SIZE - 1) = true) by reflexivity.
  assert (Hwf0 : wfGrid (grid s0)).
  { unfold s0. cbn [grid set_exit].
    eapply carved_wfGrid; [apply openWall_framed |]. apply wfGrid_freshGrid. }
  assert (Htop0 : wallAbsent (grid s0) (MAZE_SIZE / 2) 0 top).
  { unfold s0. cbn [grid set_exit]. apply openWall_wallAbsent; [| done].
    apply wfGrid_freshGrid. }
  destruct (depthFirstSearch_total Math_sin fuel (MAZE_SIZE / 2) 0 s0)
    as (s1 & Hdfs & Hall); try done.
  { intros x y. unfold s0. cbn [grid set_exit]. rewrite openWall_visitedAt.
    apply visitedAt_freshGrid. }
  rewrite Hdfs.
  destruct (depthFirstSearch_framed _ _ _ _ _ _ Hdfs) as (Hc1 & He1 & Hx1 & Hw1 & _).
  pose proof (carved_wfGrid _ _ Hc1 Hwf0) as Hwf1.
  set (s2 := openWall _ _ bottom s1).
  destruct (openWall_framed (MAZE_SIZE / 2) (MAZE_SIZE - 1) bottom s1)
    as (Hc2 & He2 & Hx2 & Hw2 & _). fold s2 in Hc2, He2, Hx2, Hw2.
  pose proof (carved_wfGrid _ _ Hc2 Hwf1) as Hwf2.
  destruct (iter_extraConnection_framed (Z.to_nat connectionsToAdd) s2)
    as (Hc3 & He3 & Hx3 & Hw3 & _).
  eexists. split; [reflexivity |]. unfold addExtraConnections.
  split; [by eapply carved_wfGrid |].
  split.
  { apply allVisited_visitedAt. intros x y Hv.
    eapply carved_visitedAt; [exact Hc3 |]. eapply carved_visitedAt; [exact Hc2 |].
    by apply allVisited_visitedAt. }
  split; [by rewrite He3, He2, He1 |].
  split; [by rewrite Hx3, Hx2, Hx1 |].
  split; [by rewrite Hw3, Hw2, Hw1 |].
  split.
  - eapply carved_wallAbsent; [exact Hc3 |]. eapply carved_wallAbsent; [exact Hc2 |].
    eapply carved_wallAbsent; [exact Hc1 |]. exact Htop0.
  - eapply carved_wallAbsent; [exact Hc3 |]. by apply openWall_wallAbsent.
Qed.

End Pipeline.

(** * The build pipeline: determinism, coverage, openings, loop injection *)

Section BuildClaims.

Variable Math_sin : Z -> Q.
Variable FIXED_SEED : Z.

(** C1. Determinism of the build. Two calls of [generateMaze], on any two
    states of the generator (whatever the grid, the seed counter and the
    other fields were before each call), both complete and leave the same
    grid, cell for cell: the same wall flags and the same visited flags.
    They also leave the same seed counter, entrance and exit. *)
Theorem generateMaze_deterministic (fuelA fuelB : nat) (stA stB : State) :
  (buildFuel <= fuelA)%nat -> (buildFuel <= fuelB)%nat ->
  exists rA rB,
    generateMaze Math_sin FIXED_SEED fuelA stA = Some rA /\
    generateMaze Math_sin FIXED_SEED fuelB stB = Some rB /\
    grid rA = grid rB /\
    (forall x y, visitedAt (grid rA) x y = visitedAt (grid rB) x y) /\
    (forall x y d, wallAt (grid rA) x y d = wallAt (grid rB) x y d) /\
    currentSeed rA = currentSeed rB /\
    entrance rA = entrance rB /\
    exit rA = exit rB.
Proof.
  intros HA HB.
  destruct (generateMaze_built Math_sin FIXED_SEED buildFuel stA (Nat.le_refl _))
    as (rA & HrA & _).
  assert (HrB : generateMaze Math_sin FIXED_SEED buildFuel stB
                = Some (set_entranceWorldPosition (entranceWorldPosition stB) rA)).
  { rewrite (generateMaze_reset _ _ _ stB).
    change (mkState 0 [] (0, 0) (0, 0) (entranceWorldPosition stB))
      with (set_entranceWorldPosition (entranceWorldPosition stB)
              (mkState 0 [] (0, 0) (0, 0) (entranceWorldPosition stA))).
    rewrite generateMaze_ewp, <- (generateMaze_reset _ _ _ stA), HrA. done. }
  exists rA, (set_entranceWorldPosition (entranceWorldPosition stB) rA).
  split; [by apply (generateMaze_mono _ _ buildFuel) |].
  split; [by apply (generateMaze_mono _ _ buildFuel) |].
  repeat split; reflexivity.
Qed.

(** C2. Full connectivity. For every seed and every table of the
    generator, [generateMaze] completes and leaves every one of the
    [MAZE_SIZE] x [MAZE_SIZE] cells with [visited = true]. *)
Theorem generateMaze_all_visited (fuel : nat) (st : State) :
  (buildFuel <= fuel)%nat ->
  exists st',
    generateMaze Math_sin FIXED_SEED fuel st = Some st' /\
    forall x y, 0 <= x < MAZE_SIZE -> 0 <= y < MAZE_SIZE ->
      exists c, cellAt (grid st') x y = Some c /\ visited c = true.
Proof.
  intros Hfuel.
  destruct (generateMaze_built Math_sin FIXED_SEED fuel st Hfuel) as (st' & H & _ & Hall & _).
  exists st'. split; [done |]. intros x y Hx Hy. apply Hall.
  by apply isValidCell_true.
Qed.

(** C6. Entrance and exit. For every seed, after [generateMaze] the
    entrance is the cell [(MAZE_SIZE/2, 0) = (25, 0)] and its top wall is
    absent, the exit is the cell [(MAZE_SIZE/2, MAZE_SIZE-1) = (25, 49)] and
    its bottom wall is absent; and no step of the pipeline (carving with its
    repair check, the two openings, loop injection) puts back a wall that is
    absent. *)
Theorem generateMaze_entrance_exit (fuel : nat) (st : State) :
  (buildFuel <= fuel)%nat ->
  (exists st',
    generateMaze Math_sin FIXED_SEED fuel st = Some st' /\
    entrance st' = (MAZE_SIZE / 2, 0) /\ entrance st' = (25, 0) /\
    exit st' = (MAZE_SIZE / 2, MAZE_SIZE - 1) /\ exit st' = (25, 49) /\
    wallAbsent (grid st') 25 0 top /\
    wallAbsent (grid st') 25 49 bottom) /\
  (forall s s' f sx sy x y d,
     depthFirstSearch Math_sin f sx sy s = Some s' ->
     wallAbsent (grid s) x y d -> wallAbsent (grid s') x y d) /\
  (forall s x0 y0 d0 x y d,
     wallAbsent (grid s) x y d -> wallAbsent (grid (openWall x0 y0 d0 s)) x y d) /\
  (forall s x y d,
     wallAbsent (grid s) x y d ->
     wallAbsent (grid (addExtraConnections Math_sin s)) x y d).
Proof.
  intros Hfuel. split; [| split; [| split]].
  - destruct (generateMaze_built Math_sin FIXED_SEED fuel st Hfuel)
      as (st' & H & _ & _ & He & Hx & _ & Ht & Hb).
    exists st'. repeat split; try done.
  - intros s s' f sx sy x y d H. apply carved_wallAbsent.
    by destruct (depthFirstSearch_framed _ _ _ _ _ _ H).
  - intros s x0 y0 d0 x y d. apply carved_wallAbsent.
    by destruct (openWall_framed x0 y0 d0 s).
  - intros s x y d. apply carved_wallAbsent. unfold addExtraConnections.
    by destruct (iter_extraConnection_framed Math_sin (Z.to_nat connectionsToAdd) s).
Qed.

End BuildClaims.

Lemma generateMaze_deterministic_witness :
  exists rA rB,
    generateMaze sample_sin 12345 buildFuel (constructor 12345) = Some rA /\
    generateMaze sample_sin 12345 (S buildFuel)
      (mkState 99 [] (3, 4) (5, 6) (mkVec3 0 1 0)) = Some rB /\
    grid rA = grid rB /\
    (forall x y, visitedAt (grid rA) x y = visitedAt (grid rB) x y) /\
    (forall x y d, wallAt (grid rA) x y d = wallAt (grid rB) x y d) /\
    currentSeed rA = currentSeed rB /\
    entrance rA = entrance rB /\
    exit rA = exit rB.
Proof.
  apply (generateMaze_deterministic sample_sin 12345 buildFuel (S buildFuel)); lia.
Defined.

Lemma generateMaze_all_visited_witness :
  exists st',
    generateMaze sample_sin 12345 buildFuel (constructor 12345) = Some st' /\
    forall x y, 0 <= x < MAZE_SIZE -> 0 <= y < MAZE_SIZE ->
      exists c, cellAt (grid st') x y = Some c /\ visited c = true.
Proof.
  apply (generateMaze_all_visited sample_sin 12345 buildFuel (constructor 12345)). lia.
Defined.

Lemma generateMaze_entrance_exit_witness :
  exists st',
    generateMaze sample_sin 12345 buildFuel (constructor 12345) = Some st' /\
    entrance st' = (MAZE_SIZE / 2, 0) /\ entrance st' = (25, 0) /\
    exit st' = (MAZE_SIZE / 2, MAZE_SIZE - 1) /\ exit st' = (25, 49) /\
    wallAbsent (grid st') 25 0 top /\
    wallAbsent (grid st') 25 49 bottom.
Proof.
  apply (generateMaze_entrance_exit sample_sin 12345 buildFuel (constructor 12345)). lia.
Defined.

Section LoopInjectionClaim.

Variable Math_sin : Z -> Q.

(** C7. Loop injection. [addExtraConnections] runs its body
    [floor(MAZE_SIZE^2 * 0.1) = 250] times. On a grid of the built shape every
    iteration is the specified one: it draws an in-bounds cell [(x, y)] and one
    of the four directions with three consecutive values of the generator (so
    the counter ends [3 * 250] higher); when the neighbour in that direction
    is in bounds the two facing wall flags are [false] afterwards and every
    other wall flag is as before, and when it is out of bounds the grid is as
    before. No iteration changes a [visited] flag. *)
Theorem addExtraConnections_contract (st : State) :
  wfGrid (grid st) ->
  connectionsToAdd = 250 /\
  addExtraConnections Math_sin st = Nat.iter 250 (injectOnceSpec Math_sin) st /\
  currentSeed (addExtraConnections Math_sin st) = currentSeed st + 3 * 250 /\
  (forall a b, visited <$> cellAt (grid (addExtraConnections Math_sin st)) a b
               = visited <$> cellAt (grid st) a b) /\
  (forall s, wfGrid (grid s) ->
     let x := fst (injectedCell Math_sin (currentSeed s)) in
     let y := snd (injectedCell Math_sin (currentSeed s)) in
     let dir := injectedDirection Math_sin (currentSeed s) in
     let nx := x + dir_x dir in
     let ny := y + dir_y dir in
     let g' := grid (extraConnection Math_sin s) in
     isValidCell x y = true /\ In dir DIRECTIONS /\
     currentSeed (extraConnection Math_sin s) = currentSeed s + 3 /\
     (forall a b, visited <$> cellAt g' a b = visited <$> cellAt (grid s) a b) /\
     (isValidCell nx ny = true ->
        wallAt g' x y (wall dir) = Some false /\
        wallAt g' nx ny (opposite dir) = Some false /\
        forall a b d, (a, b, d) <> (x, y, wall dir) -> (a, b, d) <> (nx, ny, opposite dir) ->
          wallAt g' a b d = wallAt (grid s) a b d) /\
     (isValidCell nx ny = false -> g' = grid s)).
Proof.
  intros Hwf.
  pose proof (iter_extraConnection_spec Math_sin 250 st Hwf) as (H1 & _ & H3 & H4).
  split; [reflexivity |].
  assert (E : addExtraConnections Math_sin st = Nat.iter 250 (injectOnceSpec Math_sin) st).
  { unfold addExtraConnections. rewrite connectionsToAdd_eq. exact H1. }
  rewrite E. split; [done |]. split; [exact H3 |]. split; [exact H4 |].
  intros s Hs. cbv zeta.
  rewrite (extraConnection_spec Math_sin s Hs).
  pose proof (injectedCell_valid Math_sin (currentSeed s)) as Hv.
  destruct (injectedDirection_lookup Math_sin (currentSeed s)) as [_ Hdir].
  split; [exact Hv |]. split; [exact Hdir |].
  pose proof (injectOnceSpec_visited Math_sin s) as Hvis.
  unfold injectOnceSpec in *.
  destruct (injectedCell Math_sin (currentSeed s)) as [x y]. cbn [fst snd] in *.
  cbn [grid currentSeed] in *.
  split; [done |]. split; [exact Hvis |].
  set (dir := injectedDirection Math_sin (currentSeed s)) in *.
  split.
  - intros Hn. rewrite Hn.
    pose proof (proj1 (isValidCell_true _ _) Hv).
    pose proof (proj1 (isValidCell_true _ _) Hn).
    apply removeWallPair_wallAt; try lia.
    + by apply wfGrid_cellAt.
    + by apply wfGrid_cellAt.
    + by apply direction_moves.
  - intros Hn. by rewrite Hn.
Qed.

End LoopInjectionClaim.

Lemma addExtraConnections_contract_witness :
  connectionsToAdd = 250 /\
  addExtraConnections sample_sin (constructor 12345)
  = Nat.iter 250 (injectOnceSpec sample_sin) (constructor 12345).
Proof.
  pose proof (addExtraConnections_contract sample_sin (constructor 12345) wfGrid_freshGrid)
    as (H1 & H2 & _).
  exact (conj H1 H2).
Defined.

(** * The query layer *)

Lemma Qltb_lt (a b : Q) : Qltb a b = true <-> (a < b)%Q.
Proof.
  unfold Qltb. rewrite negb_true_iff. split.
  - intros H. apply Qnot_le_lt. intros Hle. apply Qle_bool_iff in Hle. congruence.
  - intros H. destruct (Qle_bool b a) eqn:E; [| done].
    apply Qle_bool_iff in E. exfalso. by apply (Qlt_not_le _ _ H).
Qed.

Lemma Qltb_ge (a b : Q) : Qltb a b = false <-> (b <= a)%Q.
Proof.
  unfold Qltb. rewrite negb_false_iff. apply Qle_bool_iff.
Qed.

(** ** The quotient of a coordinate by [PATH_WIDTH] *)

Lemma Qfloor_between (q : Q) (z : Z) :
  (inject_Z z <= q)%Q -> (q < inject_Z (z + 1))%Q -> Qfloor q = z.
Proof.
  intros Hl Hu. pose proof (Qfloor_le q) as Hl'. pose proof (Qlt_floor q) as Hu'.
  assert (H1 : (inject_Z (Qfloor q) < inject_Z (z + 1))%Q) by (eapply Qle_lt_trans; eauto).
  assert (H2 : (inject_Z z < inject_Z (Qfloor q + 1))%Q) by (eapply Qle_lt_trans; eauto).
  rewrite <- Zlt_Qlt in H1, H2. lia.
Qed.

Lemma MIN_VALUE_pos : (0 < MIN_VALUE)%Q.
Proof. reflexivity. Qed.

Lemma MIN_NORMAL_small : (MIN_NORMAL + MIN_VALUE < 1)%Q.
Proof. vm_compute. reflexivity. Qed.

Lemma MIN_VALUE_le_NORMAL : (MIN_VALUE <= MIN_NORMAL)%Q.
Proof. vm_compute. discriminate. Qed.

Lemma roundTiesToEven_range (t : Q) :
  (inject_Z (roundTiesToEven t) <= t + (1 # 2))%Q /\ (t - (1 # 2) <= inject_Z (roundTiesToEven t))%Q.
Proof.
  unfold roundTiesToEven. pose proof (Qfloor_le t) as Hl. pose proof (Qlt_floor t) as Hu.
  rewrite inject_Z_plus in Hu. change (inject_Z 1) with 1%Q in Hu.
  destruct (t - inject_Z (Qfloor t) ?= 1 # 2)%Q eqn:E.
  - apply Qeq_alt in E. destruct (Z.even (Qfloor t));
      rewrite ?inject_Z_plus; change (inject_Z 1) with 1%Q; lra.
  - apply Qlt_alt in E. lra.
  - apply Qgt_alt in E. rewrite inject_Z_plus. change (inject_Z 1) with 1%Q. lra.
Qed.

Lemma roundTiesToEven_nonneg (t : Q) : (0 <= t)%Q -> 0 <= roundTiesToEven t.
Proof.
  intros Ht. destruct (roundTiesToEven_range t) as [_ Hr].
  assert (H : (inject_Z (-1) < inject_Z (roundTiesToEven t))%Q)
    by (change (inject_Z (-1)) with (-1)%Q; lra).
  rewrite <- Zlt_Qlt in H. lia.
Qed.

Lemma roundTiesToEven_neg (t : Q) : (t < - (1 # 2))%Q -> roundTiesToEven t <= -1.
Proof.
  intros Ht. destruct (roundTiesToEven_range t) as [Hr _].
  assert (H : (inject_Z (roundTiesToEven t) < inject_Z 0)%Q)
    by (change (inject_Z 0) with 0%Q; lra).
  rewrite <- Zlt_Qlt in H. lia.
Qed.

Lemma roundTiesToEven_zero (t : Q) :
  (- (1 # 2) <= t)%Q -> (t < 0)%Q -> roundTiesToEven t = 0.
Proof.
  intros Hl Hu. unfold roundTiesToEven.
  assert (E : Qfloor t = -1).
  { pose proof (Qfloor_le t) as H1. pose proof (Qlt_floor t) as H2.
    assert (H3 : (inject_Z (Qfloor t) < inject_Z 0)%Q) by (change (inject_Z 0) with 0%Q; lra).
    assert (H4 : (inject_Z (-1) < inject_Z (Qfloor t + 1))%Q)
      by (change (inject_Z (-1)) with (-1)%Q; lra).
    rewrite <- Zlt_Qlt in H3, H4. lia. }
  rewrite E. change (inject_Z (-1)) with (-1)%Q.
  destruct (t - -1 ?= 1 # 2)%Q eqn:Ec; [reflexivity | | reflexivity].
  apply Qlt_alt in Ec. lra.
Qed.

(** The column of a world coordinate: [Math.floor(x / PATH_WIDTH)]. It is
    the floor of the real quotient, but for the two negative doubles whose
    quotient rounds to zero. *)
Lemma divPathWidth_floor (x : Q) :
  ((- (2 # 1) * MIN_VALUE <= x)%Q -> (x < 0)%Q -> Qfloor (divPathWidth x) = 0) /\
  ((x < - (2 # 1) * MIN_VALUE)%Q \/ (0 <= x)%Q ->
   Qfloor (divPathWidth x) = Qfloor (x / inject_Z PATH_WIDTH)).
Proof.
  pose proof MIN_VALUE_pos as Hmv. pose proof MIN_NORMAL_small as Hmn.
  pose proof MIN_VALUE_le_NORMAL as Hle.
  unfold divPathWidth. change (inject_Z PATH_WIDTH) with 4%Q.
  generalize dependent MIN_NORMAL. generalize dependent MIN_VALUE. intros mv Hmv mn Hmn Hle.
  set (q := (x / 4)%Q).
  assert (Eq4 : (4 * q == x)%Q) by (unfold q; apply Qmult_div_r; discriminate).
  set (t := (q / mv)%Q).
  assert (Et : (t * mv == q)%Q) by (unfold t; rewrite Qmult_comm; apply Qmult_div_r; intros E0; lra).
  destruct (Qle_bool mn (Qabs q)) eqn:En.
  - apply Qle_bool_iff in En. split; [| reflexivity].
    intros H1 H2. exfalso. rewrite Qabs_neg in En by lra. lra.
  - assert (Hsub : (Qabs q < mn)%Q).
    { apply Qnot_le_lt. intros H. apply Qle_bool_iff in H. congruence. }
    apply Qabs_Qlt_condition in Hsub as [Hlo Hhi].
    destruct (roundTiesToEven_range t) as [Hr1 Hr2].
    set (r := roundTiesToEven t) in *.
    assert (Hb1 : (inject_Z r * mv <= q + (1 # 2) * mv)%Q) by nra.
    assert (Hb2 : (q - (1 # 2) * mv <= inject_Z r * mv)%Q) by nra.
    split.
    + intros H1 H2. unfold r. rewrite roundTiesToEven_zero by nra.
      reflexivity.
    + intros [H | H].
      * assert (Hr : r <= -1) by (apply roundTiesToEven_neg; nra).
        assert (Hr' : (inject_Z r <= -1)%Q)
          by (change (-1)%Q with (inject_Z (-1)); now rewrite <- Zle_Qle).
        transitivity (-1); [| symmetry];
          (apply Qfloor_between; change (inject_Z (-1)) with (-1)%Q;
           change (inject_Z (-1 + 1)) with 0%Q; nra).
      * assert (Hr : 0 <= r) by (apply roundTiesToEven_nonneg; nra).
        assert (Hr' : (0 <= inject_Z r)%Q)
          by (change 0%Q with (inject_Z 0); now rewrite <- Zle_Qle).
        transitivity 0; [| symmetry];
          (apply Qfloor_between; change (inject_Z 0) with 0%Q;
           change (inject_Z (0 + 1)) with 1%Q; nra).
Qed.

Lemma divPathWidth_nonneg (x : Q) :
  (0 <= x)%Q -> Qfloor (divPathWidth x) = Qfloor (x / inject_Z PATH_WIDTH).
Proof. intros H. apply divPathWidth_floor. now right. Qed.

(** C4. Walkability agrees with [visited]. For every state of the
    generator, built or not: [isWalkablePath] is [true] when [worldZ < 0] or
    [worldZ >= MAZE_SIZE * PATH_WIDTH]; otherwise it is [true] exactly when
    [(floor(worldX / PATH_WIDTH), floor(worldZ / PATH_WIDTH))] is in bounds
    and the cell there has [visited = true], and so it is [false] when that
    grid coordinate is out of bounds. The quotients are those of the code, on
    doubles: [floor(worldZ / PATH_WIDTH)] is the floor of the real quotient,
    and so is [floor(worldX / PATH_WIDTH)] but for [-2^-1073 <= worldX < 0]
    (the doubles [-2^-1074] and [-2^-1073]), where the quotient underflows to
    [-0] and the column is [0]. *)
Theorem isWalkablePath_spec (st : State) (worldX worldY worldZ : Q) :
  let gridX := Qfloor (divPathWidth worldX) in
  let gridZ := Qfloor (divPathWidth worldZ) in
  ((worldZ < 0)%Q \/ (inject_Z (MAZE_SIZE * PATH_WIDTH) <= worldZ)%Q ->
     isWalkablePath st worldX worldY worldZ = true) /\
  ((0 <= worldZ)%Q /\ (worldZ < inject_Z (MAZE_SIZE * PATH_WIDTH))%Q ->
     (isWalkablePath st worldX worldY worldZ = true <->
        (0 <= gridX < MAZE_SIZE /\ 0 <= gridZ < MAZE_SIZE) /\
        exists c, cellAt (grid st) gridX gridZ = Some c /\ visited c = true) /\
     (~ (0 <= gridX < MAZE_SIZE /\ 0 <= gridZ < MAZE_SIZE) ->
        isWalkablePath st worldX worldY worldZ = false) /\
     gridZ = Qfloor (worldZ / inject_Z PATH_WIDTH)) /\
  ((worldX < - (2 # 1) * MIN_VALUE)%Q \/ (0 <= worldX)%Q ->
     gridX = Qfloor (worldX / inject_Z PATH_WIDTH)) /\
  ((- (2 # 1) * MIN_VALUE <= worldX)%Q /\ (worldX < 0)%Q -> gridX = 0).
Proof.
  intros gridX gridZ. unfold isWalkablePath. fold gridX gridZ.
  split; [| split; [| split]].
  - intros [H|H].
    + apply Qltb_lt in H. by rewrite H.
    + apply Qle_bool_iff in H. rewrite H. by rewrite orb_true_r.
  - intros [H0 H1]. pose proof H0 as H0'. apply Qltb_ge in H0. rewrite H0.
    assert (H1' : Qle_bool (inject_Z (MAZE_SIZE * PATH_WIDTH)) worldZ = false).
    { destruct (Qle_bool _ worldZ) eqn:E; [| done]. apply Qle_bool_iff in E.
      exfalso. by apply (Qlt_not_le _ _ H1). }
    rewrite H1'. cbn [orb]. unfold isWalkableCell. split; [| split].
    + rewrite andb_true_iff, isValidCell_true, visitedAt_Some. tauto.
    + intros Hn. apply isValidCell_false in Hn. by rewrite Hn.
    + by apply divPathWidth_nonneg.
  - apply divPathWidth_floor.
  - intros [Hl Hu]. by apply divPathWidth_floor.
Qed.

(** C10. The [worldY] argument of [isWalkablePath] is ignored. *)
Theorem isWalkablePath_ignores_worldY (st : State) (worldX y1 y2 worldZ : Q) :
  isWalkablePath st worldX y1 worldZ = isWalkablePath st worldX y2 worldZ.
Proof. reflexivity. Qed.

(** ** Sampling a walkable position *)

Lemma getAllWalkableCells_In (st : State) (c : Z * Z) :
  In c (getAllWalkableCells st) <-> walkable st c.
Proof.
  unfold getAllWalkableCells, walkable, isWalkableCell. rewrite filter_In.
  destruct c as [x z]. cbn [fst snd]. by rewrite rowMajor_In, visitedAt_Some.
Qed.

Lemma farFromEnds_true (st : State) (r : Q) (c : Z * Z) :
  farFromEnds st r c = true <-> farFromBoth st r c.
Proof.
  unfold farFromEnds, farFromBoth. by rewrite andb_true_iff, !Qltb_lt.
Qed.

Lemma pick_In {A} (l : list A) (q : Q) :
  l <> [] ->
  exists a, arr_get l (Z.min (scaleFloor (frac q) (Z.of_nat (length l)))
                             (Z.of_nat (length l) - 1)) = Some a /\ In a l.
Proof.
  intros Hl. assert (0 < Z.of_nat (length l)) by (destruct l; simpl; [done | lia]).
  pose proof (draw_range q (Z.of_nat (length l)) H) as Hd.
  destruct (arr_get_lt l (Z.min (scaleFloor (frac q) (Z.of_nat (length l)))
                                (Z.of_nat (length l) - 1))) as [a Ha]; [lia |].
  exists a. split; [done |]. by eapply arr_get_In.
Qed.

Lemma length_eqb_0 {A} (l : list A) : (length l =? 0)%nat = true <-> l = [].
Proof. destruct l; simpl; split; done. Qed.

(** The point [getCellCenter] computes, and the one cell it is the centre
    of. *)
Lemma centreOfCell_getCellCenter (st : State) (x z : Z) :
  centreOfCell (x, z) (getCellCenter st x z).
Proof.
  unfold centreOfCell, getCellCenter. cbn [vx vz fst snd].
  rewrite !inject_Z_plus, !inject_Z_mult. change (inject_Z PATH_WIDTH) with 4%Q.
  change (inject_Z 4) with 4%Q. change (inject_Z 2) with 2%Q.
  assert (E2 : (4 / 2 == 2)%Q) by reflexivity. rewrite E2. split; lra.
Qed.

Lemma centreOfCell_inj (c c' : Z * Z) (p : Vec3) :
  centreOfCell c p -> centreOfCell c' p -> c = c'.
Proof.
  intros [Hx Hz] [Hx' Hz'].
  pose proof (proj1 (inject_Z_injective _ _) (Qeq_trans _ _ _ (Qeq_sym _ _ Hx) Hx')) as Ex.
  pose proof (proj1 (inject_Z_injective _ _) (Qeq_trans _ _ _ (Qeq_sym _ _ Hz) Hz')) as Ez.
  destruct c, c'. cbn [fst snd] in *. f_equal; lia.
Qed.

Section Sampling.

Variable Math_sin : Z -> Q.

(** What [getRandomWalkablePosition] returns and what it leaves, by the
    three cases of its body. *)
Lemma getRandomWalkablePosition_cases (r : Q) (st : State) :
  let walkableCells := getAllWalkableCells st in
  let far := List.filter (farFromEnds st r) walkableCells in
  (walkableCells = [] /\ getRandomWalkablePosition Math_sin r st = (None, st)) \/
  (walkableCells <> [] /\
   exists c, getRandomWalkablePosition Math_sin r st
             = (Some (getCellCenter st (fst c) (snd c)), set_seed (currentSeed st + 1) st) /\
     In c walkableCells /\
     ((0 < r)%Q -> far <> [] -> In c far)).
Proof.
  intros walkableCells far. unfold getRandomWalkablePosition. fold walkableCells.
  destruct (length walkableCells =? 0)%nat eqn:E0.
  { left. by apply length_eqb_0 in E0. }
  right. assert (Hne : walkableCells <> []).
  { intros E. apply length_eqb_0 in E. congruence. }
  split; [done |].
  destruct (Qltb 0 r) eqn:Er.
  - fold far. destruct (length far =? 0)%nat eqn:E1.
    + rewrite E0. unfold seedRandom.
      destruct (pick_In walkableCells (Math_sin (currentSeed st) * inject_Z 10000) Hne)
        as (c & Hc & Hin).
      rewrite Hc. exists c. split; [done |]. split; [done |].
      intros _ Hf. apply length_eqb_0 in E1. congruence.
    + assert (Hf : far <> []) by (intros E; apply length_eqb_0 in E; congruence).
      rewrite E1. unfold seedRandom.
      destruct (pick_In far (Math_sin (currentSeed st) * inject_Z 10000) Hf)
        as (c & Hc & Hin).
      rewrite Hc. exists c. split; [done |]. split; [| done].
      unfold far in Hin. by apply filter_In in Hin as [? _].
  - rewrite E0, E0. unfold seedRandom.
    destruct (pick_In walkableCells (Math_sin (currentSeed st) * inject_Z 10000) Hne)
      as (c & Hc & Hin).
    rewrite Hc. exists c. split; [done |]. split; [done |].
    intros Hr. apply Qltb_lt in Hr. congruence.
Qed.

(** C5. Exclusion radius with fallback. For every state of the generator
    and every [excludeRadius > 0]: if some walkable cell is farther than the
    radius (in Manhattan distance) from both the entrance and the exit, the
    result is the centre of such a cell; if there is none but some cell is
    walkable, the result is the centre of a walkable cell; and the result is
    [null] exactly when no cell is walkable. The centre of the cell [(x, z)]
    is the point [(4 x + 2, 4 z + 2)] of the plane, at the height of the
    cached entrance position plus one; a returned point is the centre of one
    cell only, and never of a cell within the radius of an end when some
    walkable cell is beyond it. *)
Theorem getRandomWalkablePosition_contract (excludeRadius : Q) (st : State) :
  (0 < excludeRadius)%Q ->
  let result := fst (getRandomWalkablePosition Math_sin excludeRadius st) in
  let far c := fartherThan excludeRadius c (entrance st) /\
               fartherThan excludeRadius c (exit st) in
  ((exists c, walkable st c /\ far c) ->
     exists c p, result = Some p /\ centreOfCell c p /\ walkable st c /\ far c) /\
  ((exists c, walkable st c) ->
     exists c p, result = Some p /\ centreOfCell c p /\ walkable st c) /\
  (result = None <-> ~ exists c, walkable st c) /\
  (forall p, result = Some p ->
     (vy p == vy (entranceWorldPosition st) + 1)%Q /\
     forall c, centreOfCell c p ->
       walkable st c /\ ((exists c', walkable st c' /\ far c') -> far c)).
Proof.
  intros Hr result far. unfold result.
  assert (Hfar : forall c, far c <-> farFromBoth st excludeRadius c) by (intros c; reflexivity).
  destruct (getRandomWalkablePosition_cases excludeRadius st)
    as [[Hnil ->]|(Hne & c & -> & Hin & Hf)]; cbn [fst].
  - assert (Hnone : ~ exists c, walkable st c).
    { intros [c Hc]. apply getAllWalkableCells_In in Hc. rewrite Hnil in Hc. destruct Hc. }
    split; [| split; [| split]].
    + intros (c & Hc & _). exfalso. eauto.
    + intros Hc. by exfalso.
    + done.
    + intros p Hp. discriminate Hp.
  - assert (Hwc : walkable st c) by by apply getAllWalkableCells_In.
    assert (Hfc : (exists c0, walkable st c0 /\ far c0) -> far c).
    { intros (c0 & Hw0 & Hf0). apply Hfar in Hf0.
      assert (Hin0 : In c0 (List.filter (farFromEnds st excludeRadius) (getAllWalkableCells st))).
      { apply filter_In. split; [by apply getAllWalkableCells_In | by apply farFromEnds_true]. }
      assert (Hc : In c (List.filter (farFromEnds st excludeRadius) (getAllWalkableCells st))).
      { apply Hf; [done |]. intros E. rewrite E in Hin0. destruct Hin0. }
      apply filter_In in Hc as [_ Hc2]. by apply Hfar, farFromEnds_true. }
    pose proof (centreOfCell_getCellCenter st (fst c) (snd c)) as Hcc.
    rewrite <- surjective_pairing in Hcc.
    split; [| split; [| split]].
    + intros H0. exists c, (getCellCenter st (fst c) (snd c)). auto.
    + intros _. exists c, (getCellCenter st (fst c) (snd c)). auto.
    + split; [done |]. intros Hn. exfalso. apply Hn. by exists c.
    + intros p Hp. apply (inj Some) in Hp. subst p. split; [reflexivity |].
      intros c' Hc'. rewrite (centreOfCell_inj _ _ _ Hc' Hcc). auto.
Qed.

End Sampling.

(** ** What the queries write *)

Section QueryFrame.

Variable Math_sin : Z -> Q.

(** C9, as the code has it. No query changes the grid, the entrance or the
    exit. [isWalkablePath], [getCellCenter], [getAllWalkableCells] and
    [getExit] leave the whole state as it was. [getRandomWalkablePosition]
    leaves the cached entrance position as it was and advances the seed
    counter by one when some cell is walkable (by nothing otherwise).
    [getEntrance] leaves the seed counter as it was and overwrites the cached
    entrance position with the entrance anchor
    [(entrance.x * PATH_WIDTH + PATH_WIDTH / 2, 1, - PLATFORM_DEPTH / 2)]. *)
Theorem query_frame (q : Query) (st : State) :
  let st' := snd (runQuery Math_sin q st) in
  grid st' = grid st /\ entrance st' = entrance st /\ exit st' = exit st /\
  match q with
  | QGetRandomWalkablePosition _ =>
    entranceWorldPosition st' = entranceWorldPosition st /\
    (currentSeed st' = currentSeed st + 1 <-> exists c, walkable st c) /\
    (currentSeed st' = currentSeed st <-> ~ exists c, walkable st c)
  | QGetEntrance =>
    currentSeed st' = currentSeed st /\
    entranceWorldPosition st'
    = mkVec3 (inject_Z (fst (entrance st)) * inject_Z PATH_WIDTH + inject_Z PATH_WIDTH / 2)
             1 (- inject_Z PLATFORM_DEPTH / 2)
  | _ => st' = st
  end.
Proof.
  destruct q as [wx wy wz|gx gz| |r| |]; cbn [runQuery snd]; try done.
  destruct (getRandomWalkablePosition_cases Math_sin r st)
    as [[Hnil ->]|(Hne & c & -> & Hin & _)]; cbn [snd grid entrance exit
      entranceWorldPosition currentSeed set_seed].
  - assert (Hnone : ~ exists c, walkable st c).
    { intros [c Hc]. apply getAllWalkableCells_In in Hc. rewrite Hnil in Hc. destruct Hc. }
    repeat split; try done; try lia.
  - assert (Hsome : exists c, walkable st c).
    { exists c. by apply getAllWalkableCells_In. }
    repeat split; try done; try lia.
Qed.

End QueryFrame.

Lemma built_shape (Math_sin : Z -> Q) (FIXED_SEED : Z) (st : State) :
  built Math_sin FIXED_SEED st ->
  wfGrid (grid st) /\ allVisited (grid st) /\
  entrance st = (MAZE_SIZE / 2, 0) /\ exit st = (MAZE_SIZE / 2, MAZE_SIZE - 1) /\
  entranceWorldPosition st = mkVec3 0 1 0.
Proof.
  intros (fuel & st0 & H & ->).
  assert (Hle : (fuel <= fuel + buildFuel)%nat) by lia.
  pose proof (generateMaze_mono _ _ _ _ _ _ Hle H) as H'.
  destruct (generateMaze_built Math_sin FIXED_SEED (fuel + buildFuel) (constructor FIXED_SEED))
    as (st' & Hst' & Hwf & Hall & He & Hx & Hw & _); [lia |].
  rewrite H' in Hst'. inversion Hst'; subst st'.
  unfold buildMaze. cbn [grid entrance exit entranceWorldPosition set_entranceWorldPosition].
  rewrite Hw. done.
Qed.

Lemma built_exists (Math_sin : Z -> Q) (FIXED_SEED : Z) :
  exists st, built Math_sin FIXED_SEED st.
Proof.
  destruct (generateMaze_built Math_sin FIXED_SEED buildFuel (constructor FIXED_SEED)
              (Nat.le_refl _)) as (st0 & H & _).
  exists (buildMaze st0), buildFuel, st0. done.
Qed.

(** What every state of the running server keeps of the built maze. *)
Lemma served_shape (Math_sin : Z -> Q) (FIXED_SEED : Z) (st : State) :
  served Math_sin FIXED_SEED st ->
  vy (entranceWorldPosition st) = 1%Q /\
  exists st0, built Math_sin FIXED_SEED st0 /\
    grid st = grid st0 /\ entrance st = entrance st0 /\ exit st = exit st0.
Proof.
  induction 1 as [st Hb | q st Hs IH | st Hs IH].
  - destruct (built_shape _ _ _ Hb) as (_ & _ & _ & _ & Hw). rewrite Hw.
    split; [reflexivity |]. by exists st.
  - destruct IH as (Hy & st0 & IH).
    destruct q as [wx wy wz|gx gz| |r| |]; cbn [runQuery snd];
      try (split; [exact Hy | by exists st0]).
    + destruct (getRandomWalkablePosition_cases Math_sin r st)
        as [[_ ->] | (_ & c & -> & _)]; cbn [snd]; (split; [exact Hy | by exists st0]).
    + split; [reflexivity | by exists st0].
  - destruct IH as (Hy & st0 & IH). split; [reflexivity | by exists st0].
Qed.

Lemma served_facts (Math_sin : Z -> Q) (FIXED_SEED : Z) (st : State) :
  served Math_sin FIXED_SEED st ->
  wfGrid (grid st) /\ allVisited (grid st) /\
  entrance st = (MAZE_SIZE / 2, 0) /\ exit st = (MAZE_SIZE / 2, MAZE_SIZE - 1) /\
  vy (entranceWorldPosition st) = 1%Q.
Proof.
  intros Hs. destruct (served_shape _ _ _ Hs) as (Hy & st0 & Hb & -> & -> & ->).
  destruct (built_shape _ _ _ Hb) as (Hwf & Hall & He & Hx & _). done.
Qed.

(** C9 as stated fails: on every built maze [getRandomWalkablePosition]
    does not leave the state it was called on (it advances the seed
    counter), whatever the seed and the table of the generator. *)
Lemma query_purity_counterexample :
  ~ (forall (Math_sin : Z -> Q) (FIXED_SEED : Z) (st : State) (q : Query),
       built Math_sin FIXED_SEED st -> snd (runQuery Math_sin q st) = st).
Proof.
  intros H.
  destruct (built_exists sample_sin 12345) as [st Hst].
  specialize (H sample_sin 12345 st (QGetRandomWalkablePosition 3) Hst).
  destruct (built_shape _ _ _ Hst) as (_ & Hall & _).
  cbn [runQuery] in H.
  destruct (getRandomWalkablePosition_cases sample_sin 3 st)
    as [[Hnil _]|(_ & c & E & _)].
  - assert (Hin : In (0, 0) (getAllWalkableCells st)).
    { apply getAllWalkableCells_In. split; [reflexivity |]. by apply Hall. }
    rewrite Hnil in Hin. destruct Hin.
  - rewrite E in H. cbn [snd] in H.
    apply (f_equal currentSeed) in H. cbn [currentSeed set_seed] in H. lia.
Qed.

(** The first [getEntrance] on a built maze overwrites the cached entrance
    position [(0, 1, 0)]: its [x] becomes [102] and its [z] becomes [-5]. *)
Lemma getEntrance_overwrites (Math_sin : Z -> Q) (FIXED_SEED : Z) (st : State) :
  built Math_sin FIXED_SEED st ->
  entranceWorldPosition st = mkVec3 0 1 0 /\
  (vx (entranceWorldPosition (snd (getEntrance st))) == 102)%Q /\
  (vz (entranceWorldPosition (snd (getEntrance st))) == -5)%Q.
Proof.
  intros Hst. destruct (built_shape _ _ _ Hst) as (_ & _ & He & _ & Hw).
  split; [done |].
  cbn [getEntrance snd entranceWorldPosition set_entranceWorldPosition vx vz].
  rewrite He. done.
Qed.

(** * Connectivity repair *)

(** ** The scan for the nearest visited cell *)

Lemma validCellAt_visited (g : Grid) (x y : Z) :
  (exists c, validCellAt g x y = Some c /\ visited c = true) <-> visitedCell g (x, y).
Proof.
  unfold validCellAt, visitedCell. cbn [fst snd]. rewrite visitedAt_Some.
  destruct (isValidCell x y); split.
  - intros (c & H1 & H2). eauto.
  - intros [_ H]. exact H.
  - intros (c & H1 & _). done.
  - intros [H _]. done.
Qed.

Lemma closestStep_scanInv (g : Grid) (ex ey : Z) (l : list (Z * Z))
    (acc : option (Z * Z * Z)) (p : Z * Z) :
  scanInv g (ex, ey) l acc ->
  scanInv g (ex, ey) (l ++ [p]) (closestStep g ex ey acc p).
Proof.
  intros Hinv. destruct p as [x y]. unfold closestStep.
  assert (Hskip : ~ visitedCell g (x, y) -> scanInv g (ex, ey) (l ++ [(x, y)]) acc).
  { intros Hn. destruct acc as [[[x0 y0] d0]|]; simpl in *.
    - destruct Hinv as (Hd & Hv & la & lb & -> & Ha & Hb).
      split; [done |]. split; [done |]. exists la, (lb ++ [(x, y)]).
      split; [by rewrite <- app_assoc |]. split; [done |].
      intros q Hq Hvq. apply in_app_or in Hq as [Hq|[<-|[]]]; [by apply Hb | done].
    - intros q Hq. apply in_app_or in Hq as [Hq|[<-|[]]]; [by apply Hinv | done]. }
  destruct (validCellAt g x y) as [c|] eqn:Ec.
  - destruct (visited c) eqn:Evc.
    + assert (Hp : visitedCell g (x, y)) by (apply validCellAt_visited; eauto).
      destruct acc as [[[x0 y0] d0]|]; simpl in Hinv |- *.
      * destruct Hinv as (Hd & Hv & la & lb & -> & Ha & Hb).
        unfold manhattan in *. cbn [fst snd] in *.
        destruct (Z.ltb_spec (Z.abs (x - ex) + Z.abs (y - ey)) d0) as [Hlt|Hge]; simpl.
        -- split; [done |]. split; [done |].
           exists (la ++ (x0, y0) :: lb), []. split; [done |]. split; [| intros ? []].
           intros q Hq Hvq. apply in_app_or in Hq as [Hq|[<-|Hq]].
           ++ specialize (Ha q Hq Hvq). unfold manhattan. cbn [fst snd]. lia.
           ++ unfold manhattan. cbn [fst snd]. lia.
           ++ specialize (Hb q Hq Hvq). unfold manhattan. cbn [fst snd]. lia.
        -- split; [done |]. split; [done |].
           exists la, (lb ++ [(x, y)]). split; [by rewrite <- app_assoc |].
           split; [done |]. intros q Hq Hvq.
           apply in_app_or in Hq as [Hq|[<-|[]]];
             [by apply Hb | unfold manhattan; cbn [fst snd]; lia].
      * split; [done |]. split; [done |]. exists l, []. split; [done |].
        split; [| intros ? []]. intros q Hq Hvq. by destruct (Hinv q Hq).
    + apply Hskip. intros Hv. apply validCellAt_visited in Hv as (c' & E & Hv').
      congruence.
  - apply Hskip. intros Hv. apply validCellAt_visited in Hv as (c' & E & _). congruence.
Qed.

Lemma fold_closestStep_scanInv (g : Grid) (ex ey : Z) (l2 : list (Z * Z)) :
  forall l1 acc,
    scanInv g (ex, ey) l1 acc ->
    scanInv g (ex, ey) (l1 ++ l2) (fold_left (closestStep g ex ey) l2 acc).
Proof.
  induction l2 as [|p l2 IH]; intros l1 acc Hinv; simpl.
  - by rewrite app_nil_r.
  - replace (l1 ++ p :: l2) with ((l1 ++ [p]) ++ l2) by (by rewrite <- app_assoc).
    apply IH. by apply closestStep_scanInv.
Qed.

Lemma range_sorted (n : Z) : StronglySorted Z.lt (range n).
Proof.
  unfold range. generalize 0%nat as a. induction (Z.to_nat n) as [|k IH]; intros a; simpl.
  - constructor.
  - constructor; [apply IH |]. apply Forall_forall. intros z Hz.
    apply list_elem_of_In, in_map_iff in Hz as (j & <- & Hj). apply in_seq in Hj. lia.
Qed.

Lemma flat_map_sorted (xs ys : list Z) :
  StronglySorted Z.lt xs -> StronglySorted Z.lt ys ->
  StronglySorted rowMajorLt (flat_map (fun y => map (fun x => (x, y)) xs) ys).
Proof.
  intros Hx Hy. induction Hy as [|y ys Hys IH Hall]; cbn [flat_map]; [constructor |].
  apply StronglySorted_app_2; [| | exact IH].
  - intros p q Hp Hq. apply list_elem_of_In in Hp, Hq.
    apply in_map_iff in Hp as (x & <- & _).
    apply in_flat_map in Hq as (y' & Hy' & Hq). apply in_map_iff in Hq as (x' & <- & _).
    left. simpl. rewrite Forall_forall in Hall. apply Hall. by apply list_elem_of_In.
  - clear IH Hall Hys. induction Hx as [|x xs Hxs IHx Hallx]; cbn [map]; constructor; [done |].
    apply Forall_forall. intros q Hq. apply list_elem_of_In, in_map_iff in Hq as (x' & <- & Hx').
    right. simpl. split; [done |]. rewrite Forall_forall in Hallx. apply Hallx.
    by apply list_elem_of_In.
Qed.

Lemma rowMajor_sorted : StronglySorted rowMajorLt rowMajor.
Proof. apply flat_map_sorted; apply range_sorted. Qed.

Lemma findClosest_spec (g : Grid) (ex ey : Z) :
  match findClosest g ex ey with
  | None => forall p, ~ visitedCell g p
  | Some (x, y, _) => nearestVisited g (ex, ey) (x, y)
  end.
Proof.
  unfold findClosest.
  pose proof (fold_closestStep_scanInv g ex ey rowMajor [] None
                (fun p Hp => match Hp with end)) as H.
  change ([] ++ rowMajor) with rowMajor in H.
  destruct (fold_left _ rowMajor None) as [[[x y] d]|]; unfold scanInv in H.
  - destruct H as (_ & Hv & la & lb & E & Ha & Hb). split; [done |].
    intros q Hq. assert (Hin : In q rowMajor).
    { destruct q as [a b]. apply rowMajor_In. apply Hq. }
    pose proof rowMajor_sorted as Hs. rewrite E in Hin, Hs.
    apply in_app_or in Hin as [Hin|[<-|Hin]].
    + left. by apply Ha.
    + right. split; [done | by left].
    + specialize (Hb q Hin Hq).
      apply StronglySorted_app_1_r, StronglySorted_cons in Hs as [Hs _].
      rewrite Forall_forall in Hs. specialize (Hs q (proj2 (list_elem_of_In _ _) Hin)).
      destruct (decide (manhattan (x, y) (ex, ey) = manhattan q (ex, ey))); [| left; lia].
      right. split; [done | by right].
  - intros [a b] Hp. apply (H (a, b)); [| done]. apply rowMajor_In. apply Hp.
Qed.

(** ** The corridor *)

Lemma wallAt_markVisited (g : Grid) (x y a b : Z) (d : WallDirection) :
  0 <= x -> 0 <= y -> wallAt (updCell g x y markVisited) a b d = wallAt g a b d.
Proof.
  intros Hx Hy. unfold wallAt. destruct (decide ((a, b) = (x, y))) as [E|E].
  - inversion E; subst. rewrite cellAt_updCell_eq by done. by destruct (cellAt g x y).
  - by rewrite cellAt_updCell_ne.
Qed.

Lemma wallAbsent_wallAt (g : Grid) (x y : Z) (d : WallDirection) :
  wallAbsent g x y d <-> wallAt g x y d = Some false.
Proof.
  unfold wallAbsent, wallAt. destruct (cellAt g x y) as [c|]; simpl; split.
  - intros (c' & E & H). inversion E; subst. by rewrite H.
  - intros H. inversion H. eauto.
  - intros (c' & E & _). done.
  - done.
Qed.

Lemma carved_wallAt (g g' : Grid) (x y : Z) (d : WallDirection) :
  carved g g' -> wallAt g x y d = Some false -> wallAt g' x y d = Some false.
Proof. rewrite <- !wallAbsent_wallAt. apply carved_wallAbsent. Qed.

Lemma carved_passage (g g' : Grid) (p q : Z * Z) :
  carved g g' -> passage g p q -> passage g' p q.
Proof.
  intros Hc (dir & Hin & Hq & H1 & H2). exists dir. eauto 6 using carved_wallAt.
Qed.

Lemma carved_connected (g g' : Grid) (s p : Z * Z) :
  carved g g' -> connected g s p -> connected g' s p.
Proof.
  intros Hc. induction 1; [constructor |].
  eapply connected_step; eauto using carved_passage.
Qed.

Lemma carved_carveCorridor (n : nat) :
  forall g e p,
    isValidCell (fst e) (snd e) = true -> isValidCell (fst p) (snd p) = true ->
    manhattan p e = Z.of_nat n ->
    carved g (carveCorridor n g e p).
Proof.
  induction n as [|n IH]; intros g [ex ey] [x y] He Hp Hd; cbn [carveCorridor];
    [constructor |].
  apply isValidCell_true in He, Hp. unfold manhattan in Hd. cbn [fst snd] in *.
  unfold corridorStep.
  destruct (Z.ltb_spec y ey); [| destruct (Z.ltb_spec ey y); [| destruct (Z.ltb_spec x ex)]];
    cbn [fst snd];
    (eapply carved_trans; [| apply IH; cbn [fst snd];
       [apply isValidCell_true; lia | apply isValidCell_true; lia
       | unfold manhattan; cbn [fst snd]; lia]]);
    apply carved_upd; auto with maze; try lia;
    apply carved_upd; auto with maze; try lia;
    apply carved_step; auto with maze; lia.
Qed.

(** With fuel for its at most [manhattan] iterations, the loop of
    [createPathToExit] carves exactly the specified corridor. *)
Lemma createPathLoop_spec (n : nat) :
  forall fuel g ex ey x y,
    wfGrid g -> isValidCell ex ey = true -> isValidCell x y = true ->
    manhattan (x, y) (ex, ey) = Z.of_nat n -> (n <= fuel)%nat ->
    createPathLoop fuel g ex ey x y = Some (carveCorridor n g (ex, ey) (x, y)).
Proof.
  induction n as [|n IH]; intros fuel g ex ey x y Hwf He Hp Hd Hfuel;
    unfold manhattan in Hd; cbn [fst snd] in Hd.
  - assert (x = ex /\ y = ey) as [-> ->] by lia.
    destruct fuel; cbn [createPathLoop carveCorridor]; by rewrite !Z.eqb_refl.
  - destruct fuel as [|fuel]; [lia |]. cbn [createPathLoop carveCorridor].
    assert (Hc : negb (x =? ex) || negb (y =? ey) = true).
    { destruct (Z.eqb_spec x ex), (Z.eqb_spec y ey); try done. lia. }
    rewrite Hc. destruct (validCellAt_wf g x y Hwf Hp) as [c ->].
    pose proof (proj1 (isValidCell_true _ _) He) as He'.
    pose proof (proj1 (isValidCell_true _ _) Hp) as Hp'.
    assert (Hwf1 : wfGrid (updCell g x y markVisited)) by by apply wfGrid_updCell.
    unfold corridorStep. cbn [fst snd].
    destruct (Z.ltb_spec y ey) as [Hy|Hy].
    { assert (Hv : isValidCell x (y + 1) = true) by (apply isValidCell_true; lia).
      destruct (Z.ltb_spec 0 (Z.abs (ey - y))); [| lia].
      destruct (Z.ltb_spec 0 (ey - y)); [| lia].
      destruct (validCellAt_wf _ x (y + 1) Hwf1 Hv) as [c' ->].
      apply IH; try done; [| unfold manhattan; cbn [fst snd]; lia | lia].
      unfold removeWallPair. by do 2 apply wfGrid_updCell. }
    destruct (Z.ltb_spec ey y) as [Hy'|Hy'].
    { assert (Hv : isValidCell x (y - 1) = true) by (apply isValidCell_true; lia).
      destruct (Z.ltb_spec 0 (Z.abs (ey - y))); [| lia].
      destruct (Z.ltb_spec 0 (ey - y)); [lia |].
      destruct (validCellAt_wf _ x (y - 1) Hwf1 Hv) as [c' ->].
      apply IH; try done; [| unfold manhattan; cbn [fst snd]; lia | lia].
      unfold removeWallPair. by do 2 apply wfGrid_updCell. }
    destruct (Z.ltb_spec 0 (Z.abs (ey - y))); [lia |].
    destruct (Z.ltb_spec 0 (Z.abs (ex - x))); [| lia].
    destruct (Z.ltb_spec x ex) as [Hx|Hx].
    { assert (Hv : isValidCell (x + 1) y = true) by (apply isValidCell_true; lia).
      destruct (Z.ltb_spec 0 (ex - x)); [| lia].
      destruct (validCellAt_wf _ (x + 1) y Hwf1 Hv) as [c' ->].
      apply IH; try done; [| unfold manhattan; cbn [fst snd]; lia | lia].
      unfold removeWallPair. by do 2 apply wfGrid_updCell. }
    assert (Hv : isValidCell (x - 1) y = true) by (apply isValidCell_true; lia).
    destruct (Z.ltb_spec 0 (ex - x)); [lia |].
    destruct (validCellAt_wf _ (x - 1) y Hwf1 Hv) as [c' ->].
    apply IH; try done; [| unfold manhattan; cbn [fst snd]; lia | lia].
    unfold removeWallPair. by do 2 apply wfGrid_updCell.
Qed.

(** The cells the specified repair marks: those of the corridor. *)
Lemma repairSpec_visited (n : nat) :
  forall g e p c,
    wfGrid g ->
    isValidCell (fst e) (snd e) = true -> isValidCell (fst p) (snd p) = true ->
    manhattan p e = Z.of_nat n ->
    (visitedAt (updCell (carveCorridor n g e p) (fst e) (snd e) markVisited) (fst c) (snd c) = true
     <-> visitedAt g (fst c) (snd c) = true \/ onCorridor e p c).
Proof.
  induction n as [|n IH]; intros g [ex ey] [x y] [a b] Hwf He Hp Hd;
    pose proof (proj1 (isValidCell_true _ _) He) as He';
    pose proof (proj1 (isValidCell_true _ _) Hp) as Hp';
    unfold manhattan in Hd; unfold onCorridor; cbn [fst snd carveCorridor] in *.
  - assert (x = ex /\ y = ey) as [-> ->] by lia.
    destruct (decide ((a, b) = (ex, ey))) as [E|E].
    + inversion E; subst.
      rewrite (visitedAt_markVisited_eq g ex ey (proj1 (proj1 He')) (proj1 (proj2 He'))
                 (wfGrid_cellAt _ _ _ Hwf He)).
      split; [| done]. intros _. right. lia.
    + rewrite visitedAt_markVisited_ne by (try lia; done).
      split; [by left |]. intros [H|H]; [done |]. exfalso. apply E. f_equal; lia.
  - assert (Hmark : forall g0 x0 y0, wfGrid g0 -> isValidCell x0 y0 = true ->
              (visitedAt (updCell g0 x0 y0 markVisited) a b = true
               <-> visitedAt g0 a b = true \/ (a = x0 /\ b = y0))).
    { intros g0 x0 y0 Hwf0 Hv0. pose proof (proj1 (isValidCell_true _ _) Hv0).
      destruct (decide ((a, b) = (x0, y0))) as [E|E].
      - inversion E; subst.
        rewrite (visitedAt_markVisited_eq g0 x0 y0 (proj1 (proj1 H)) (proj1 (proj2 H))
                   (wfGrid_cellAt _ _ _ Hwf0 Hv0)).
        tauto.
      - rewrite visitedAt_markVisited_ne by (try lia; done).
        split; [tauto |]. intros [H'|[-> ->]]; done. }
    unfold corridorStep.
    destruct (Z.ltb_spec y ey); [| destruct (Z.ltb_spec ey y); [| destruct (Z.ltb_spec x ex)]];
      cbn [fst snd];
      (rewrite (IH _ (ex, ey) (_, _) (a, b));
       [ unfold onCorridor; cbn [fst snd];
         rewrite visitedAt_removeWallPair by lia;
         rewrite (Hmark g x y Hwf Hp);
         match goal with
         | |- (?V \/ ?A) \/ ?B <-> ?V \/ ?C =>
           assert (Har : A \/ B <-> C) by lia; tauto
         end
       | unfold removeWallPair; by do 3 apply wfGrid_updCell
       | done
       | cbn [fst snd]; apply isValidCell_true; lia
       | unfold manhattan; cbn [fst snd]; lia ]).
Qed.

(** ** The walls of the corridor *)

Lemma connected_trans (g : Grid) (s p q : Z * Z) :
  connected g s p -> connected g p q -> connected g s q.
Proof. intros Hsp. induction 1; [done |]. eapply connected_step; eauto. Qed.

(** What a step of the corridor is: a move to the neighbour in one of the
    four directions, one step nearer to [e]. *)
Lemma corridorStep_facts (e p : Z * Z) :
  isValidCell (fst e) (snd e) = true -> isValidCell (fst p) (snd p) = true -> p <> e ->
  exists dir, In dir DIRECTIONS /\
    corridorStep e p = ((fst p + dir_x dir, snd p + dir_y dir), wall dir, opposite dir) /\
    isValidCell (fst p + dir_x dir) (snd p + dir_y dir) = true /\
    manhattan (fst p + dir_x dir, snd p + dir_y dir) e = manhattan p e - 1.
Proof.
  destruct e as [ex ey], p as [x y]. cbn [fst snd]. intros He Hp Hne.
  apply isValidCell_true in He, Hp. unfold corridorStep, manhattan. cbn [fst snd].
  assert (Hxy : x <> ex \/ y <> ey).
  { destruct (decide (x = ex)), (decide (y = ey)); subst; tauto. }
  destruct (Z.ltb_spec y ey); [| destruct (Z.ltb_spec ey y); [| destruct (Z.ltb_spec x ex)]].
  - exists (mkDirection 0 1 bottom top). cbn [dir_x dir_y wall opposite].
    split; [cbn; tauto |]. rewrite Z.add_0_r.
    split; [reflexivity |]. split; [apply isValidCell_true |]; lia.
  - exists (mkDirection 0 (-1) top bottom). cbn [dir_x dir_y wall opposite].
    split; [cbn; tauto |]. rewrite Z.add_0_r.
    split; [reflexivity |]. split; [apply isValidCell_true |]; lia.
  - exists (mkDirection 1 0 right left). cbn [dir_x dir_y wall opposite].
    split; [cbn; tauto |]. rewrite Z.add_0_r.
    split; [reflexivity |]. split; [apply isValidCell_true |]; lia.
  - exists (mkDirection (-1) 0 left right). cbn [dir_x dir_y wall opposite].
    split; [cbn; tauto |]. rewrite Z.add_0_r.
    split; [reflexivity |]. split; [apply isValidCell_true |]; lia.
Qed.

Lemma corridorWall_nil (e c : Z * Z) (d : WallDirection) : ~ corridorWall e e c d.
Proof.
  intros (a & Hon & Hne & _). apply Hne. destruct a, e. unfold onCorridor in Hon.
  cbn [fst snd] in *. f_equal; lia.
Qed.

(** The cells of the corridor from [p] are [p] and the cells of the corridor
    from the next cell. *)
Lemma onCorridor_step (e p a : Z * Z) :
  p <> e ->
  (onCorridor e p a <-> a = p \/ onCorridor e (fst (fst (corridorStep e p))) a).
Proof.
  destruct e as [ex ey], p as [x y], a as [ax ay]. intros Hne.
  assert (Hxy : x <> ex \/ y <> ey).
  { destruct (decide (x = ex)), (decide (y = ey)); subst; tauto. }
  assert (Ha : (ax, ay) = (x, y) <-> ax = x /\ ay = y).
  { split; [intros E; inversion E; done | intros [-> ->]; done]. }
  rewrite Ha. unfold corridorStep, onCorridor.
  destruct (Z.ltb_spec y ey); [| destruct (Z.ltb_spec ey y); [| destruct (Z.ltb_spec x ex)]];
    cbn [fst snd]; lia.
Qed.

Lemma corridorWall_step (e p c : Z * Z) (d : WallDirection) :
  p <> e ->
  (corridorWall e p c d <->
   (c = p /\ d = snd (fst (corridorStep e p))) \/
   (c = fst (fst (corridorStep e p)) /\ d = snd (corridorStep e p)) \/
   corridorWall e (fst (fst (corridorStep e p))) c d).
Proof.
  intros Hne. unfold corridorWall. split.
  - intros (a & Hon & Hae & H). apply (onCorridor_step e p a Hne) in Hon as [-> | Hon].
    + tauto.
    + right; right. exists a. done.
  - intros [H | [H | (a & Hon & Hae & H)]].
    + exists p. split; [apply onCorridor_step; auto |]. tauto.
    + exists p. split; [apply onCorridor_step; auto |]. tauto.
    + exists a. split; [apply onCorridor_step; auto |]. done.
Qed.

(** The wall flags after the corridor: those it goes through are cleared,
    every other flag is as before. *)
Lemma carveCorridor_wallAt (n : nat) :
  forall g e p,
    wfGrid g ->
    isValidCell (fst e) (snd e) = true -> isValidCell (fst p) (snd p) = true ->
    manhattan p e = Z.of_nat n ->
    forall c d,
      (corridorWall e p c d ->
       wallAt (carveCorridor n g e p) (fst c) (snd c) d = Some false) /\
      (~ corridorWall e p c d ->
       wallAt (carveCorridor n g e p) (fst c) (snd c) d = wallAt g (fst c) (snd c) d).
Proof.
  induction n as [|n IH]; intros g e p Hwf He Hp Hd c d.
  - assert (p = e) as ->.
    { destruct p, e. unfold manhattan in Hd. cbn [fst snd] in Hd. f_equal; lia. }
    cbn [carveCorridor]. split; [| done]. intros H. by destruct (corridorWall_nil _ _ _ H).
  - assert (Hne : p <> e).
    { intros ->. unfold manhattan in Hd. lia. }
    destruct (corridorStep_facts e p He Hp Hne) as (dir & Hin & Es & Hq & Hm).
    pose proof (corridorWall_step e p c d Hne) as Hstep.
    cbn [carveCorridor]. rewrite Es in Hstep |- *. cbn [fst snd] in Hstep |- *.
    set (qx := fst p + dir_x dir) in *. set (qy := snd p + dir_y dir) in *.
    set (g0 := updCell g (fst p) (snd p) markVisited).
    set (g1 := removeWallPair g0 (fst p) (snd p) (wall dir) qx qy (opposite dir)).
    pose proof (proj1 (isValidCell_true _ _) Hp) as Hp'.
    pose proof (proj1 (isValidCell_true _ _) Hq) as Hq'.
    assert (Hwf0 : wfGrid g0) by by apply wfGrid_updCell.
    assert (Hwf1 : wfGrid g1) by (unfold g1, removeWallPair; by do 2 apply wfGrid_updCell).
    assert (Hpq : (fst p, snd p) <> (qx, qy)).
    { intros E. inversion E as [[E1 E2]]. unfold manhattan in Hm. cbn [fst snd] in Hm.
      rewrite <- E1, <- E2 in Hm. lia. }
    destruct (removeWallPair_wallAt g0 (fst p) (snd p) qx qy (wall dir) (opposite dir))
      as (W1 & W2 & W3); try lia; try (by apply wfGrid_cellAt); [done |].
    fold g1 in W1, W2, W3.
    assert (Hn : manhattan (qx, qy) e = Z.of_nat n) by lia.
    pose proof (carved_carveCorridor n g1 e (qx, qy) He Hq Hn) as Hcarved.
    destruct (IH g1 e (qx, qy) Hwf1 He Hq Hn c d) as [IH1 IH2].
    split.
    + intros H. apply Hstep in H as [[-> ->] | [[-> ->] | H]].
      * by apply (carved_wallAt g1).
      * by apply (carved_wallAt g1).
      * by apply IH1.
    + intros H. rewrite IH2 by tauto.
      rewrite W3.
      * unfold g0. apply wallAt_markVisited; lia.
      * intros E. apply H, Hstep. left. inversion E. destruct c, p; cbn [fst snd] in *.
        by subst.
      * intros E. apply H, Hstep. right; left. inversion E. destruct c; cbn [fst snd] in *.
        by subst.
Qed.

(** The corridor is a chain of passages from [p] to [e]. *)
Lemma carveCorridor_connected (n : nat) :
  forall g e p,
    wfGrid g ->
    isValidCell (fst e) (snd e) = true -> isValidCell (fst p) (snd p) = true ->
    manhattan p e = Z.of_nat n ->
    connected (carveCorridor n g e p) p e.
Proof.
  induction n as [|n IH]; intros g e p Hwf He Hp Hd.
  - assert (p = e) as ->.
    { destruct p, e. unfold manhattan in Hd. cbn [fst snd] in Hd. f_equal; lia. }
    constructor.
  - assert (Hne : p <> e).
    { intros ->. unfold manhattan in Hd. lia. }
    destruct (corridorStep_facts e p He Hp Hne) as (dir & Hin & Es & Hq & Hm).
    cbn [carveCorridor]. rewrite Es. cbn [fst snd].
    set (qx := fst p + dir_x dir) in *. set (qy := snd p + dir_y dir) in *.
    set (g0 := updCell g (fst p) (snd p) markVisited).
    set (g1 := removeWallPair g0 (fst p) (snd p) (wall dir) qx qy (opposite dir)).
    pose proof (proj1 (isValidCell_true _ _) Hp) as Hp'.
    pose proof (proj1 (isValidCell_true _ _) Hq) as Hq'.
    assert (Hwf0 : wfGrid g0) by by apply wfGrid_updCell.
    assert (Hwf1 : wfGrid g1) by (unfold g1, removeWallPair; by do 2 apply wfGrid_updCell).
    assert (Hpq : (fst p, snd p) <> (qx, qy)).
    { intros E. inversion E as [[E1 E2]]. unfold manhattan in Hm. cbn [fst snd] in Hm.
      rewrite <- E1, <- E2 in Hm. lia. }
    destruct (removeWallPair_wallAt g0 (fst p) (snd p) qx qy (wall dir) (opposite dir))
      as (W1 & W2 & _); try lia; try (by apply wfGrid_cellAt); [done |].
    fold g1 in W1, W2.
    assert (Hn : manhattan (qx, qy) e = Z.of_nat n) by lia.
    pose proof (carved_carveCorridor n g1 e (qx, qy) He Hq Hn) as Hcarved.
    apply connected_trans with (qx, qy); [| by apply IH].
    eapply connected_step; [constructor |].
    apply (carved_passage g1); [done |]. exists dir. done.
Qed.

Lemma hasPathToExit_visitedAt (st : State) :
  exitValid st ->
  hasPathToExit st = visitedAt (grid st) (fst (exit st)) (snd (exit st)).
Proof.
  unfold exitValid, hasPathToExit, visitedAt. destruct (exit st) as [ex ey]. cbn [fst snd].
  by intros ->.
Qed.

(** C8. Connectivity repair. On a grid of the built shape with an in-bounds
    exit: the repair check does nothing while the stack is not empty, and
    nothing when the exit is already visited. When the exit is not visited
    and some cell is, the repair starts from the visited cell nearest to the
    exit in Manhattan distance (the first of the row-major scan among the
    nearest) and leaves the grid of the specified corridor: vertical steps
    while a row offset remains, then horizontal steps, each step removing
    the wall pair it crosses and marking the cell it leaves, and the exit
    marked at the end. The cells visited afterwards are the cells visited
    before and the cells of that corridor, exit included. The wall flags the
    corridor goes through, on both sides of every step, are cleared, every
    other wall flag of the grid is as it was, and the corridor is a chain of
    passages from the starting cell to the exit. *)
Theorem repairCheck_contract (fuel : nat) (st : State) :
  wfGrid (grid st) -> exitValid st ->
  (forall p stack, repairCheck fuel (p :: stack) st = Some st) /\
  (visitedAt (grid st) (fst (exit st)) (snd (exit st)) = true ->
   repairCheck fuel [] st = Some st) /\
  (visitedAt (grid st) (fst (exit st)) (snd (exit st)) = false ->
   (exists q, visitedCell (grid st) q) ->
   (2 * Z.to_nat MAZE_SIZE <= fuel)%nat ->
   exists p st',
     nearestVisited (grid st) (exit st) p /\
     repairCheck fuel [] st = Some st' /\
     st' = set_grid (repairSpec (grid st) (exit st) p) st /\
     (forall c, visitedAt (grid st') (fst c) (snd c) = true
                <-> visitedAt (grid st) (fst c) (snd c) = true \/ onCorridor (exit st) p c) /\
     visitedCell (grid st') (exit st) /\
     (forall c d, corridorWall (exit st) p c d ->
        wallAt (grid st') (fst c) (snd c) d = Some false) /\
     (forall c d, ~ corridorWall (exit st) p c d ->
        wallAt (grid st') (fst c) (snd c) d = wallAt (grid st) (fst c) (snd c) d) /\
     connected (grid st') p (exit st)).
Proof.
  intros Hwf Hex. rewrite <- (hasPathToExit_visitedAt st Hex). split; [done |]. split.
  { intros H. unfold repairCheck. by rewrite H. }
  intros Hno [q Hq] Hfuel. unfold repairCheck, connectToExit. rewrite Hno.
  unfold exitValid in Hex. destruct (exit st) as [ex ey] eqn:Eexit. cbn [fst snd] in Hex.
  pose proof (findClosest_spec (grid st) ex ey) as Hclosest.
  destruct (findClosest (grid st) ex ey) as [[[x y] d]|]; [| by destruct (Hclosest q)].
  exists (x, y), (set_grid (repairSpec (grid st) (ex, ey) (x, y)) st).
  split; [done |].
  destruct Hclosest as [[Hv Hvis] _]. cbn [fst snd] in Hv.
  pose proof (proj1 (isValidCell_true _ _) Hex) as Hex'.
  pose proof (proj1 (isValidCell_true _ _) Hv) as Hv'.
  set (n := Z.to_nat (manhattan (x, y) (ex, ey))).
  assert (Hn : manhattan (x, y) (ex, ey) = Z.of_nat n).
  { unfold n, manhattan. cbn [fst snd]. lia. }
  assert (Hle : (n <= fuel)%nat).
  { unfold n, manhattan. cbn [fst snd]. lia. }
  pose proof (carved_carveCorridor n (grid st) (ex, ey) (x, y) Hex Hv Hn) as Hcarved.
  pose proof (carved_wfGrid _ _ Hcarved Hwf) as Hwf'.
  pose proof (repairSpec_visited n (grid st) (ex, ey) (x, y)) as Hspec.
  pose proof (carveCorridor_wallAt n (grid st) (ex, ey) (x, y) Hwf Hex Hv Hn) as Hwalls.
  pose proof (carveCorridor_connected n (grid st) (ex, ey) (x, y) Hwf Hex Hv Hn) as Hconn.
  assert (Hmark : carved (carveCorridor n (grid st) (ex, ey) (x, y))
                    (updCell (carveCorridor n (grid st) (ex, ey) (x, y)) ex ey markVisited)).
  { apply carved_upd; auto with maze; lia. }
  split; [| split; [done |]]; cbn [grid set_grid]; unfold repairSpec; fold n; cbn [fst snd].
  - unfold createPathToExit. rewrite Eexit.
    rewrite (createPathLoop_spec n fuel (grid st) ex ey x y Hwf Hex Hv Hn Hle).
    destruct (validCellAt_wf _ ex ey Hwf' Hex) as [c ->]. done.
  - split; [| split; [| split; [| split]]].
    + intros c. by apply Hspec.
    + split; [done |]. apply (Hspec (ex, ey)); try done.
      right. unfold onCorridor. cbn [fst snd]. lia.
    + intros c d0 Hc. rewrite wallAt_markVisited by lia. by apply Hwalls.
    + intros c d0 Hc. rewrite wallAt_markVisited by lia. by apply Hwalls.
    + by apply (carved_connected _ _ _ _ Hmark).
Qed.

Lemma repairCheck_contract_witness :
  let st := set_grid (updCell freshGrid 3 4 markVisited) (set_exit (25, 49) (constructor 12345)) in
  exists st',
    nearestVisited (grid st) (25, 49) (3, 4) /\
    repairCheck 100 [] st = Some st' /\
    wallAt (grid st) 3 4 bottom = Some true /\ wallAt (grid st') 3 4 bottom = Some false /\
    wallAt (grid st) 3 5 top = Some true /\ wallAt (grid st') 3 5 top = Some false /\
    wallAt (grid st') 3 4 top = Some true /\
    connected (grid st') (3, 4) (25, 49).
Proof.
  intros st.
  assert (Hwf : wfGrid (grid st)) by (apply wfGrid_updCell, wfGrid_freshGrid).
  assert (Hex : exitValid st) by reflexivity.
  destruct (repairCheck_contract 100 st Hwf Hex) as (_ & _ & H).
  destruct H as (p & st' & H1 & H2 & _ & _ & _ & H3 & H4 & H5).
  - vm_compute. reflexivity.
  - exists (3, 4). split; vm_compute; reflexivity.
  - vm_compute. lia.
  - assert (Ep : p = (3, 4)).
    { destruct H1 as [[Hv Hvis] _]. destruct p as [px py]. cbn [fst snd] in Hv, Hvis.
      destruct (decide ((px, py) = (3, 4))) as [E | E]; [exact E |]. exfalso.
      unfold st in Hvis. cbn [grid set_grid] in Hvis.
      apply isValidCell_true in Hv.
      rewrite visitedAt_markVisited_ne in Hvis; [| lia | lia | exact E].
      rewrite visitedAt_freshGrid in Hvis. discriminate Hvis. }
    subst p. exists st'.
    pose proof (H3 (3, 4) bottom) as Ha. pose proof (H3 (3, 5) top) as Hb.
    pose proof (H4 (3, 4) top) as Hc. cbn [fst snd] in Ha, Hb, Hc.
    split; [exact H1 |]. split; [exact H2 |].
    split; [vm_compute; reflexivity |].
    split; [apply Ha; exists (3, 4); vm_compute; intuition congruence |].
    split; [vm_compute; reflexivity |].
    split; [apply Hb; exists (3, 4); vm_compute; intuition congruence |].
    split; [| exact H5].
    rewrite Hc; [vm_compute; reflexivity |].
    intros (a & Hon & Hne & Hw). destruct a as [ax ay].
    change (exit st) with (25, 49) in Hon, Hw.
    unfold onCorridor, corridorStep in Hon, Hw. cbn [fst snd] in Hon, Hw.
    destruct (Z.ltb_spec ay 49); [| destruct (Z.ltb_spec 49 ay); [| destruct (Z.ltb_spec ax 25)]];
      cbn [fst snd] in Hw; destruct Hw as [[E1 E2] | [E1 E2]];
      try discriminate E2; inversion E1; lia.
Defined.

(** * Mutual wall consistency and [addRandomPaths] *)

Lemma wallAt_freshGrid (x y : Z) (d : WallDirection) :
  isValidCell x y = true -> wallAt freshGrid x y d = Some true.
Proof.
  intros Hv. unfold wallAt. rewrite cellAt_freshGrid, Hv. by destruct d.
Qed.

Lemma wallsConsistent_freshGrid : wallsConsistent freshGrid.
Proof.
  intros x y dir _ Hv Hv'. rewrite !wallAt_freshGrid by done. split; discriminate.
Qed.

(** C3 fails on the code. On a new generator, one iteration of
    [addRandomPaths] that picks the cell of row 0 and column 1 and its left
    wall clears the left flag of that cell and then the LEFT flag of the cell
    to its left, [(0, 0)], instead of the right flag: afterwards cell
    [(1, 0)] has no wall facing [(0, 0)] while [(0, 0)] still has its wall
    facing [(1, 0)]. The grid was consistent before and is not after. *)
Theorem addRandomPaths_breaks_wall_consistency :
  let st := constructor 12345 in
  let st' := addRandomPaths leftWallDraws 1 st in
  wallsConsistent (grid st) /\
  wallAt (grid st') 1 0 left = Some false /\
  wallAt (grid st') 0 0 right = Some true /\
  wallAt (grid st') 0 0 left = Some false /\
  ~ wallsConsistent (grid st').
Proof.
  intros st st'.
  assert (H1 : wallAt (grid st') 1 0 left = Some false) by (vm_compute; reflexivity).
  assert (H2 : wallAt (grid st') 0 0 right = Some true) by (vm_compute; reflexivity).
  assert (H3 : wallAt (grid st') 0 0 left = Some false) by (vm_compute; reflexivity).
  split; [apply wallsConsistent_freshGrid |]. repeat split; try assumption.
  intros Hc.
  specialize (Hc 1 0 (mkDirection (-1) 0 left right)).
  cbn [dir_x dir_y wall opposite] in Hc. change (1 + -1) with 0 in Hc. change (0 + 0) with 0 in Hc.
  assert (Hin : In (mkDirection (-1) 0 left right) DIRECTIONS) by (simpl; tauto).
  destruct (Hc Hin eq_refl eq_refl) as [Hc' _].
  specialize (Hc' H1). rewrite H2 in Hc'. discriminate.
Qed.

(** ** The build keeps the walls mutually consistent *)

Lemma DIRECTIONS_dirOf (dir : Direction) : In dir DIRECTIONS <-> dir = dirOf (wall dir).
Proof.
  split.
  - intros [<-|[<-|[<-|[<-|[]]]]]; reflexivity.
  - intros ->. destruct (wall dir); simpl; tauto.
Qed.

Lemma facing_facing (f : Z * Z * WallDirection) : facing (facing f) = f.
Proof. destruct f as [[x y] []]; simpl; repeat f_equal; lia. Qed.

Lemma facing_moves (x y : Z) (d : WallDirection) :
  (x, y) <> (x + dir_x (dirOf d), y + dir_y (dirOf d)).
Proof. destruct d; simpl; intros E; inversion E; lia. Qed.

Lemma wallsConsistent_facing (g : Grid) :
  wallsConsistent g <->
  forall x y d, isValidCell x y = true ->
    isValidCell (x + dir_x (dirOf d)) (y + dir_y (dirOf d)) = true ->
    (wallAt g x y d = Some false
     <-> wallAt g (x + dir_x (dirOf d)) (y + dir_y (dirOf d)) (opposite (dirOf d)) = Some false).
Proof.
  split.
  - intros H x y d Hv Hv'. specialize (H x y (dirOf d)).
    assert (Hin : In (dirOf d) DIRECTIONS) by (destruct d; simpl; tauto).
    replace (wall (dirOf d)) with d in H by (by destruct d). by apply H.
  - intros H x y dir Hin Hv Hv'. apply DIRECTIONS_dirOf in Hin. rewrite Hin in *.
    replace (wall (dirOf (wall dir))) with (wall dir) by (by destruct (wall dir)).
    by apply H.
Qed.

Lemma wallAt_facing_pair (g : Grid) (x y nx ny a b : Z) (d o d' : WallDirection) :
  is_Some (cellAt g x y) -> is_Some (cellAt g nx ny) -> (nx, ny, o) = facing (x, y, d) ->
  wallAt (removeWallPair g x y d nx ny o) a b d'
  = if decide ((a, b, d') = (x, y, d) \/ (a, b, d') = facing (x, y, d))
    then Some false else wallAt g a b d'.
Proof.
  intros Hc Hn Hf. rewrite <- Hf.
  pose proof Hc as [c Hc']. pose proof Hn as [c' Hn'].
  apply cellAt_nonneg in Hc' as [Hx Hy]. apply cellAt_nonneg in Hn' as [Hnx Hny].
  assert (Hne : (x, y) <> (nx, ny)).
  { cbn [facing] in Hf. inversion Hf; subst. apply facing_moves. }
  destruct (removeWallPair_wallAt g x y nx ny d o Hx Hy Hnx Hny Hc Hn Hne) as (H1 & H2 & H3).
  case_decide as E.
  - destruct E as [E|E]; inversion E; subst; assumption.
  - apply H3; intros E'; apply E; [by left | by right].
Qed.

Lemma wfGrid_cellAt_valid (g : Grid) (x y : Z) :
  wfGrid g -> is_Some (cellAt g x y) <-> isValidCell x y = true.
Proof.
  intros Hwf. split; [| by apply wfGrid_cellAt].
  intros [c Hc]. destruct Hwf as [Hl Hr]. unfold cellAt in Hc.
  destruct (arr_get g y) as [row|] eqn:Erow; [| done].
  apply arr_get_Some in Erow as [Hy Hrow]. apply arr_get_Some in Hc as [Hx Hc].
  rewrite Forall_lookup in Hr. specialize (Hr _ _ Hrow).
  apply lookup_lt_Some in Hrow, Hc. apply isValidCell_true. lia.
Qed.

Lemma pairCarved_carved (g g' : Grid) : pairCarved g g' -> carved g g'.
Proof.
  induction 1 as [|g g' x y H IH Hx Hy|g g' x y d nx ny o H IH Hc Hn Hf|g g' x y d H IH Hc Hn].
  - constructor.
  - apply carved_upd; auto with maze.
  - destruct Hc as [c Hc], Hn as [c' Hn].
    apply cellAt_nonneg in Hc, Hn.
    eapply carved_trans; [exact IH |]. apply carved_removeWallPair; lia.
  - destruct Hc as [c Hc]. apply cellAt_nonneg in Hc.
    apply carved_upd; auto with maze; lia.
Qed.

Lemma pairCarved_trans (g1 g2 g3 : Grid) :
  pairCarved g1 g2 -> pairCarved g2 g3 -> pairCarved g1 g3.
Proof.
  intros H12 H23. induction H23; eauto using pc_visit, pc_pair, pc_outer.
Qed.

Lemma pairCarved_wallsConsistent (g g' : Grid) :
  pairCarved g g' -> wfGrid g -> wallsConsistent g -> wallsConsistent g'.
Proof.
  induction 1 as [|g g' x y H IH Hx Hy|g g' x y d nx ny o H IH Hc Hn Hf|g g' x y d H IH Hc Hn];
    intros Hwf Hcons; [done | | |];
    specialize (IH Hwf Hcons);
    pose proof (carved_wfGrid _ _ (pairCarved_carved _ _ H) Hwf) as Hwf';
    apply wallsConsistent_facing; intros a b d' Hv Hv';
    rewrite wallsConsistent_facing in IH; specialize (IH a b d' Hv Hv').
  - by rewrite !wallAt_markVisited.
  - rewrite !(wallAt_facing_pair g' x y nx ny) by done.
    change (a + dir_x (dirOf d'), b + dir_y (dirOf d'), opposite (dirOf d'))
      with (facing (a, b, d')).
    assert (Hiff : (a, b, d') = (x, y, d) \/ (a, b, d') = facing (x, y, d)
                   <-> facing (a, b, d') = (x, y, d) \/ facing (a, b, d') = facing (x, y, d)).
    { split; intros [E|E].
      - right. by rewrite E.
      - left. by rewrite E, facing_facing.
      - right. by rewrite <- E, facing_facing.
      - left. by rewrite <- (facing_facing (a, b, d')), E, facing_facing. }
    repeat case_decide; try tauto.
  - destruct Hc as [c Hc]. pose proof (cellAt_nonneg _ _ _ _ Hc) as [Hx Hy].
    rewrite !wallAt_updCell_removeWall by done.
    assert (Hinv : isValidCell (x + dir_x (dirOf d)) (y + dir_y (dirOf d)) = false).
    { destruct (isValidCell (x + dir_x (dirOf d)) (y + dir_y (dirOf d))) eqn:E; [| done].
      apply (wfGrid_cellAt _ _ _ Hwf') in E as [? E]. congruence. }
    case_decide as E1.
    { destruct E1 as [E1 ->]. inversion E1; subst. congruence. }
    case_decide as E2; [| done].
    destruct E2 as [E2 E3]. inversion E2; subst.
    exfalso. revert Hinv Hv. clear. destruct d'; simpl; intros Hinv Hv;
      match type of Hinv with
      | isValidCell ?p ?q = false =>
        replace p with a in Hinv by lia; replace q with b in Hinv by lia; congruence
      end.
Qed.

Lemma facing_direction (dir : Direction) (x y : Z) :
  In dir DIRECTIONS ->
  (x + dir_x dir, y + dir_y dir, opposite dir) = facing (x, y, wall dir).
Proof. intros [<-|[<-|[<-|[<-|[]]]]]; reflexivity. Qed.

Lemma validCellAt_is_Some (g : Grid) (x y : Z) (c : Cell) :
  validCellAt g x y = Some c -> is_Some (cellAt g x y).
Proof. intros H. apply validCellAt_Some in H as (_ & _ & H). eauto. Qed.

Lemma createPathLoop_pairCarved (fuel : nat) :
  forall g ex ey x y g',
    createPathLoop fuel g ex ey x y = Some g' -> pairCarved g g'.
Proof.
  induction fuel as [|fuel IH]; intros g ex ey x y g' H; simpl in H.
  - destruct (negb (x =? ex) || negb (y =? ey)); [done |]. inversion H; constructor.
  - destruct (negb (x =? ex) || negb (y =? ey)); [| inversion H; constructor].
    destruct (validCellAt g x y) as [c|] eqn:Ec; [| inversion H; constructor].
    pose proof (validCellAt_is_Some _ _ _ _ Ec) as Hsome.
    apply validCellAt_Some in Ec as (Hx & Hy & _).
    assert (Hmark : pairCarved g (updCell g x y markVisited))
      by (apply pc_visit; [constructor | lia | lia]).
    assert (Hsome1 : is_Some (cellAt (updCell g x y markVisited) x y))
      by (apply cellAt_updCell_is_Some; [lia | lia | done]).
    repeat case_match; try (inversion H; subst; exact Hmark);
      match goal with
      | E : validCellAt _ _ _ = Some _ |- _ => apply validCellAt_is_Some in E
      end;
      apply IH in H; (eapply pairCarved_trans; [| exact H]);
      (eapply pc_pair; [exact Hmark | exact Hsome1 | eassumption |]);
      simpl; repeat f_equal; lia.
Qed.

Lemma repairCheck_pairCarved (fuel : nat) (stack : list (Z * Z)) (st st' : State) :
  repairCheck fuel stack st = Some st' -> pairCarved (grid st) (grid st').
Proof.
  unfold repairCheck, connectToExit, createPathToExit. destruct stack;
    [| intros H; inversion H; constructor].
  destruct (hasPathToExit st); [intros H; inversion H; constructor |].
  destruct (exit st) as [ex ey].
  destruct (findClosest (grid st) ex ey) as [[[x y] d]|];
    [| intros H; inversion H; constructor].
  destruct (createPathLoop fuel (grid st) ex ey x y) as [g|] eqn:E; [| done].
  apply createPathLoop_pairCarved in E.
  destruct (validCellAt g ex ey) as [c|] eqn:Ec; intros H; inversion H; subst;
    cbn [grid set_grid]; [| done].
  apply validCellAt_Some in Ec as (? & ? & _). apply pc_visit; [done | lia | lia].
Qed.

Section ConsistentBuild.

Variable Math_sin : Z -> Q.
Variable FIXED_SEED : Z.

Lemma dfsBody_pairCarved (fuel : nat) (st st' : State) (x y : Z) (rest stack' : list (Z * Z)) :
  dfsBody Math_sin fuel st x y rest = Some (st', stack') -> pairCarved (grid st) (grid st').
Proof.
  unfold dfsBody, seedRandom. cbn [grid set_seed].
  destruct (unvisitedNeighbors (grid st) x y) as [|n0 ns] eqn:En.
  - destruct (repairCheck fuel rest st) as [st2|] eqn:Er; [| done].
    intros H; inversion H; subst. by eapply repairCheck_pairCarved.
  - rewrite <- En.
    destruct (arr_get _ _) as [nb|] eqn:Eg; [| intros H; inversion H; subst; constructor].
    apply arr_get_In in Eg. apply unvisitedNeighbors_In in Eg
      as (dir & Hdir & Hnx & Hny & _). rewrite Hdir.
    assert (Hin : In dir DIRECTIONS).
    { apply list_elem_of_In. by eapply list_elem_of_lookup_2. }
    destruct (cellAt (grid st) x y) eqn:Ec; [| intros H; inversion H; subst; constructor].
    destruct (cellAt (grid st) (nb_x nb) (nb_y nb)) eqn:Ec';
      [| intros H; inversion H; subst; constructor].
    intros H; inversion H; subst. cbn [grid set_grid].
    pose proof (cellAt_nonneg _ _ _ _ Ec') as [? ?].
    apply pc_visit; [| lia | lia].
    eapply pc_pair; [constructor | eauto | eauto |].
    rewrite Hnx, Hny. by apply facing_direction.
Qed.

Lemma dfsLoop_pairCarved (fuel : nat) :
  forall st stack st',
    dfsLoop Math_sin fuel st stack = Some st' -> pairCarved (grid st) (grid st').
Proof.
  induction fuel as [|fuel IH]; intros st [|[x y] rest] st' H; simpl in H;
    try (inversion H; subst; constructor); try done.
  destruct (dfsBody Math_sin fuel st x y rest) as [[st1 stack1]|] eqn:E; [| done].
  apply dfsBody_pairCarved in E. apply IH in H. by eapply pairCarved_trans.
Qed.

Lemma extraConnection_pairCarved (st : State) :
  pairCarved (grid st) (grid (extraConnection Math_sin st)).
Proof.
  unfold extraConnection, seedRandom. cbn [grid currentSeed set_seed].
  destruct (negb (isValidCell _ _)); [constructor |].
  destruct (arr_get DIRECTIONS _) as [dir|] eqn:Ed; [| constructor].
  apply arr_get_In in Ed.
  destruct (isValidCell _ _); [| constructor].
  destruct (cellAt (grid st) _ _) eqn:Ec; [| constructor].
  destruct (cellAt (grid st) _ _) eqn:Ec' in |- *; [| constructor].
  cbn [grid set_grid].
  eapply pc_pair; [constructor | eauto | eauto | by apply facing_direction].
Qed.

Lemma iter_extraConnection_pairCarved (n : nat) (st : State) :
  pairCarved (grid st) (grid (Nat.iter n (extraConnection Math_sin) st)).
Proof.
  induction n as [|n IH]; [constructor |]. rewrite Nat.iter_succ.
  eapply pairCarved_trans; [exact IH | apply extraConnection_pairCarved].
Qed.

(** Every build leaves the walls mutually consistent: the carver, the repair
    and the loop injector remove walls between cells in facing pairs, and the
    two openings are walls on the outer boundary. *)
Lemma generateMaze_wallsConsistent (fuel : nat) (st st' : State) :
  generateMaze Math_sin FIXED_SEED fuel st = Some st' -> wallsConsistent (grid st').
Proof.
  unfold generateMaze, depthFirstSearch, openWall.
  cbn [grid set_seed set_entrance set_exit initializeGrid set_grid].
  assert (Hstart : isValidCell (MAZE_SIZE / 2) 0 = true) by reflexivity.
  assert (Hexit : isValidCell (MAZE_SIZE / 2) (MAZE_SIZE - 1) = true) by reflexivity.
  rewrite Hstart, Hexit. cbn [negb].
  pose proof wfGrid_freshGrid as Hwf.
  destruct (wfGrid_cellAt _ _ _ Hwf Hstart) as [c0 Hc0]. rewrite Hc0. cbn [grid set_grid].
  set (g0 := updCell freshGrid (MAZE_SIZE / 2) 0 (removeWall top)).
  assert (H0 : pairCarved freshGrid g0).
  { apply pc_outer; [constructor | eauto |]. reflexivity. }
  assert (Hs0 : is_Some (cellAt g0 (MAZE_SIZE / 2) 0)).
  { unfold g0. apply cellAt_updCell_is_Some; [done | done | eauto]. }
  destruct Hs0 as [c1 Hc1]. rewrite Hc1.
  destruct (dfsLoop Math_sin fuel _ _) as [st1|] eqn:Edfs; [| done].
  apply dfsLoop_pairCarved in Edfs. cbn [grid set_grid] in Edfs.
  assert (H1 : pairCarved freshGrid (grid st1)).
  { eapply pairCarved_trans; [| exact Edfs]. apply pc_visit; [exact H0 | done | done]. }
  pose proof (carved_wfGrid _ _ (pairCarved_carved _ _ H1) Hwf) as Hwf1.
  destruct (wfGrid_cellAt _ _ _ Hwf1 Hexit) as [c2 Hc2]. rewrite Hc2.
  intros H. inversion H; subst st'. unfold addExtraConnections.
  apply (pairCarved_wallsConsistent freshGrid); [| done | apply wallsConsistent_freshGrid].
  eapply pairCarved_trans; [| apply iter_extraConnection_pairCarved].
  cbn [grid set_grid]. apply pc_outer; [exact H1 | eauto |].
  destruct (cellAt (grid st1) (MAZE_SIZE / 2 + dir_x (dirOf bottom))
              (MAZE_SIZE - 1 + dir_y (dirOf bottom))) as [c3|] eqn:Ec3; [| done].
  assert (Hv : isValidCell (MAZE_SIZE / 2 + dir_x (dirOf bottom))
                 (MAZE_SIZE - 1 + dir_y (dirOf bottom)) = true).
  { apply (wfGrid_cellAt_valid _ _ _ Hwf1). by exists c3. }
  discriminate Hv.
Qed.

End ConsistentBuild.

(** ** [createPatternMaze] keeps the walls mutually consistent *)

Lemma patternRow_pairCarved (g : Grid) (currentCol row : Z) :
  wfGrid g -> 0 <= currentCol < MAZE_SIZE -> 0 <= row < MAZE_SIZE - 1 ->
  pairCarved g (fst (patternRow (g, currentCol) row)) /\
  0 <= snd (patternRow (g, currentCol) row) < MAZE_SIZE.
Proof.
  intros Hwf Hc Hr. unfold patternRow.
  assert (Hv : isValidCell currentCol row = true) by (apply isValidCell_true; lia).
  destruct (wfGrid_cellAt _ _ _ Hwf Hv) as [c Hcell]. rewrite Hcell. cbn [fst snd].
  set (g1 := updCell g currentCol row markVisited).
  assert (H1 : pairCarved g g1) by (apply pc_visit; [constructor | lia | lia]).
  assert (Hwf1 : wfGrid g1) by by apply wfGrid_updCell.
  set (nextCol := if row mod 2 =? 0 then Z.min (currentCol + 1) (MAZE_SIZE - 1)
                  else Z.max (currentCol - 1) 0).
  assert (Hn : 0 <= nextCol < MAZE_SIZE /\
               (nextCol = currentCol + 1 \/ nextCol = currentCol - 1 \/ nextCol = currentCol)).
  { unfold nextCol. destruct (row mod 2 =? 0); lia. }
  destruct Hn as [Hn Hn']. split; [| exact Hn].
  set (g2 := if currentCol <? nextCol then _ else _).
  assert (H2 : pairCarved g g2 /\ wfGrid g2).
  { unfold g2. destruct (Z.ltb_spec currentCol nextCol) as [Hlt|Hge].
    - assert (E : nextCol = currentCol + 1) by lia. rewrite E.
      assert (Hv' : isValidCell (currentCol + 1) row = true) by (apply isValidCell_true; lia).
      destruct (wfGrid_cellAt _ _ _ (wfGrid_updCell g1 currentCol row (removeWall right) Hwf1) Hv')
        as [c' ->].
      split; [| by do 2 apply wfGrid_updCell].
      apply (pc_pair g g1 currentCol row right (currentCol + 1) row left); try done.
      + by apply wfGrid_cellAt.
      + by apply wfGrid_cellAt.
      + simpl. repeat f_equal; lia.
    - destruct (Z.ltb_spec nextCol currentCol) as [Hlt|Hge']; [| done].
      assert (E : nextCol = currentCol - 1) by lia. rewrite E.
      assert (Hv' : isValidCell (currentCol - 1) row = true) by (apply isValidCell_true; lia).
      destruct (wfGrid_cellAt _ _ _ (wfGrid_updCell g1 currentCol row (removeWall left) Hwf1) Hv')
        as [c' ->].
      split; [| by do 2 apply wfGrid_updCell].
      apply (pc_pair g g1 currentCol row left (currentCol - 1) row right); try done.
      + by apply wfGrid_cellAt.
      + by apply wfGrid_cellAt.
      + simpl. repeat f_equal; lia. }
  destruct H2 as [H2 Hwf2]. clearbody g2.
  assert (Hv' : isValidCell currentCol (row + 1) = true) by (apply isValidCell_true; lia).
  destruct (wfGrid_cellAt _ _ _ (wfGrid_updCell g2 currentCol row (removeWall bottom) Hwf2) Hv')
    as [c' ->].
  apply (pc_pair g g2 currentCol row bottom currentCol (row + 1) top); try done.
  - by apply wfGrid_cellAt.
  - by apply wfGrid_cellAt.
  - simpl. repeat f_equal; lia.
Qed.

Lemma fold_patternRow_pairCarved (rows : list Z) :
  forall g currentCol,
    wfGrid g -> 0 <= currentCol < MAZE_SIZE ->
    (forall row, In row rows -> 0 <= row < MAZE_SIZE - 1) ->
    pairCarved g (fst (fold_left patternRow rows (g, currentCol))) /\
    0 <= snd (fold_left patternRow rows (g, currentCol)) < MAZE_SIZE.
Proof.
  induction rows as [|row rows IH]; intros g c Hwf Hc Hrows; cbn [fold_left].
  - split; [constructor | done].
  - destruct (patternRow_pairCarved g c row Hwf Hc (Hrows row (or_introl eq_refl))) as [H1 H2].
    destruct (patternRow (g, c) row) as [g' c']. cbn [fst snd] in *.
    destruct (IH g' c') as [H3 H4]; try done.
    + by eapply carved_wfGrid; [apply pairCarved_carved |].
    + intros r Hr. apply Hrows. by right.
    + split; [by eapply pairCarved_trans | done].
Qed.

Lemma patternLastStep_pairCarved (direction : Z) (g : Grid) (col : Z) :
  wfGrid g -> direction = 1 \/ direction = -1 ->
  0 <= col < MAZE_SIZE -> 0 <= col + direction < MAZE_SIZE ->
  pairCarved g (patternLastStep direction g col).
Proof.
  intros Hwf Hd Hc Hc'. unfold patternLastStep.
  assert (Hv : isValidCell col (MAZE_SIZE - 1) = true) by (apply isValidCell_true; lia).
  assert (Hv' : isValidCell (col + direction) (MAZE_SIZE - 1) = true)
    by (apply isValidCell_true; lia).
  destruct (wfGrid_cellAt _ _ _ Hwf Hv) as [c ->].
  set (g1 := updCell g col (MAZE_SIZE - 1) markVisited).
  assert (H1 : pairCarved g g1) by (apply pc_visit; [constructor | lia | lia]).
  assert (Hwf1 : wfGrid g1) by by apply wfGrid_updCell.
  destruct (Z.ltb_spec 0 direction).
  - destruct (wfGrid_cellAt _ _ _ (wfGrid_updCell g1 col (MAZE_SIZE - 1) (removeWall right) Hwf1) Hv')
      as [c' ->].
    apply (pc_pair g g1 col (MAZE_SIZE - 1) right (col + direction) (MAZE_SIZE - 1) left);
      try done; [by apply wfGrid_cellAt | by apply wfGrid_cellAt |].
    simpl. repeat f_equal; lia.
  - destruct (wfGrid_cellAt _ _ _ (wfGrid_updCell g1 col (MAZE_SIZE - 1) (removeWall left) Hwf1) Hv')
      as [c' ->].
    apply (pc_pair g g1 col (MAZE_SIZE - 1) left (col + direction) (MAZE_SIZE - 1) right);
      try done; [by apply wfGrid_cellAt | by apply wfGrid_cellAt |].
    simpl. repeat f_equal; lia.
Qed.

Lemma fold_patternLastStep_pairCarved (direction : Z) (cols : list Z) :
  forall g,
    wfGrid g -> direction = 1 \/ direction = -1 ->
    (forall col, In col cols -> 0 <= col < MAZE_SIZE /\ 0 <= col + direction < MAZE_SIZE) ->
    pairCarved g (fold_left (patternLastStep direction) cols g).
Proof.
  induction cols as [|col cols IH]; intros g Hwf Hd Hcols; cbn [fold_left]; [constructor |].
  destruct (Hcols col (or_introl eq_refl)) as [Hc Hc'].
  pose proof (patternLastStep_pairCarved direction g col Hwf Hd Hc Hc') as H1.
  eapply pairCarved_trans; [exact H1 |]. apply IH; try done.
  - by eapply carved_wfGrid; [apply pairCarved_carved |].
  - intros c Hin. apply Hcols. by right.
Qed.

Lemma createPatternMaze_pairCarved (st : State) :
  wfGrid (grid st) -> pairCarved (grid st) (grid (createPatternMaze st)).
Proof.
  intros Hwf. unfold createPatternMaze.
  destruct (fold_patternRow_pairCarved (range (MAZE_SIZE - 1)) (grid st) (MAZE_SIZE / 2) Hwf)
    as [H1 H2]; [done | intros row Hrow; by apply range_In in Hrow |].
  destruct (fold_left patternRow _ _) as [g c]. cbn [fst snd] in H1, H2.
  pose proof (carved_wfGrid _ _ (pairCarved_carved _ _ H1) Hwf) as Hwf1.
  destruct (arr_get g (MAZE_SIZE - 1)); [| done].
  destruct (Z.eqb_spec c (MAZE_SIZE / 2)) as [E|E]; cbn [negb grid set_grid]; [done |].
  eapply pairCarved_trans; [exact H1 |].
  apply fold_patternLastStep_pairCarved; [done | destruct (c <? MAZE_SIZE / 2); tauto |].
  intros col Hin. unfold colsToward in Hin. apply in_map_iff in Hin as (k & <- & Hk).
  apply in_seq in Hk. assert (0 <= MAZE_SIZE / 2 < MAZE_SIZE) by done.
  destruct (Z.ltb_spec c (MAZE_SIZE / 2)); lia.
Qed.

(** From a consistent grid of the built shape, [createPatternMaze] leaves a
    consistent grid. *)
Lemma createPatternMaze_wallsConsistent (st : State) :
  wfGrid (grid st) -> wallsConsistent (grid st) ->
  wallsConsistent (grid (createPatternMaze st)).
Proof.
  intros Hwf Hc. eapply pairCarved_wallsConsistent; [| exact Hwf | exact Hc].
  by apply createPatternMaze_pairCarved.
Qed.

(** ** Walkability at the centre of a cell *)

Lemma Qfloor_cell_centre (x : Z) :
  Qfloor ((inject_Z x * inject_Z PATH_WIDTH + inject_Z PATH_WIDTH / 2) / inject_Z PATH_WIDTH) = x.
Proof.
  apply Qfloor_between; rewrite ?inject_Z_plus;
    change (inject_Z PATH_WIDTH) with 4%Q; change (inject_Z 1) with 1%Q.
  - apply Qle_shift_div_l; [reflexivity |].
    assert (E2 : (4 / 2 == 2)%Q) by reflexivity. rewrite E2. lra.
  - apply Qlt_shift_div_r; [reflexivity |].
    assert (E2 : (4 / 2 == 2)%Q) by reflexivity. rewrite E2. lra.
Qed.

(** At the world-space centre of an in-bounds cell, at any height,
    [isWalkablePath] is the [visited] flag of that cell. *)
Lemma isWalkablePath_cell_centre (st : State) (x y : Z) (worldY : Q) :
  isValidCell x y = true ->
  isWalkablePath st (vx (getCellCenter st x y)) worldY (vz (getCellCenter st x y))
  = visitedAt (grid st) x y.
Proof.
  intros Hv. unfold isWalkablePath, getCellCenter. cbn [vx vz].
  assert (Hc : forall k, 0 <= k ->
            (0 <= inject_Z k * inject_Z PATH_WIDTH + inject_Z PATH_WIDTH / 2)%Q).
  { intros k Hk. change (inject_Z PATH_WIDTH) with 4%Q.
    assert (0 <= inject_Z k)%Q by (change 0%Q with (inject_Z 0); rewrite <- Zle_Qle; lia).
    assert (E2 : (4 / 2 == 2)%Q) by reflexivity. rewrite E2. lra. }
  pose proof (proj1 (isValidCell_true _ _) Hv) as [Hx Hy].
  rewrite !divPathWidth_nonneg by (apply Hc; lia).
  rewrite !Qfloor_cell_centre, Hv. cbn [andb]. unfold isWalkableCell.
  assert (H0 : Qltb (inject_Z y * inject_Z PATH_WIDTH + inject_Z PATH_WIDTH / 2) 0 = false).
  { apply Qltb_ge. change (inject_Z PATH_WIDTH) with 4%Q.
    assert (0 <= inject_Z y)%Q by (change 0%Q with (inject_Z 0); rewrite <- Zle_Qle; lia).
    assert (0 <= inject_Z y * 4)%Q by (apply Qmult_le_0_compat; [done | discriminate]).
    assert (E2 : (4 / 2 == 2)%Q) by reflexivity. rewrite E2. lra. }
  assert (H1 : Qle_bool (inject_Z (MAZE_SIZE * PATH_WIDTH))
                 (inject_Z y * inject_Z PATH_WIDTH + inject_Z PATH_WIDTH / 2) = false).
  { destruct (Qle_bool _ _) eqn:E; [| done]. apply Qle_bool_iff in E. exfalso.
    assert (Hy' : (inject_Z y <= inject_Z (MAZE_SIZE - 1))%Q) by (rewrite <- Zle_Qle; lia).
    change (inject_Z PATH_WIDTH) with 4%Q in E.
    change (inject_Z (MAZE_SIZE * PATH_WIDTH)) with 200%Q in E.
    change (inject_Z (MAZE_SIZE - 1)) with 49%Q in Hy'.
    assert (E2 : (4 / 2 == 2)%Q) by reflexivity. rewrite E2 in E. lra. }
  by rewrite H0, H1.
Qed.

(** * Beyond the claims: the carved passages *)

Lemma sampleMaze_generated :
  generateMaze sample_sin 12345 buildFuel (constructor 12345) = Some sampleMaze.
Proof.
  destruct (generateMaze_built sample_sin 12345 buildFuel (constructor 12345) (Nat.le_refl _))
    as (st & H & _).
  unfold sampleMaze. by rewrite H.
Qed.

(** Marking the cell [n] visited, when it has a passage from a cell that is
    already connected, keeps every visited cell connected. *)
Lemma reachInv_extend (g g' : Grid) (s p n : Z * Z) :
  carved g g' -> reachInv g s ->
  connected g s p -> passage g' p n ->
  (forall a b, (a, b) <> n -> visitedAt g' a b = visitedAt g a b) ->
  reachInv g' s.
Proof.
  intros Hc Hinv Hp Hpass Hne a b Hv Hvis.
  destruct (decide ((a, b) = n)) as [<-|E].
  - eapply connected_step; [| exact Hpass]. by eapply carved_connected.
  - rewrite (Hne _ _ E) in Hvis. eapply carved_connected; [exact Hc |]. by apply Hinv.
Qed.

Section ConnectedBuild.

Variable Math_sin : Z -> Q.
Variable FIXED_SEED : Z.

Lemma dfsBody_reachInv (fuel : nat) (st st' : State) (x y sx sy : Z)
    (rest stack' : list (Z * Z)) (s : Z * Z) :
  wfGrid (grid st) -> exitValid st ->
  isValidCell sx sy = true -> visitedAt (grid st) sx sy = true ->
  dfsInv (grid st) ((x, y) :: rest) ->
  dfsBody Math_sin fuel st x y rest = Some (st', stack') ->
  reachInv (grid st) s -> reachInv (grid st') s.
Proof.
  intros Hwf Hex Hs Hsv Hinv Hbody Hreach. unfold dfsBody in Hbody.
  destruct (unvisitedNeighbors (grid st) x y) as [|n0 ns] eqn:En.
  - pose proof (dfsInv_pop _ _ _ _ Hwf En Hinv) as Hinv'.
    assert (Hr : repairCheck fuel rest st = Some st).
    { destruct rest; [| done]. apply repairCheck_connected; [done |].
      apply allVisited_visitedAt. by apply (closed_allVisited _ sx sy). }
    rewrite Hr in Hbody. by inversion Hbody; subst.
  - rewrite <- En in Hbody. unfold seedRandom in Hbody. cbn [grid set_seed] in Hbody.
    destruct (arr_get _ _) as [nb|] eqn:Eg; [| by inversion Hbody; subst].
    apply arr_get_In in Eg.
    apply unvisitedNeighbors_In in Eg as (dir & Hdir & Hnx & Hny & Hnv & Hsome & Hunv).
    rewrite Hdir in Hbody.
    assert (Hin : In dir DIRECTIONS).
    { apply list_elem_of_In. by eapply list_elem_of_lookup_2. }
    destruct Hinv as [Ha _].
    destruct (Ha (x, y) (or_introl eq_refl)) as [Hxy Hxyv]. cbn [fst snd] in Hxy, Hxyv.
    destruct (wfGrid_cellAt _ _ _ Hwf Hxy) as [c Hc]. rewrite Hc in Hbody.
    pose proof Hsome as [c' Hc']. rewrite Hc' in Hbody.
    cbn [repairCheck] in Hbody. inversion Hbody; subst st' stack'. cbn [grid set_grid].
    pose proof (proj1 (isValidCell_true _ _) Hxy) as Hxy'.
    pose proof (proj1 (isValidCell_true _ _) Hnv) as Hnv'.
    assert (Hneq : (x, y) <> (nb_x nb, nb_y nb)).
    { rewrite Hnx, Hny. by apply direction_moves. }
    destruct (removeWallPair_wallAt (grid st) x y (nb_x nb) (nb_y nb) (wall dir) (opposite dir))
      as (H1 & H2 & _); try lia; eauto.
    apply (reachInv_extend (grid st) _ s (x, y) (nb_x nb, nb_y nb)).
    + apply carved_upd; auto with maze; try lia. apply carved_removeWallPair; lia.
    + done.
    + by apply Hreach.
    + exists dir. cbn [fst snd]. split; [done |]. split; [by rewrite Hnx, Hny |].
      by rewrite !wallAt_markVisited by lia.
    + intros a b E. rewrite visitedAt_markVisited_ne by (try lia; done).
      by rewrite visitedAt_removeWallPair by lia.
Qed.

Lemma dfsLoop_reachInv (sx sy : Z) (s : Z * Z) (fuel : nat) :
  forall st stack st',
    wfGrid (grid st) -> exitValid st ->
    isValidCell sx sy = true -> visitedAt (grid st) sx sy = true ->
    dfsInv (grid st) stack ->
    dfsLoop Math_sin fuel st stack = Some st' ->
    allVisited (grid st') /\ (reachInv (grid st) s -> reachInv (grid st') s).
Proof.
  induction fuel as [|fuel IH]; intros st [|[x y] rest] st' Hwf Hex Hs Hsv Hinv H;
    cbn [dfsLoop] in H; try done;
    try (inversion H; subst; split; [| done]; apply allVisited_visitedAt;
         by apply (closed_allVisited _ sx sy)).
  destruct (dfsBody_progress Math_sin fuel st x y sx sy rest Hwf Hex Hs Hsv Hinv)
    as (st1 & stack1 & Hbody & Hinv1 & _).
  rewrite Hbody in H.
  pose proof (dfsBody_framed _ _ _ _ _ _ _ _ Hbody) as (Hc & _ & Hexit & _).
  destruct (IH st1 stack1 st') as [Hall Hreach]; try done.
  - by eapply carved_wfGrid.
  - unfold exitValid. by rewrite Hexit.
  - by eapply carved_visitedAt.
  - split; [done |]. intros Hr. apply Hreach. by eapply dfsBody_reachInv.
Qed.

Lemma depthFirstSearch_reachInv (fuel : nat) (startX startY : Z) (st st' : State) :
  wfGrid (grid st) -> exitValid st -> isValidCell startX startY = true ->
  (forall x y, visitedAt (grid st) x y = false) ->
  depthFirstSearch Math_sin fuel startX startY st = Some st' ->
  allVisited (grid st') /\ reachInv (grid st') (startX, startY).
Proof.
  intros Hwf Hex Hv Hfresh. unfold depthFirstSearch. rewrite Hv. cbn [negb].
  destruct (wfGrid_cellAt _ _ _ Hwf Hv) as [c Hc]. rewrite Hc.
  pose proof (proj1 (isValidCell_true _ _) Hv) as Hv'.
  remember (updCell (grid st) startX startY markVisited) as g0 eqn:Eg0.
  assert (Hvis0 : visitedAt g0 startX startY = true).
  { subst g0. apply visitedAt_markVisited_eq; try lia. eauto. }
  assert (Hne : forall x y, (x, y) <> (startX, startY) -> visitedAt g0 x y = false).
  { intros x y E. subst g0. rewrite visitedAt_markVisited_ne by (try lia; done). apply Hfresh. }
  assert (Hwf0 : wfGrid g0) by (subst g0; by apply wfGrid_updCell).
  clear Eg0.
  intros H.
  destruct (dfsLoop_reachInv startX startY (startX, startY) fuel (set_grid g0 st)
              [(startX, startY)] st') as [Hall Hreach]; cbn [grid set_grid]; try done.
  - split.
    + intros p [<-|[]]. by cbn [fst snd].
    + intros x y _ Hvis. left. left.
      destruct (decide ((x, y) = (startX, startY))) as [E|E]; [done |].
      by rewrite (Hne _ _ E) in Hvis.
  - split; [done |]. apply Hreach. intros x y _ Hvis. cbn [grid set_grid] in Hvis.
    destruct (decide ((x, y) = (startX, startY))) as [E|E]; [rewrite E; constructor |].
    by rewrite (Hne _ _ E) in Hvis.
Qed.

(** From the entrance cell every cell of a generated maze is reached. *)
Lemma generateMaze_reach (fuel : nat) (st st' : State) :
  generateMaze Math_sin FIXED_SEED fuel st = Some st' ->
  forall x y, isValidCell x y = true -> connected (grid st') (MAZE_SIZE / 2, 0) (x, y).
Proof.
  unfold generateMaze.
  set (s0 := set_exit _ (openWall _ _ _ _)).
  destruct (depthFirstSearch Math_sin fuel (MAZE_SIZE / 2) 0 s0) as [s1|] eqn:Edfs; [| done].
  intros Hgen. inversion Hgen; subst st'. clear Hgen.
  destruct (depthFirstSearch_reachInv fuel (MAZE_SIZE / 2) 0 s0 s1) as [Hall Hreach];
    try done.
  { unfold s0. cbn [grid set_exit].
    eapply carved_wfGrid; [apply openWall_framed |]. apply wfGrid_freshGrid. }
  { intros x y. unfold s0. cbn [grid set_exit]. rewrite openWall_visitedAt.
    apply visitedAt_freshGrid. }
  intros x y Hv.
  eapply carved_connected.
  - eapply carved_trans; [apply openWall_framed |].
    unfold addExtraConnections. apply iter_extraConnection_framed.
  - apply Hreach; [done |]. by apply allVisited_visitedAt.
Qed.

(** X1. The guaranteed path. Every build completes and leaves every cell of
    the grid connected to the entrance by a walk of passages (adjacent cells
    with both facing walls absent); in particular the exit is. *)
Theorem generateMaze_connected (fuel : nat) (st : State) :
  (buildFuel <= fuel)%nat ->
  exists st',
    generateMaze Math_sin FIXED_SEED fuel st = Some st' /\
    (forall x y, isValidCell x y = true -> connected (grid st') (entrance st') (x, y)) /\
    connected (grid st') (entrance st') (exit st').
Proof.
  intros Hfuel.
  destruct (generateMaze_built Math_sin FIXED_SEED fuel st Hfuel)
    as (st' & Hgen & _ & _ & Hent & Hexit & _).
  exists st'. split; [done |].
  pose proof (generateMaze_reach fuel st st' Hgen) as Hconn.
  rewrite Hent, Hexit. split; [exact Hconn |]. by apply Hconn.
Qed.

End ConnectedBuild.

Lemma generateMaze_connected_witness :
  exists st',
    generateMaze sample_sin 12345 buildFuel (constructor 12345) = Some st' /\
    (forall x y, isValidCell x y = true -> connected (grid st') (entrance st') (x, y)) /\
    connected (grid st') (entrance st') (exit st').
Proof.
  apply (generateMaze_connected sample_sin 12345 buildFuel (constructor 12345)). lia.
Defined.

(** * Beyond the claims: the block registry *)

Lemma rangeFrom_In (a b z : Z) : In z (rangeFrom a b) <-> a <= z < b.
Proof.
  unfold rangeFrom. rewrite in_map_iff. split.
  - intros (k & <- & Hk). apply in_seq in Hk. lia.
  - intros H. exists (Z.to_nat (z - a)). split; [lia|]. apply in_seq. lia.
Qed.

Section BlockRegistry.

Variable Math_sin : Z -> Q.

Lemma getRandomWallBlockId_seed (s : Z) :
  snd (getRandomWallBlockId Math_sin s)
  = (if Z.rem s 1000 =? 0 then BLOCK_SEED else s) + 1.
Proof.
  unfold getRandomWallBlockId, seedRandomBlock.
  destruct (arr_get _ _); reflexivity.
Qed.

(** The index [getRandomWallBlockId] draws is within the array, and its
    result is the entry at that index. *)
Lemma getRandomWallBlockId_index (s : Z) :
  let s0 := if Z.rem s 1000 =? 0 then BLOCK_SEED else s in
  let k := scaleFloor (frac (Math_sin s0 * inject_Z 10000)) 4 in
  0 <= k < 4 /\
  arr_get MAZE_WALL_BLOCK_IDS k = Some (fst (getRandomWallBlockId Math_sin s)).
Proof.
  intros s0 k.
  assert (Hk : 0 <= k < 4) by (apply draw_range; lia).
  unfold getRandomWallBlockId, seedRandomBlock. fold s0.
  change (Z.of_nat (length MAZE_WALL_BLOCK_IDS)) with 4. fold k.
  rewrite (Z.rem_small k 4) by lia.
  assert (Hc : k = 0 \/ k = 1 \/ k = 2 \/ k = 3) by lia.
  split; [exact Hk|].
  destruct Hc as [-> | [-> | [-> | ->]]]; reflexivity.
Qed.

Lemma getRandomWallBlockId_In (s : Z) :
  In (fst (getRandomWallBlockId Math_sin s)) MAZE_WALL_BLOCK_IDS.
Proof.
  destruct (getRandomWallBlockId_index s) as [_ E]. exact (arr_get_In _ _ _ E).
Qed.

(** X11. [getRandomWallBlockId] returns the entry of [MAZE_WALL_BLOCK_IDS] at
    the drawn index: the index is always within the array, so neither the
    remainder nor the [||] fallback changes the result, and the identifier
    is one of the four wall identifiers, never the floor block. *)
Theorem getRandomWallBlockId_wall_id (s : Z) :
  let s0 := if Z.rem s 1000 =? 0 then BLOCK_SEED else s in
  let k := scaleFloor (frac (Math_sin s0 * inject_Z 10000)) 4 in
  0 <= k < 4 /\
  arr_get MAZE_WALL_BLOCK_IDS k = Some (fst (getRandomWallBlockId Math_sin s)) /\
  In (fst (getRandomWallBlockId Math_sin s)) MAZE_WALL_BLOCK_IDS /\
  fst (getRandomWallBlockId Math_sin s) <> MAZE_FLOOR_BLOCK_ID.
Proof.
  intros s0 k. destruct (getRandomWallBlockId_index s) as [Hk E].
  split; [exact Hk|]. split; [exact E|].
  pose proof (getRandomWallBlockId_In s) as Hin. split; [exact Hin|].
  intros Ef. rewrite Ef in Hin. cbn in Hin.
  destruct Hin as [H | [H | [H | [H | []]]]]; discriminate H.
Qed.

Lemma blockSeedAfter_S (n : nat) :
  blockSeedAfter Math_sin (S n)
  = snd (getRandomWallBlockId Math_sin (blockSeedAfter Math_sin n)).
Proof. reflexivity. Qed.

Lemma blockSeedAfter_first (n : nat) :
  (n <= 679)%nat -> blockSeedAfter Math_sin n = BLOCK_SEED + Z.of_nat n.
Proof.
  induction n as [|n IH]; intros Hn.
  - reflexivity.
  - rewrite blockSeedAfter_S, getRandomWallBlockId_seed, IH by lia.
    unfold BLOCK_SEED.
    destruct (Z.rem (54321 + Z.of_nat n) 1000 =? 0) eqn:E; [|lia].
    apply Z.eqb_eq in E. rewrite Z.rem_mod_nonneg in E by lia.
    pose proof (Z.div_mod (54321 + Z.of_nat n) 1000). lia.
Qed.

Lemma getRandomWallBlockId_reset :
  getRandomWallBlockId Math_sin (blockSeedAfter Math_sin 679)
  = getRandomWallBlockId Math_sin BLOCK_SEED.
Proof.
  rewrite blockSeedAfter_first by lia. reflexivity.
Qed.

Lemma blockSeedAfter_period (n : nat) :
  getRandomWallBlockId Math_sin (blockSeedAfter Math_sin (n + 679))
  = getRandomWallBlockId Math_sin (blockSeedAfter Math_sin n).
Proof.
  induction n as [|n IH].
  - apply getRandomWallBlockId_reset.
  - change (S n + 679)%nat with (S (n + 679)).
    rewrite !blockSeedAfter_S, IH. reflexivity.
Qed.

(** X12. The counter [blockSeed] never leaves [54321 .. 55000], and the wall
    block identifiers repeat with period 679: the reset at a multiple of
    1000 is reached 679 calls after the start, and every 679 calls from
    then on. *)
Theorem wallBlockIdAt_period (n : nat) :
  wallBlockIdAt Math_sin (n + 679) = wallBlockIdAt Math_sin n /\
  BLOCK_SEED <= blockSeedAfter Math_sin n <= 55000.
Proof.
  split.
  - unfold wallBlockIdAt. now rewrite blockSeedAfter_period.
  - induction n as [|n IH].
    + cbn. unfold BLOCK_SEED. lia.
    + rewrite blockSeedAfter_S, getRandomWallBlockId_seed.
      unfold BLOCK_SEED in *.
      destruct (Z.rem (blockSeedAfter Math_sin n) 1000 =? 0) eqn:E; [lia|].
      apply Z.eqb_neq in E. rewrite Z.rem_mod_nonneg in E by lia.
      assert (blockSeedAfter Math_sin n <> 55000); [|lia].
      intros E'. rewrite E' in E. apply E. reflexivity.
Qed.

End BlockRegistry.

(** * Beyond the claims: the blocks of the built maze *)

(** ** The base plate *)

Lemma fillRow_lookup (x0 : Z) (zs : list Z) (w : World) (x y z : Z) :
  fold_left (fun w z => setBlock (x0, 0, z) FLOOR_BLOCK_ID w) zs w !! (x, y, z)
  = if bool_decide (x = x0 /\ y = 0 /\ z ∈ zs) then Some FLOOR_BLOCK_ID
    else w !! (x, y, z).
Proof.
  revert w. induction zs as [|a zs IH]; intros w.
  - cbn [fold_left]. rewrite bool_decide_eq_false_2; [reflexivity|].
    intros (_ & _ & H). inversion H.
  - cbn [fold_left]. rewrite IH. unfold setBlock.
    destruct (decide ((x0, 0, a) = (x, y, z))) as [E | E].
    + inversion E; subst. rewrite lookup_insert_eq.
      rewrite (bool_decide_eq_true_2 (x = x /\ 0 = 0 /\ z ∈ z :: zs))
        by (repeat split; left).
      now destruct (bool_decide _).
    + rewrite lookup_insert_ne by exact E.
      apply (f_equal (fun b : bool => if b then Some FLOOR_BLOCK_ID else w !! (x, y, z))).
      apply bool_decide_ext. split.
      * intros (? & ? & ?). repeat split; try assumption. now right.
      * intros (-> & -> & H). repeat split.
        apply elem_of_cons in H as [-> | H]; [congruence | exact H].
Qed.

Lemma fillFloor_lookup (xs zs : list Z) (w : World) (x y z : Z) :
  fillFloor xs zs w !! (x, y, z)
  = if bool_decide (y = 0 /\ x ∈ xs /\ z ∈ zs) then Some FLOOR_BLOCK_ID
    else w !! (x, y, z).
Proof.
  unfold fillFloor. revert w. induction xs as [|a xs IH]; intros w.
  - cbn [fold_left]. rewrite bool_decide_eq_false_2; [reflexivity|].
    intros (_ & H & _). inversion H.
  - cbn [fold_left]. rewrite IH, fillRow_lookup.
    repeat case_bool_decide; try reflexivity; exfalso.
    + match goal with H : ¬ _ |- _ => apply H end.
      intuition (try assumption). now right.
    + match goal with H : ¬ (_ /\ _ ∈ a :: _ /\ _) |- _ => apply H end.
      destruct H0 as (-> & -> & ?). repeat split; [left | assumption].
    + destruct H1 as (? & Hx & ?). apply elem_of_cons in Hx as [-> | Hx].
      * apply H0. repeat split; assumption.
      * apply H. repeat split; assumption.
Qed.

Lemma buildBasePlate_spec (st : State) (w : World) (p : Z * Z * Z) :
  (floorSite st p -> buildBasePlate st w !! p = Some FLOOR_BLOCK_ID) /\
  (~ floorSite st p -> buildBasePlate st w !! p = w !! p).
Proof.
  destruct p as [[x y] z]. unfold buildBasePlate, floorSite.
  rewrite !fillFloor_lookup.
  change (PLATFORM_WIDTH / 2) with 5.
  set (P1 := y = 0 /\ x ∈ range (MAZE_SIZE * PATH_WIDTH) /\ z ∈ range (MAZE_SIZE * PATH_WIDTH)).
  set (P2 := y = 0 /\ x ∈ rangeFrom _ _ /\ z ∈ rangeFrom (- PLATFORM_DEPTH) 0).
  set (P3 := y = 0 /\ x ∈ rangeFrom _ _ /\ z ∈ rangeFrom _ _).
  assert (H1 : P1 <-> y = 0 /\ 0 <= x < MAZE_SIZE * PATH_WIDTH /\ 0 <= z < MAZE_SIZE * PATH_WIDTH).
  { unfold P1. rewrite !list_elem_of_In, !range_In. reflexivity. }
  assert (H2 : P2 <-> y = 0 /\
            Z.max 0 (fst (entrance st) * PATH_WIDTH - 5) <= x
              < Z.min (MAZE_SIZE * PATH_WIDTH) (fst (entrance st) * PATH_WIDTH + PATH_WIDTH + 5) /\
            - PLATFORM_DEPTH <= z < 0).
  { unfold P2. rewrite !list_elem_of_In, !rangeFrom_In. reflexivity. }
  assert (H3 : P3 <-> y = 0 /\
            Z.max 0 (fst (exit st) * PATH_WIDTH - 5) <= x
              < Z.min (MAZE_SIZE * PATH_WIDTH) (fst (exit st) * PATH_WIDTH + PATH_WIDTH + 5) /\
            MAZE_SIZE * PATH_WIDTH <= z < MAZE_SIZE * PATH_WIDTH + PLATFORM_DEPTH).
  { unfold P3. rewrite !list_elem_of_In, !rangeFrom_In. reflexivity. }
  repeat case_bool_decide; split; intros Hf; try reflexivity; exfalso; tauto.
Qed.

(** ** The walls *)

Lemma touched_refl (P : Z * Z * Z -> Prop) (w : World) : touched P w w.
Proof. intros p. now left. Qed.

Lemma touched_trans (P : Z * Z * Z -> Prop) (w1 w2 w3 : World) :
  touched P w1 w2 -> touched P w2 w3 -> touched P w1 w3.
Proof.
  intros H12 H23 p. destruct (H23 p) as [E | H]; [|now right].
  destruct (H12 p) as [E' | [HP (id & Hid & Hl)]].
  - left. congruence.
  - right. split; [exact HP|]. exists id. split; [exact Hid | congruence].
Qed.

Lemma touched_mono (P Q : Z * Z * Z -> Prop) (w w' : World) :
  (forall p, P p -> Q p) -> touched P w w' -> touched Q w w'.
Proof.
  intros HPQ H p. destruct (H p) as [E | [HP Hw]]; [now left | right; auto].
Qed.

Lemma touched_keeps (P : Z * Z * Z -> Prop) (w w' : World) (p : Z * Z * Z) :
  touched P w w' -> wallBlockAt w p -> wallBlockAt w' p.
Proof.
  intros H (id & Hid & Hl). destruct (H p) as [E | [_ Hw]]; [|exact Hw].
  exists id. split; [exact Hid | congruence].
Qed.

Lemma fold_left_touched {A} (P : Z * Z * Z -> Prop) (f : World * Z -> A -> World * Z)
    (l : list A) (s : World * Z) :
  (forall s x, In x l -> touched P (fst s) (fst (f s x))) ->
  touched P (fst s) (fst (fold_left f l s)).
Proof.
  revert s. induction l as [|a l IH]; intros s Hf.
  - apply touched_refl.
  - cbn [fold_left]. eapply touched_trans.
    + apply Hf. now left.
    + apply IH. intros s' x Hx. apply Hf. now right.
Qed.

Lemma fold_left_wallBlockAt {A} (P : Z * Z * Z -> Prop) (f : World * Z -> A -> World * Z)
    (l : list A) (s : World * Z) (x : A) (p : Z * Z * Z) :
  (forall s x, In x l -> touched P (fst s) (fst (f s x))) ->
  In x l -> (forall s, wallBlockAt (fst (f s x)) p) ->
  wallBlockAt (fst (fold_left f l s)) p.
Proof.
  revert s. induction l as [|a l IH]; intros s Hf Hx Hp; [destruct Hx|].
  cbn [fold_left]. destruct Hx as [-> | Hx].
  - eapply touched_keeps; [|apply Hp].
    apply (fold_left_touched P). intros s' y Hy. apply Hf. now right.
  - apply IH; [|exact Hx | exact Hp]. intros s' y Hy. apply Hf. now right.
Qed.

Section BuildWalls.

Variable Math_sin : Z -> Q.

Lemma placeWallBlock_fst (pos : Z -> Z -> Z * Z * Z) (i y : Z) (s : World * Z) :
  fst (placeWallBlock Math_sin pos i s y)
  = setBlock (pos i y) (fst (getRandomWallBlockId Math_sin (snd s))) (fst s).
Proof.
  unfold placeWallBlock. now destruct (getRandomWallBlockId Math_sin (snd s)).
Qed.

Lemma placeWallBlock_painted (pos : Z -> Z -> Z * Z * Z) (i y : Z) (s : World * Z) :
  painted (fun p => p = pos i y) (fst s) (fst (placeWallBlock Math_sin pos i s y)).
Proof.
  rewrite placeWallBlock_fst. unfold setBlock.
  assert (Hw : wallBlockAt (<[pos i y := fst (getRandomWallBlockId Math_sin (snd s))]> (fst s))
                 (pos i y)).
  { eexists. split; [apply getRandomWallBlockId_In | apply lookup_insert_eq]. }
  split.
  - intros p ->. exact Hw.
  - intros p. destruct (decide (pos i y = p)) as [<- | E].
    + right. split; [reflexivity | exact Hw].
    + left. now apply lookup_insert_ne.
Qed.

(** The positions one call of the wall loops writes. *)
Lemma placeWall_painted (pos : Z -> Z -> Z * Z * Z) (s : World * Z) :
  painted (fun p => exists i y, 0 <= i < PATH_WIDTH /\ 1 <= y <= WALL_HEIGHT /\ p = pos i y)
    (fst s) (fst (placeWall Math_sin pos s)).
Proof.
  set (P := fun p => exists i y, 0 <= i < PATH_WIDTH /\ 1 <= y <= WALL_HEIGHT /\ p = pos i y).
  assert (Hin : forall i, In i (range PATH_WIDTH) ->
            forall s' y, In y (rangeFrom 1 (WALL_HEIGHT + 1)) ->
              touched P (fst s') (fst (placeWallBlock Math_sin pos i s' y))).
  { intros i Hi s' y Hy. apply range_In in Hi. apply rangeFrom_In in Hy.
    eapply touched_mono; [|apply placeWallBlock_painted].
    intros p ->. exists i, y. repeat split; lia. }
  assert (Hout : forall s i, In i (range PATH_WIDTH) ->
            touched P (fst s)
              (fst (fold_left (placeWallBlock Math_sin pos i) (rangeFrom 1 (WALL_HEIGHT + 1)) s))).
  { intros s' i Hi. apply fold_left_touched. now apply Hin. }
  split.
  - intros p (i & y & Hi & Hy & ->). unfold placeWall.
    apply (fold_left_wallBlockAt P) with (x := i); [exact Hout | now apply range_In |].
    intros s'. apply (fold_left_wallBlockAt P) with (x := y).
    + apply Hin. now apply range_In.
    + apply rangeFrom_In. lia.
    + intros s''. now apply placeWallBlock_painted.
  - unfold placeWall. apply fold_left_touched. exact Hout.
Qed.

Lemma placeWall_if (b : bool) (pos : Z -> Z -> Z * Z * Z) (s : World * Z) :
  painted (fun p => b = true /\
             exists i y, 0 <= i < PATH_WIDTH /\ 1 <= y <= WALL_HEIGHT /\ p = pos i y)
    (fst s) (fst (if b then placeWall Math_sin pos s else s)).
Proof.
  destruct b.
  - destruct (placeWall_painted pos s) as [H1 H2]. split.
    + intros p [_ H]. now apply H1.
    + eapply touched_mono; [|exact H2]. intros p H. now split.
  - split; [intros p [H _]; discriminate | apply touched_refl].
Qed.

Lemma buildCellWalls_painted (g : Grid) (gx gy : Z) (s : World * Z) :
  isValidCell gx gy = true ->
  painted (cellWallSite g gx gy) (fst s) (fst (buildCellWalls Math_sin g s (gx, gy))).
Proof.
  intros Hv. unfold buildCellWalls. rewrite Hv. cbn [negb].
  destruct (cellAt g gx gy) as [cell|] eqn:Ec.
  2: { split; [|apply touched_refl].
       intros p (d & i & y & Hw & _). unfold wallAt in Hw. rewrite Ec in Hw. discriminate. }
  assert (Hw : forall d, wallAt g gx gy d = Some true <-> wall_get (walls cell) d = true).
  { intros d. unfold wallAt. rewrite Ec. cbn. split; congruence. }
  set (s1 := if wall_top (walls cell) then placeWall Math_sin _ s else s).
  set (s2 := if wall_right (walls cell) then placeWall Math_sin _ s1 else s1).
  set (s3 := if wall_bottom (walls cell) then placeWall Math_sin _ s2 else s2).
  pose proof (placeWall_if (wall_top (walls cell))
                (fun x y => (gx * PATH_WIDTH + x, y, gy * PATH_WIDTH)) s) as [A1 B1].
  pose proof (placeWall_if (wall_right (walls cell))
                (fun z y => (gx * PATH_WIDTH + PATH_WIDTH, y, gy * PATH_WIDTH + z)) s1) as [A2 B2].
  pose proof (placeWall_if (wall_bottom (walls cell))
                (fun x y => (gx * PATH_WIDTH + x, y, gy * PATH_WIDTH + PATH_WIDTH)) s2) as [A3 B3].
  pose proof (placeWall_if (wall_left (walls cell))
                (fun z y => (gx * PATH_WIDTH, y, gy * PATH_WIDTH + z)) s3) as [A4 B4].
  fold s1 in A1, B1. fold s2 in A2, B2. fold s3 in A3, B3.
  assert (M : forall d (pos : Z -> Z -> Z * Z * Z),
            (forall i y, pos i y = wallBlock gx gy d i y) ->
            forall p, (wall_get (walls cell) d = true /\
               exists i y, 0 <= i < PATH_WIDTH /\ 1 <= y <= WALL_HEIGHT /\ p = pos i y) ->
            cellWallSite g gx gy p).
  { intros d pos Hpos p (Hd & i & y & Hi & Hy & ->). exists d, i, y.
    rewrite Hw, Hpos. auto. }
  assert (M1 := M top _ (fun i y => eq_refl)).
  assert (M2 := M right _ (fun i y => eq_refl)).
  assert (M3 := M bottom _ (fun i y => eq_refl)).
  assert (M4 := M left _ (fun i y => eq_refl)).
  cbn [wall_get] in M1, M2, M3, M4.
  split.
  - intros p (d & i & y & Hd & Hi & Hy & ->). apply Hw in Hd.
    destruct d; cbn [wall_get] in Hd.
    + eapply touched_keeps; [exact B4|]. eapply touched_keeps; [exact B3|].
      eapply touched_keeps; [exact B2|]. apply A1. split; [exact Hd|]. now exists i, y.
    + eapply touched_keeps; [exact B4|]. eapply touched_keeps; [exact B3|].
      apply A2. split; [exact Hd|]. now exists i, y.
    + eapply touched_keeps; [exact B4|].
      apply A3. split; [exact Hd|]. now exists i, y.
    + apply A4. split; [exact Hd|]. now exists i, y.
  - eapply touched_trans; [|eapply touched_mono; [exact M4 | exact B4]].
    eapply touched_trans; [|eapply touched_mono; [exact M3 | exact B3]].
    eapply touched_trans; [|eapply touched_mono; [exact M2 | exact B2]].
    eapply touched_mono; [exact M1 | exact B1].
Qed.

Lemma buildWalls_painted (st : State) (s : World * Z) :
  painted (wallSite (grid st)) (fst s) (fst (buildWalls Math_sin st s)).
Proof.
  assert (Hstep : forall s p, In p rowMajor ->
            touched (wallSite (grid st)) (fst s) (fst (buildCellWalls Math_sin (grid st) s p))).
  { intros s' [gx gy] Hp. apply rowMajor_In in Hp.
    eapply touched_mono; [|apply (buildCellWalls_painted _ _ _ _ Hp)].
    intros p (d & i & y & Hd & Hi & Hy & ->). exists gx, gy, d, i, y. auto. }
  unfold buildWalls. split.
  - intros p (gx & gy & d & i & y & Hv & Hd & Hi & Hy & ->).
    apply (fold_left_wallBlockAt (wallSite (grid st))) with (x := (gx, gy)).
    + exact Hstep.
    + now apply rowMajor_In.
    + intros s'. apply (buildCellWalls_painted _ _ _ _ Hv). exists d, i, y. auto.
  - apply fold_left_touched. exact Hstep.
Qed.

End BuildWalls.

(** ** Where the wall blocks can be *)

Lemma wallSite_inv (g : Grid) (x y z : Z) :
  wallSite g (x, y, z) ->
  1 <= y <= WALL_HEIGHT /\
  0 <= x <= MAZE_SIZE * PATH_WIDTH /\ 0 <= z <= MAZE_SIZE * PATH_WIDTH /\
  (x mod PATH_WIDTH = 0 \/ z mod PATH_WIDTH = 0).
Proof.
  intros (gx & gy & d & i & h & Hv & _ & Hi & Hh & E).
  apply isValidCell_true in Hv. unfold MAZE_SIZE, PATH_WIDTH in *.
  destruct d; cbn [wallBlock] in E; unfold PATH_WIDTH in E; inversion E; subst;
    (split; [lia|]); (split; [lia|]); (split; [lia|]).
  - right. apply Z_mod_mult.
  - left. replace (gx * 4 + 4) with ((gx + 1) * 4) by lia. apply Z_mod_mult.
  - right. replace (gy * 4 + 4) with ((gy + 1) * 4) by lia. apply Z_mod_mult.
  - left. apply Z_mod_mult.
Qed.

Lemma wallSite_edge (g : Grid) (x y : Z) (d : WallDirection) (i h : Z) :
  1 <= i < PATH_WIDTH ->
  wallSite g (wallBlock x y d i h) ->
  (isValidCell x y = true /\ wallAt g x y d = Some true) \/
  (isValidCell (x + dir_x (dirOf d)) (y + dir_y (dirOf d)) = true /\
   wallAt g (x + dir_x (dirOf d)) (y + dir_y (dirOf d)) (opposite (dirOf d)) = Some true).
Proof.
  intros Hi (gx & gy & d' & i' & h' & Hv & Hw & Hi' & Hh' & E).
  unfold PATH_WIDTH in *.
  destruct d, d'; cbn [wallBlock] in E; unfold PATH_WIDTH in E; inversion E;
    try (exfalso; lia);
    cbn [dirOf dir_x dir_y opposite];
    first [ assert (gx = x /\ gy = y) as [-> ->] by lia; left; split; assumption
          | right;
            match goal with
            | |- isValidCell ?a ?b = true /\ _ =>
              assert (gx = a /\ gy = b) as [-> ->] by lia; split; assumption
            end ].
Qed.

Lemma floorSite_height (st : State) (x y z : Z) : floorSite st (x, y, z) -> y = 0.
Proof. now intros [H _]. Qed.

Section BuiltWorld.

Variable Math_sin : Z -> Q.

(** The walls of [buildMaze]: every block of every wall that is set. *)
Lemma buildMazeWorld_walls (st : State) (w : World) (s : Z) (p : Z * Z * Z) :
  wallSite (grid st) p -> wallBlockAt (fst (buildMazeWorld Math_sin st (w, s))) p.
Proof.
  unfold buildMazeWorld. cbn [fst snd].
  apply (buildWalls_painted Math_sin st (buildBasePlate st w, s)).
Qed.

(** The walls are built after the floor and above it. *)
Lemma buildMazeWorld_floor (st : State) (w : World) (s : Z) (p : Z * Z * Z) :
  floorSite st p -> fst (buildMazeWorld Math_sin st (w, s)) !! p = Some FLOOR_BLOCK_ID.
Proof.
  intros Hfl. unfold buildMazeWorld. cbn [fst snd].
  destruct (buildWalls_painted Math_sin st (buildBasePlate st w, s)) as [_ Ht].
  cbn [fst] in Ht.
  destruct (Ht p) as [-> | [Hs _]]; [now apply buildBasePlate_spec|].
  destruct p as [[x y] z]. apply wallSite_inv in Hs. apply floorSite_height in Hfl.
  unfold WALL_HEIGHT in Hs. lia.
Qed.

(** Nothing else is written. *)
Lemma buildMazeWorld_frame (st : State) (w : World) (s : Z) (p : Z * Z * Z) :
  ~ wallSite (grid st) p -> ~ floorSite st p ->
  fst (buildMazeWorld Math_sin st (w, s)) !! p = w !! p.
Proof.
  intros Hs Hfl. unfold buildMazeWorld. cbn [fst snd].
  destruct (buildWalls_painted Math_sin st (buildBasePlate st w, s)) as [_ Ht].
  cbn [fst] in Ht.
  destruct (Ht p) as [-> | [Hs' _]]; [now apply buildBasePlate_spec | contradiction].
Qed.

(** X6. The blocks [buildMaze] leaves in the world: one of the four wall
    blocks at every block position of every wall flag that is set on an
    in-bounds cell, the floor block on the whole footprint of the maze and on
    the two platforms -- the walls never overwrite the floor -- and, at every
    other position, the block that was there before. *)
Theorem buildMazeWorld_blocks (st : State) (w : World) (s : Z) (p : Z * Z * Z) :
  let w' := fst (buildMazeWorld Math_sin st (w, s)) in
  (wallSite (grid st) p -> wallBlockAt w' p) /\
  (floorSite st p -> w' !! p = Some FLOOR_BLOCK_ID) /\
  (~ wallSite (grid st) p -> ~ floorSite st p -> w' !! p = w !! p).
Proof.
  cbn zeta. split; [apply buildMazeWorld_walls|].
  split; [apply buildMazeWorld_floor | apply buildMazeWorld_frame].
Qed.

(** X7. [buildMaze] places no block inside a cell: above or below the floor
    layer, a position whose two horizontal coordinates are both off the
    4-block lattice of the walls keeps the block it had. *)
Theorem buildMazeWorld_cell_interior (st : State) (w : World) (s : Z) (x y z : Z) :
  y <> 0 -> x mod PATH_WIDTH <> 0 -> z mod PATH_WIDTH <> 0 ->
  fst (buildMazeWorld Math_sin st (w, s)) !! (x, y, z) = w !! (x, y, z).
Proof.
  intros Hy Hx Hz. apply (buildMazeWorld_frame st w s (x, y, z)).
  - intros Hs. apply wallSite_inv in Hs. tauto.
  - intros Hf. apply floorSite_height in Hf. contradiction.
Qed.

(** The inner columns of an open side belong to no wall. *)
Lemma open_side_no_wallSite (g : Grid) (x y : Z) (d : WallDirection) (i h : Z) :
  wallAt g x y d <> Some true ->
  (isValidCell (x + dir_x (dirOf d)) (y + dir_y (dirOf d)) = true ->
   wallAt g (x + dir_x (dirOf d)) (y + dir_y (dirOf d)) (opposite (dirOf d)) <> Some true) ->
  1 <= i < PATH_WIDTH ->
  ~ wallSite g (wallBlock x y d i h).
Proof.
  intros H1 H2 Hi Hs.
  apply wallSite_edge in Hs as [[_ Hs] | [Hv Hs]]; [| | exact Hi]; auto.
  now apply H2.
Qed.

Lemma wallBlock_not_floor (st : State) (x y : Z) (d : WallDirection) (i h : Z) :
  h <> 0 -> ~ floorSite st (wallBlock x y d i h).
Proof. intros Hh Hf. destruct d; apply floorSite_height in Hf; contradiction. Qed.

(** X8. An open side of a cell is open in the world: when neither the
    flag [d] of the cell [(x, y)] nor the facing flag of an in-bounds
    neighbour is set, the three inner columns of blocks on that side of the
    cell keep, at every height off the floor layer, the block they had. *)
Theorem buildMazeWorld_gap_open (st : State) (w : World) (s : Z)
    (x y : Z) (d : WallDirection) (i h : Z) :
  wallAt (grid st) x y d <> Some true ->
  (isValidCell (x + dir_x (dirOf d)) (y + dir_y (dirOf d)) = true ->
   wallAt (grid st) (x + dir_x (dirOf d)) (y + dir_y (dirOf d)) (opposite (dirOf d))
     <> Some true) ->
  1 <= i < PATH_WIDTH -> h <> 0 ->
  fst (buildMazeWorld Math_sin st (w, s)) !! wallBlock x y d i h = w !! wallBlock x y d i h.
Proof.
  intros H1 H2 Hi Hh. apply (buildMazeWorld_frame st w s).
  - now apply open_side_no_wallSite.
  - now apply wallBlock_not_floor.
Qed.

(** X10. The positions [getEntrance] and [getExit] return stand on the
    platforms: for an entrance and an exit column inside the grid, the block
    under each is a floor block of the built world, and the block each
    stands in is left as it was. *)
Theorem anchors_on_platforms (st : State) (w : World) (s : Z) :
  0 <= fst (entrance st) < MAZE_SIZE -> 0 <= fst (exit st) < MAZE_SIZE ->
  let w' := fst (buildMazeWorld Math_sin st (w, s)) in
  w' !! blockBelow (fst (getEntrance st)) = Some FLOOR_BLOCK_ID /\
  w' !! blockBelow (getExit st) = Some FLOOR_BLOCK_ID /\
  w' !! blockOf (fst (getEntrance st)) = w !! blockOf (fst (getEntrance st)) /\
  w' !! blockOf (getExit st) = w !! blockOf (getExit st).
Proof.
  intros He Hx. cbn zeta.
  assert (Ec : forall c : Z,
            Qfloor (inject_Z c * inject_Z PATH_WIDTH + inject_Z PATH_WIDTH / 2)
            = c * PATH_WIDTH + 2).
  { intros c. unfold PATH_WIDTH.
    assert (E2 : (inject_Z 4 / 2 == 2)%Q) by reflexivity.
    apply Qfloor_between; rewrite !inject_Z_plus, inject_Z_mult, ?E2;
      change (inject_Z 4) with 4%Q; change (inject_Z 2) with 2%Q;
      change (inject_Z 1) with 1%Q; lra. }
  assert (Een : Qfloor (- inject_Z PLATFORM_DEPTH / 2) = -5) by reflexivity.
  assert (Eex : Qfloor (inject_Z (MAZE_SIZE * PATH_WIDTH) + inject_Z PLATFORM_DEPTH / 2) = 205)
    by reflexivity.
  unfold blockBelow, blockOf, getEntrance, getExit. cbn [fst vx vy vz].
  rewrite !Ec, Een, Eex. change (Qfloor 1) with 1. change (1 - 1) with 0.
  unfold MAZE_SIZE, PATH_WIDTH in *.
  repeat split.
  - apply (buildMazeWorld_floor st w s). unfold floorSite, MAZE_SIZE, PATH_WIDTH, PLATFORM_DEPTH.
    split; [reflexivity|]. right; left. lia.
  - apply (buildMazeWorld_floor st w s). unfold floorSite, MAZE_SIZE, PATH_WIDTH, PLATFORM_DEPTH.
    split; [reflexivity|]. right; right. lia.
  - apply (buildMazeWorld_frame st w s).
    + intros Hs. apply wallSite_inv in Hs. lia.
    + intros Hf. apply floorSite_height in Hf. lia.
  - apply (buildMazeWorld_frame st w s).
    + intros Hs. apply wallSite_inv in Hs. unfold MAZE_SIZE, PATH_WIDTH in Hs. lia.
    + intros Hf. apply floorSite_height in Hf. lia.
Qed.

End BuiltWorld.

Lemma sampleMaze_shape :
  wfGrid (grid sampleMaze) /\ allVisited (grid sampleMaze) /\
  entrance sampleMaze = (25, 0) /\ exit sampleMaze = (25, 49) /\
  wallAt (grid sampleMaze) 25 0 top = Some false /\
  wallAt (grid sampleMaze) 25 49 bottom = Some false.
Proof.
  destruct (generateMaze_built sample_sin 12345 buildFuel (constructor 12345) (Nat.le_refl _))
    as (st' & Hg & Hwf & Hall & He & Hx & _ & Ht & Hb).
  rewrite sampleMaze_generated in Hg. apply (inj Some) in Hg. subst st'.
  apply wallAbsent_wallAt in Ht, Hb.
  exact (conj Hwf (conj Hall (conj He (conj Hx (conj Ht Hb))))).
Qed.

Lemma buildMazeWorld_cell_interior_witness :
  fst (buildMazeWorld sample_sin sampleMaze (∅, BLOCK_SEED)) !! (101, 1, 1)
  = (∅ : World) !! (101, 1, 1).
Proof.
  apply (buildMazeWorld_cell_interior sample_sin sampleMaze ∅ BLOCK_SEED 101 1 1);
    vm_compute; discriminate.
Defined.

Lemma buildMazeWorld_gap_open_witness :
  fst (buildMazeWorld sample_sin sampleMaze (∅, BLOCK_SEED)) !! wallBlock 25 0 top 1 1
  = (∅ : World) !! wallBlock 25 0 top 1 1.
Proof.
  apply (buildMazeWorld_gap_open sample_sin sampleMaze ∅ BLOCK_SEED 25 0 top 1 1).
  - destruct sampleMaze_shape as (_ & _ & _ & _ & -> & _). discriminate.
  - intros H. vm_compute in H. discriminate H.
  - unfold PATH_WIDTH. lia.
  - discriminate.
Defined.

Lemma anchors_on_platforms_witness :
  let w' := fst (buildMazeWorld sample_sin sampleMaze (∅, BLOCK_SEED)) in
  w' !! blockBelow (fst (getEntrance sampleMaze)) = Some FLOOR_BLOCK_ID /\
  w' !! blockBelow (getExit sampleMaze) = Some FLOOR_BLOCK_ID /\
  w' !! blockOf (fst (getEntrance sampleMaze)) = (∅ : World) !! blockOf (fst (getEntrance sampleMaze)) /\
  w' !! blockOf (getExit sampleMaze) = (∅ : World) !! blockOf (getExit sampleMaze).
Proof.
  apply (anchors_on_platforms sample_sin sampleMaze ∅ BLOCK_SEED);
    [ destruct sampleMaze_shape as (_ & _ & -> & _)
    | destruct sampleMaze_shape as (_ & _ & _ & -> & _) ];
    cbn [fst]; unfold MAZE_SIZE; lia.
Defined.


(** * Beyond the claims: the callers of the query layer *)

Section Placement.

Variable Math_sin : Z -> Q.

Lemma sameMaze_refl (st : State) : sameMaze st st.
Proof. repeat split. Qed.

Lemma sameMaze_set_seed (s : Z) (st st' : State) :
  sameMaze st st' -> sameMaze st (set_seed s st').
Proof. intros H. exact H. Qed.

Lemma sameMaze_farCentre (st st' : State) (r : Q) (p : Vec3) :
  sameMaze st st' -> farCentre st' r p -> farCentre st r p.
Proof.
  intros (Hg & He & Hx & Hw) (c & (Hv & Hc) & Hf & ->).
  exists c. unfold walkable, farFromBoth, getCellCenter in *.
  rewrite Hg in Hc. rewrite He, Hx in Hf. rewrite Hw. auto.
Qed.

Lemma sameMaze_ready (st st' : State) (r : Q) :
  sameMaze st st' ->
  (exists c, walkable st c /\ farFromBoth st r c) ->
  exists c, walkable st' c /\ farFromBoth st' r c.
Proof.
  intros (Hg & He & Hx & Hw) (c & Hc & Hf). exists c.
  unfold walkable, farFromBoth in *. rewrite Hg, He, Hx. auto.
Qed.

(** A draw on a maze with a far walkable cell. *)
Lemma getRandomWalkablePosition_far (r : Q) (st : State) :
  (0 < r)%Q -> (exists c, walkable st c /\ farFromBoth st r c) ->
  exists p, getRandomWalkablePosition Math_sin r st
            = (Some p, set_seed (currentSeed st + 1) st) /\ farCentre st r p.
Proof.
  intros Hr (c0 & Hw0 & Hf0).
  destruct (getRandomWalkablePosition_cases Math_sin r st)
    as [[Hnil _] | (_ & c & E & Hin & Hfar)].
  - apply getAllWalkableCells_In in Hw0. rewrite Hnil in Hw0. destruct Hw0.
  - exists (getCellCenter st (fst c) (snd c)). split; [exact E|].
    assert (Hin0 : In c0 (List.filter (farFromEnds st r) (getAllWalkableCells st))).
    { apply filter_In. split; [now apply getAllWalkableCells_In | now apply farFromEnds_true]. }
    assert (Hc : In c (List.filter (farFromEnds st r) (getAllWalkableCells st))).
    { apply Hfar; [exact Hr|]. intros E0. rewrite E0 in Hin0. destruct Hin0. }
    apply filter_In in Hc as [Hc1 Hc2]. exists c.
    split; [now apply getAllWalkableCells_In|]. split; [now apply farFromEnds_true | reflexivity].
Qed.

(** The centre of a walkable cell passes the check of [placeItemSafely]. *)
Lemma placeItemSafely_centre (st : State) (c : Z * Z) (potions : list Potion) :
  walkable st c ->
  placeItemSafely st (getCellCenter st (fst c) (snd c)) potions
  = (Some (getCellCenter st (fst c) (snd c)),
     potions ++ [mkPotion (getCellCenter st (fst c) (snd c)) true]).
Proof.
  intros [Hv Hc]. unfold placeItemSafely.
  rewrite (isWalkablePath_cell_centre st (fst c) (snd c) _ Hv).
  apply visitedAt_Some in Hc. rewrite Hc. reflexivity.
Qed.

Lemma placeRandomPotionsStep_far (st : State) (potions : list Potion) (placed : list Vec3) :
  (exists c, walkable st c /\ farFromBoth st 3 c) ->
  exists p, farCentre st 3 p /\
    placeRandomPotionsStep Math_sin (st, potions, placed)
    = (set_seed (currentSeed st + 1) st, potions ++ [mkPotion p true], placed ++ [p]).
Proof.
  intros Hready.
  destruct (getRandomWalkablePosition_far 3 st eq_refl Hready) as (p & E & Hp).
  exists p. split; [exact Hp|].
  unfold placeRandomPotionsStep. rewrite E.
  destruct Hp as (c & Hc & _ & ->).
  change (getCellCenter st (fst c) (snd c))
    with (getCellCenter (set_seed (currentSeed st + 1) st) (fst c) (snd c)).
  rewrite (placeItemSafely_centre (set_seed (currentSeed st + 1) st) c potions Hc).
  reflexivity.
Qed.

Lemma placeRandomPotions_iter (count : nat) (st : State) (potions : list Potion) :
  (exists c, walkable st c /\ farFromBoth st 3 c) ->
  exists st' placed,
    Nat.iter count (placeRandomPotionsStep Math_sin) (st, potions, [])
    = (st', potions ++ map (fun p => mkPotion p true) placed, placed) /\
    length placed = count /\ Forall (farCentre st 3) placed /\
    sameMaze st st' /\ currentSeed st' = currentSeed st + Z.of_nat count.
Proof.
  intros Hready. induction count as [|n IH].
  - exists st, []. cbn [Nat.iter map length]. rewrite app_nil_r.
    repeat split; [constructor | lia].
  - destruct IH as (st1 & placed & E & Hlen & Hall & Hsame & Hseed).
    rewrite Nat.iter_succ, E.
    destruct (placeRandomPotionsStep_far st1 (potions ++ map (fun p => mkPotion p true) placed)
                placed (sameMaze_ready st st1 3 Hsame Hready)) as (p & Hp & ->).
    exists (set_seed (currentSeed st1 + 1) st1), (placed ++ [p]).
    rewrite map_app, app_assoc. cbn [map]. split; [reflexivity|].
    split; [rewrite length_app; cbn; lia|].
    split; [apply Forall_app; split; [exact Hall | constructor; [|constructor]];
            now apply (sameMaze_farCentre st st1)|].
    split; [exact Hsame|]. cbn [currentSeed set_seed]. lia.
Qed.


Lemma spawnZombies_iter (n : nat) (st : State) :
  (exists c, walkable st c /\ farFromBoth st 3 c) ->
  exists st' ps,
    Nat.iter n (spawnZombiesStep Math_sin) (st, [])
    = (st', map (fun p => mkVec3 (vx p) (vy p + (1 # 2)) (vz p)) ps) /\
    length ps = n /\ Forall (farCentre st 3) ps /\
    sameMaze st st' /\ currentSeed st' = currentSeed st + Z.of_nat n.
Proof.
  intros Hready. induction n as [|n IH].
  - exists st, []. cbn [Nat.iter map length]. repeat split; [constructor | lia].
  - destruct IH as (st1 & ps & E & Hlen & Hall & Hsame & Hseed).
    rewrite Nat.iter_succ, E. unfold spawnZombiesStep at 1.
    destruct (getRandomWalkablePosition_far 3 st1 eq_refl (sameMaze_ready st st1 3 Hsame Hready))
      as (p & Ep & Hp).
    change ZOMBIE_SPAWN_EXCLUSION_RADIUS with 3%Q. rewrite Ep.
    exists (set_seed (currentSeed st1 + 1) st1), (ps ++ [p]).
    rewrite map_app. cbn [map]. split; [reflexivity|].
    split; [rewrite length_app; cbn; lia|].
    split; [apply Forall_app; split; [exact Hall | constructor; [|constructor]];
            now apply (sameMaze_farCentre st st1)|].
    split; [exact Hsame|]. cbn [currentSeed set_seed]. lia.
Qed.


Variable FIXED_SEED : Z.

(** A generated maze has walkable cells farther than [r] from both ends, for
    every [r] below 49. *)
Lemma allVisited_ready (st : State) (r : Q) :
  allVisited (grid st) ->
  entrance st = (MAZE_SIZE / 2, 0) -> exit st = (MAZE_SIZE / 2, MAZE_SIZE - 1) ->
  (r < 49)%Q ->
  exists c, walkable st c /\ farFromBoth st r c.
Proof.
  intros Hall He Hx Hr. exists (0, 24). split.
  - split; [reflexivity|]. now apply Hall.
  - unfold farFromBoth. rewrite He, Hx.
    change (inject_Z (manhattan (0, 24) (MAZE_SIZE / 2, 0))) with 49%Q.
    change (inject_Z (manhattan (0, 24) (MAZE_SIZE / 2, MAZE_SIZE - 1))) with 50%Q.
    split; lra.
Qed.

Lemma placeItemSafely_walkable (st : State) (x z : Z) (p : Vec3) (potions : list Potion) :
  walkable st (x, z) ->
  vx p = vx (getCellCenter st x z) -> vz p = vz (getCellCenter st x z) ->
  placeItemSafely st p potions = (Some p, potions ++ [mkPotion p true]).
Proof.
  intros [Hv Hc] Ex Ez. unfold placeItemSafely. rewrite Ex, Ez.
  rewrite (isWalkablePath_cell_centre st x z _ Hv).
  apply visitedAt_Some in Hc. cbn [fst snd] in Hc. rewrite Hc. reflexivity.
Qed.

Lemma Forall_farCentre_walkable (st : State) (r : Q) (ps : list Vec3) :
  Forall (farCentre st r) ps ->
  Forall (fun p => isWalkablePath st (vx p) (vy p) (vz p) = true) ps.
Proof.
  intros H. eapply Forall_impl; [exact H|]. intros p (c & [Hv Hc] & _ & ->).
  rewrite (isWalkablePath_cell_centre st _ _ _ Hv). now apply visitedAt_Some.
Qed.

(** X21. The start of the server places everything it sets out to place:
    with enough fuel for the carving, the maze is generated, both entrance
    potions, all 150 random potions and the extra one pass the walkability
    check, so that [potions] ends with 153 active entries, each on a walkable
    position; all 100 zombies are spawned; and the seed counter ends 251
    draws after the generation, on the grid that was generated. *)
Theorem startServer_places_everything (fuel : nat) :
  (buildFuel <= fuel)%nat ->
  exists st0 st' potions zombies,
    generateMaze Math_sin FIXED_SEED fuel (constructor FIXED_SEED) = Some st0 /\
    startServer Math_sin FIXED_SEED fuel = Some (st', potions, zombies) /\
    length potions = 153%nat /\ length zombies = MAX_ZOMBIES /\
    Forall (fun p => potion_active p = true /\
              isWalkablePath st' (vx (potion_position p)) (vy (potion_position p))
                (vz (potion_position p)) = true) potions /\
    grid st' = grid st0 /\ currentSeed st' = currentSeed st0 + 251.
Proof.
  intros Hfuel.
  destruct (generateMaze_built Math_sin FIXED_SEED fuel (constructor FIXED_SEED) Hfuel)
    as (st0 & Hg & Hwf & Hall & He & Hx & _ & _).
  unfold startServer. rewrite Hg.
  set (st1 := snd (getEntrance (buildMaze st0))).
  set (e := fst (getEntrance (buildMaze st0))).
  change (getEntrance (buildMaze st0)) with (e, st1). cbv iota beta.
  assert (Hs1 : sameMaze st0 (set_entranceWorldPosition (entranceWorldPosition st0) st1))
    by (repeat split).
  assert (Hg1 : grid st1 = grid st0) by reflexivity.
  assert (He1 : entrance st1 = (MAZE_SIZE / 2, 0)) by exact He.
  assert (Hx1 : exit st1 = (MAZE_SIZE / 2, MAZE_SIZE - 1)) by exact Hx.
  assert (Hall1 : allVisited (grid st1)) by exact Hall.
  assert (Hw : forall x z, isValidCell x z = true -> walkable st1 (x, z)).
  { intros x z Hv. split; [exact Hv | now apply Hall1]. }
  assert (Hex : vx e = vx (getCellCenter st1 (MAZE_SIZE / 2) 1)).
  { unfold e, getEntrance, getCellCenter. cbn [fst vx].
    change (entrance (buildMaze st0)) with (entrance st0). now rewrite He. }
  (* the two entrance potions *)
  unfold placeWaterPotion at 1.
  rewrite (placeItemSafely_walkable st1 (MAZE_SIZE / 2) 1
             (mkVec3 (vx e) (vy e + 1) (inject_Z PATH_WIDTH + inject_Z PATH_WIDTH / 2)) []
             (Hw (MAZE_SIZE / 2) 1 eq_refl) Hex eq_refl).
  cbn [snd app].
  unfold placeEntrancePotion at 1.
  rewrite (placeItemSafely_walkable st1 (MAZE_SIZE / 2) 0
             (mkVec3 (vx e) (vy e + 1) (inject_Z PATH_WIDTH / 2)) _
             (Hw (MAZE_SIZE / 2) 0 eq_refl) Hex eq_refl).
  cbn [snd app].
  set (p1 := mkPotion _ true). set (p2 := mkPotion _ true).
  (* the random potions *)
  assert (Hready : exists c, walkable st1 c /\ farFromBoth st1 3 c).
  { apply allVisited_ready; [exact Hall1 | exact He1 | exact Hx1 | reflexivity]. }
  destruct (placeRandomPotions_iter 150 st1 [p1; p2] Hready)
    as (st2 & placed & Eit & Hlen & Hplaced & Hs2 & Hseed2).
  unfold placeRandomPotions. rewrite Eit.
  pose proof (sameMaze_ready st1 st2 3 Hs2 Hready) as Hready2.
  unfold placeRandomPotion.
  destruct (getRandomWalkablePosition_far 3 st2 eq_refl Hready2) as (q & -> & Hq).
  set (st3 := set_seed (currentSeed st2 + 1) st2).
  assert (Hs3 : sameMaze st2 st3) by (repeat split).
  assert (Hqw : placeItemSafely st3 q ([p1; p2] ++ map (fun p => mkPotion p true) placed)
                = (Some q, ([p1; p2] ++ map (fun p => mkPotion p true) placed) ++ [mkPotion q true])).
  { destruct Hq as (c & Hc & _ & ->). destruct c as [cx cz].
    apply (placeItemSafely_walkable st3 cx cz); [exact Hc | reflexivity | reflexivity]. }
  rewrite Hqw. cbn [snd].
  (* the zombies *)
  assert (Hready4 : exists c, walkable (buildMaze st3) c /\ farFromBoth (buildMaze st3) 3 c)
    by exact Hready2.
  destruct (spawnZombies_iter MAX_ZOMBIES (buildMaze st3) Hready4)
    as (st5 & zs & Ezs & Hzlen & _ & Hs5 & Hseed5).
  unfold spawnZombies. rewrite Ezs.
  destruct Hs2 as (Hg2 & He2 & Hx2 & Hw2). destruct Hs5 as (Hg5 & He5 & Hx5 & Hw5).
  cbn [grid buildMaze set_entranceWorldPosition] in Hg5.
  assert (Hg50 : grid st5 = grid st0).
  { rewrite Hg5. unfold st3. cbn [grid set_seed]. now rewrite Hg2. }
  exists st0, st5, (([p1; p2] ++ map (fun p => mkPotion p true) placed) ++ [mkPotion q true]),
    (map (fun p => mkVec3 (vx p) (vy p + (1 # 2)) (vz p)) zs).
  split; [reflexivity|]. split; [reflexivity|].
  split; [rewrite !length_app, length_map, Hlen; reflexivity|].
  split; [now rewrite length_map|].
  split.
  - assert (Hwalk : forall x z p, isValidCell x z = true ->
              vx p = vx (getCellCenter st1 x z) -> vz p = vz (getCellCenter st1 x z) ->
              isWalkablePath st5 (vx p) (vy p) (vz p) = true).
    { intros x z p Hv Ex Ez. rewrite Ex, Ez.
      change (vx (getCellCenter st1 x z)) with (vx (getCellCenter st5 x z)).
      change (vz (getCellCenter st1 x z)) with (vz (getCellCenter st5 x z)).
      rewrite (isWalkablePath_cell_centre st5 x z _ Hv), Hg50.
      apply visitedAt_Some. now apply Hall. }
    apply Forall_app. split; [apply Forall_app; split|].
    + repeat constructor.
      * apply (Hwalk (MAZE_SIZE / 2) 1); [reflexivity | exact Hex | reflexivity].
      * apply (Hwalk (MAZE_SIZE / 2) 0); [reflexivity | exact Hex | reflexivity].
    + apply Forall_map. eapply Forall_impl; [exact Hplaced|].
      intros p (c & [Hv _] & _ & ->). split; [reflexivity|]. cbn [potion_position].
      apply (Hwalk (fst c) (snd c)); [exact Hv | reflexivity | reflexivity].
    + constructor; [|constructor]. split; [reflexivity|]. cbn [potion_position].
      destruct Hq as (c & [Hv _] & _ & ->).
      apply (Hwalk (fst c) (snd c)); [exact Hv | reflexivity | reflexivity].
  - split; [exact Hg50|]. rewrite Hseed5.
    cbn [currentSeed buildMaze set_entranceWorldPosition]. unfold st3. cbn [currentSeed set_seed].
    rewrite Hseed2. unfold st1. cbn [currentSeed getEntrance snd set_entranceWorldPosition buildMaze].
    unfold MAX_ZOMBIES. lia.
Qed.

End Placement.

Lemma sampleMaze_ready : exists c, walkable sampleMaze c /\ farFromBoth sampleMaze 3 c.
Proof.
  destruct sampleMaze_shape as (_ & Hall & He & Hx & _).
  apply allVisited_ready; [exact Hall | exact He | exact Hx | reflexivity].
Qed.



Lemma startServer_places_everything_witness :
  exists st0 st' potions zombies,
    generateMaze sample_sin 12345 buildFuel (constructor 12345) = Some st0 /\
    startServer sample_sin 12345 buildFuel = Some (st', potions, zombies) /\
    length potions = 153%nat /\ length zombies = MAX_ZOMBIES /\
    Forall (fun p => potion_active p = true /\
              isWalkablePath st' (vx (potion_position p)) (vy (potion_position p))
                (vz (potion_position p)) = true) potions /\
    grid st' = grid st0 /\ currentSeed st' = currentSeed st0 + 251.
Proof.
  apply (startServer_places_everything sample_sin 12345 buildFuel). lia.
Defined.

(** * Beyond the claims: the layout and the positions handed out *)

Lemma arr_get_map {A B} (f : A -> B) (l : list A) (i : Z) :
  arr_get (map f l) i = f <$> arr_get l i.
Proof.
  unfold arr_get. destruct (0 <=? i); [|reflexivity].
  generalize (Z.to_nat i). intros n. revert n.
  induction l as [|a l IH]; intros [|n]; cbn; auto.
Qed.

(** X17. [getMazeLayout] and [isWalkableCell] agree: the entry
    [layout[z][x]] is the [visited] flag [isWalkableCell(x, z)] reads, rows
    indexed by [z] and columns by [x], and where the layout has no entry
    [isWalkableCell] is [false]. *)
Theorem getMazeLayout_isWalkableCell (st : State) (x z : Z) :
  layoutAt (getMazeLayout st) x z = (fun cell => visited cell) <$> cellAt (grid st) x z /\
  isWalkableCell st x z = default false (layoutAt (getMazeLayout st) x z).
Proof.
  assert (E : layoutAt (getMazeLayout st) x z
              = (fun cell => visited cell) <$> cellAt (grid st) x z).
  { unfold layoutAt, getMazeLayout, cellAt. rewrite arr_get_map.
    destruct (arr_get (grid st) z) as [row|]; cbn [fmap option_fmap option_map]; [|reflexivity].
    apply arr_get_map. }
  split; [exact E|]. rewrite E. unfold isWalkableCell, visitedAt.
  now destruct (cellAt (grid st) x z).
Qed.

Section BuiltQueries.

Variable Math_sin : Z -> Q.
Variable FIXED_SEED : Z.

(** X14. While the server runs (after the build, any queries and further
    builds) [getRandomWalkablePosition] never returns [null], whatever the
    radius: it returns the point [(4 x + 2, 2, 4 z + 2)] for an in-bounds
    cell [(x, z)] and advances the seed counter by one; for a radius between
    0 and 49 the cell is farther than the radius from the entrance [(25, 0)]
    and from the exit [(25, 49)]. In the world built from the maze on an
    empty world, the block the position lies in and the block under it are
    empty, and the floor is two blocks below. *)
Theorem getRandomWalkablePosition_built (r : Q) (st : State) (s : Z) :
  served Math_sin FIXED_SEED st ->
  exists x z p,
    getRandomWalkablePosition Math_sin r st = (Some p, set_seed (currentSeed st + 1) st) /\
    (0 <= x < MAZE_SIZE /\ 0 <= z < MAZE_SIZE) /\
    centreOfCell (x, z) p /\ (vy p == 2)%Q /\
    ((0 < r)%Q -> (r < 49)%Q ->
     fartherThan r (x, z) (25, 0) /\ fartherThan r (x, z) (25, 49)) /\
    let w := fst (buildMazeWorld Math_sin st (∅, s)) in
    blockOf p = (4 * x + 2, 2, 4 * z + 2) /\
    w !! (4 * x + 2, 2, 4 * z + 2) = None /\
    w !! (4 * x + 2, 1, 4 * z + 2) = None /\
    w !! (4 * x + 2, 0, 4 * z + 2) = Some FLOOR_BLOCK_ID.
Proof.
  intros Hs. destruct (served_facts _ _ _ Hs) as (Hwf & Hall & He & Hx & Hy).
  destruct (getRandomWalkablePosition_cases Math_sin r st)
    as [[Hnil _] | (_ & c & E & Hin & Hfar)].
  { exfalso. assert (H0 : walkable st (0, 0)) by (split; [reflexivity | now apply Hall]).
    apply getAllWalkableCells_In in H0. rewrite Hnil in H0. destruct H0. }
  destruct c as [x z]. cbn [fst snd] in E.
  exists x, z, (getCellCenter st x z).
  apply getAllWalkableCells_In in Hin as Hc. destruct Hc as [Hv _]. cbn [fst snd] in Hv.
  apply isValidCell_true in Hv.
  split; [exact E|]. split; [exact Hv|].
  split; [apply centreOfCell_getCellCenter|].
  split; [unfold getCellCenter; cbn [vy]; rewrite Hy; reflexivity|]. split.
  { intros H0 H49.
    destruct (allVisited_ready st r Hall He Hx H49) as (c0 & Hw0 & Hf0).
    assert (Hin0 : In c0 (List.filter (farFromEnds st r) (getAllWalkableCells st))).
    { apply filter_In. split; [now apply getAllWalkableCells_In | now apply farFromEnds_true]. }
    assert (Hc : In (x, z) (List.filter (farFromEnds st r) (getAllWalkableCells st))).
    { apply Hfar; [exact H0|]. intros E0. rewrite E0 in Hin0. destruct Hin0. }
    apply filter_In in Hc as [_ Hc]. apply farFromEnds_true in Hc.
    unfold farFromBoth in Hc. rewrite He, Hx in Hc. exact Hc. }
  cbn zeta.
  assert (Ec : forall k : Z,
            Qfloor (inject_Z k * inject_Z PATH_WIDTH + inject_Z PATH_WIDTH / 2)
            = 4 * k + 2).
  { intros k. unfold PATH_WIDTH.
    assert (E2 : (inject_Z 4 / 2 == 2)%Q) by reflexivity.
    apply Qfloor_between; rewrite !inject_Z_plus, inject_Z_mult, ?E2;
      change (inject_Z 4) with 4%Q; change (inject_Z 2) with 2%Q;
      change (inject_Z 1) with 1%Q; lra. }
  assert (Hm : forall k, (4 * k + 2) mod PATH_WIDTH <> 0).
  { intros k. unfold PATH_WIDTH. rewrite Z.add_comm, Z.mul_comm, Z_mod_plus_full. discriminate. }
  assert (Hfree : forall h, h <> 0 ->
            fst (buildMazeWorld Math_sin st (∅, s)) !! (4 * x + 2, h, 4 * z + 2) = None).
  { intros h Hh. rewrite (buildMazeWorld_frame Math_sin st ∅ s); [apply lookup_empty | |].
    - intros Hsite. apply wallSite_inv in Hsite.
      destruct Hsite as (_ & _ & _ & [Hsite | Hsite]); now apply Hm in Hsite.
    - intros Hf. apply floorSite_height in Hf. contradiction. }
  split; [|split; [|split]].
  - unfold blockOf, getCellCenter. cbn [vx vy vz]. rewrite !Ec, Hy. reflexivity.
  - apply Hfree. discriminate.
  - apply Hfree. discriminate.
  - apply (buildMazeWorld_floor Math_sin st ∅ s). unfold floorSite. split; [reflexivity|]. left.
    unfold MAZE_SIZE, PATH_WIDTH in *. lia.
Qed.

End BuiltQueries.

Lemma built_sampleMaze : built sample_sin 12345 (buildMaze sampleMaze).
Proof. exists buildFuel, sampleMaze. split; [exact sampleMaze_generated | reflexivity]. Qed.

Lemma isWalkablePath_spec_witness :
  isWalkablePath sampleMaze (10 # 1) 1 (- (3 # 1)) = true /\
  isWalkablePath sampleMaze (10 # 1) 1 (6 # 1) = true /\
  isWalkablePath sampleMaze (- MIN_VALUE) 0 (2 # 1) = true /\
  isWalkablePath sampleMaze (- (1 # 1)) 0 (2 # 1) = false.
Proof.
  destruct sampleMaze_shape as (_ & Hall & _).
  assert (Hin : (0 <= 6 # 1)%Q /\ (6 # 1 < inject_Z (MAZE_SIZE * PATH_WIDTH))%Q)
    by (split; [discriminate | reflexivity]).
  assert (Hin2 : (0 <= 2 # 1)%Q /\ (2 # 1 < inject_Z (MAZE_SIZE * PATH_WIDTH))%Q)
    by (split; [discriminate | reflexivity]).
  assert (E10 : Qfloor (divPathWidth (10 # 1)) = 2) by (vm_compute; reflexivity).
  assert (E6 : Qfloor (divPathWidth (6 # 1)) = 1) by (vm_compute; reflexivity).
  assert (E2 : Qfloor (divPathWidth (2 # 1)) = 0) by (vm_compute; reflexivity).
  assert (Em : Qfloor (divPathWidth (- MIN_VALUE)) = 0) by (vm_compute; reflexivity).
  assert (E1 : Qfloor (divPathWidth (- (1 # 1))) = -1) by (vm_compute; reflexivity).
  split; [| split; [| split]].
  - apply (proj1 (isWalkablePath_spec sampleMaze (10 # 1) 1 (- (3 # 1)))).
    left. reflexivity.
  - pose proof (proj1 (proj2 (isWalkablePath_spec sampleMaze (10 # 1) 1 (6 # 1))) Hin) as [H _].
    cbv zeta in H. rewrite E10, E6 in H. apply H.
    split; [split; split; (reflexivity || discriminate) |]. apply Hall. reflexivity.
  - pose proof (proj1 (proj2 (isWalkablePath_spec sampleMaze (- MIN_VALUE) 0 (2 # 1))) Hin2)
      as [H _].
    cbv zeta in H. rewrite Em, E2 in H. apply H.
    split; [split; split; (reflexivity || discriminate) |]. apply Hall. reflexivity.
  - pose proof (proj1 (proj2 (isWalkablePath_spec sampleMaze (- (1 # 1)) 0 (2 # 1))) Hin2)
      as (_ & H & _).
    cbv zeta in H. rewrite E1, E2 in H. apply H. intros [[H0 _] _]. apply H0. reflexivity.
Defined.

Lemma getRandomWalkablePosition_contract_witness :
  exists c p, fst (getRandomWalkablePosition sample_sin 3 sampleMaze) = Some p /\
    centreOfCell c p /\ walkable sampleMaze c /\
    fartherThan 3 c (25, 0) /\ fartherThan 3 c (25, 49).
Proof.
  destruct sampleMaze_shape as (_ & _ & He & Hx & _).
  pose proof (getRandomWalkablePosition_contract sample_sin 3 sampleMaze eq_refl) as H.
  cbv zeta in H. destruct H as (H & _).
  destruct H as (c & p & Hr & Hc & Hw & Hf1 & Hf2).
  - destruct sampleMaze_ready as (c0 & Hw0 & Hf0). exists c0.
    unfold farFromBoth, manhattan in Hf0. unfold fartherThan.
    split; [exact Hw0 | exact Hf0].
  - rewrite He in Hf1. rewrite Hx in Hf2. exists c, p.
    split; [exact Hr |]. split; [exact Hc |]. split; [exact Hw |].
    split; [exact Hf1 | exact Hf2].
Defined.

Lemma served_sampleServed : served sample_sin 12345 sampleServed.
Proof. apply served_query, served_query, served_built, built_sampleMaze. Qed.

Lemma getRandomWalkablePosition_built_witness :
  exists x z p,
    getRandomWalkablePosition sample_sin 3 sampleServed
    = (Some p, set_seed (currentSeed sampleServed + 1) sampleServed) /\
    (0 <= x < MAZE_SIZE /\ 0 <= z < MAZE_SIZE) /\
    centreOfCell (x, z) p /\ (vy p == 2)%Q /\
    ((0 < 3)%Q -> (3 < 49)%Q ->
     fartherThan 3 (x, z) (25, 0) /\ fartherThan 3 (x, z) (25, 49)) /\
    let w := fst (buildMazeWorld sample_sin sampleServed (∅, BLOCK_SEED)) in
    blockOf p = (4 * x + 2, 2, 4 * z + 2) /\
    w !! (4 * x + 2, 2, 4 * z + 2) = None /\
    w !! (4 * x + 2, 1, 4 * z + 2) = None /\
    w !! (4 * x + 2, 0, 4 * z + 2) = Some FLOOR_BLOCK_ID.
Proof.
  apply (getRandomWalkablePosition_built sample_sin 12345 3 sampleServed BLOCK_SEED).
  exact served_sampleServed.
Defined.

(** * Beyond the claims: the cells [createPatternMaze] marks *)

Lemma visitedAt_markVisited (g : Grid) (x y x' y' : Z) :
  0 <= x -> 0 <= y -> is_Some (cellAt g x y) ->
  visitedAt (updCell g x y markVisited) x' y'
  = visitedAt g x' y' || ((x' =? x) && (y' =? y)).
Proof.
  intros Hx Hy Hc. destruct (decide ((x', y') = (x, y))) as [E | E].
  - inversion E; subst. rewrite visitedAt_markVisited_eq by assumption.
    rewrite !Z.eqb_refl. now destruct (visitedAt g x y).
  - rewrite visitedAt_markVisited_ne by assumption.
    destruct (Z.eqb_spec x' x), (Z.eqb_spec y' y); subst; cbn [andb];
      try (now rewrite orb_false_r). congruence.
Qed.

Lemma patternRow_visited (g : Grid) (currentCol row : Z) :
  wfGrid g -> 0 <= currentCol < MAZE_SIZE -> 0 <= row < MAZE_SIZE - 1 ->
  wfGrid (fst (patternRow (g, currentCol) row)) /\
  snd (patternRow (g, currentCol) row)
  = (if row mod 2 =? 0 then Z.min (currentCol + 1) (MAZE_SIZE - 1)
     else Z.max (currentCol - 1) 0) /\
  forall x y, visitedAt (fst (patternRow (g, currentCol) row)) x y
              = visitedAt g x y || ((x =? currentCol) && (y =? row)).
Proof.
  intros Hwf Hc Hr. unfold patternRow.
  assert (Hv : isValidCell currentCol row = true) by (apply isValidCell_true; lia).
  destruct (wfGrid_cellAt g currentCol row Hwf Hv) as [c Ec]. rewrite Ec.
  set (nextCol := if row mod 2 =? 0 then Z.min (currentCol + 1) (MAZE_SIZE - 1)
                  else Z.max (currentCol - 1) 0).
  assert (Hn : 0 <= nextCol) by (unfold nextCol, MAZE_SIZE in *; destruct (row mod 2 =? 0); lia).
  cbn [fst snd]. split; [|split; [reflexivity|]].
  - repeat first [ apply wfGrid_updCell
                 | match goal with
                   | |- wfGrid (match ?o with _ => _ end) => destruct o
                   | |- wfGrid (if ?b then _ else _) => destruct b
                   end ]; exact Hwf.
  - intros x y.
    rewrite <- (visitedAt_markVisited g currentCol row x y) by (try lia; eauto).
    repeat first [ rewrite visitedAt_removeWall by lia
                 | match goal with
                   | |- context [match ?o with Some _ => _ | None => _ end] =>
                     lazymatch o with cellAt _ _ _ => destruct o end
                   | |- context [if ?b then _ else _] =>
                     lazymatch b with _ <? _ => destruct b end
                   end ]; reflexivity.
Qed.

Lemma fold_patternRow_visited (g : Grid) (n : nat) :
  (n <= 49)%nat -> wfGrid g ->
  let s := fold_left patternRow (map Z.of_nat (seq 0 n)) (g, MAZE_SIZE / 2) in
  wfGrid (fst s) /\ snd s = MAZE_SIZE / 2 + Z.of_nat n mod 2 /\
  forall x y, visitedAt (fst s) x y
              = visitedAt g x y
                || ((0 <=? y) && (y <? Z.of_nat n) && (x =? MAZE_SIZE / 2 + y mod 2)).
Proof.
  intros Hn Hwf. cbn zeta. induction n as [|n IH].
  - cbn [seq map fold_left fst snd]. split; [exact Hwf|]. split; [reflexivity|].
    intros x y. destruct (visitedAt g x y); [reflexivity|]. cbn [orb]. bool_cases.
  - rewrite seq_S, map_app, fold_left_app. cbn [Nat.add map fold_left].
    destruct IH as (Hwf' & Hc & Hvis); [lia|].
    destruct (fold_left patternRow (map Z.of_nat (seq 0 n)) (g, MAZE_SIZE / 2)) as [g' c].
    cbn [fst snd] in *. subst c.
    assert (Hcol : 0 <= MAZE_SIZE / 2 + Z.of_nat n mod 2 < MAZE_SIZE).
    { change (MAZE_SIZE / 2) with 25. unfold MAZE_SIZE.
      Z.to_euclidean_division_equations. lia. }
    assert (Hrow : 0 <= Z.of_nat n < MAZE_SIZE - 1) by (unfold MAZE_SIZE; lia).
    destruct (patternRow_visited g' _ _ Hwf' Hcol Hrow) as (Hwf2 & Hc2 & Hvis2).
    split; [exact Hwf2|]. split.
    + rewrite Hc2. change (MAZE_SIZE / 2) with 25. unfold MAZE_SIZE.
      destruct (Z.eqb_spec (Z.of_nat n mod 2) 0); Z.to_euclidean_division_equations; lia.
    + intros x y. rewrite Hvis2, Hvis. destruct (visitedAt g x y); [reflexivity|].
      cbn [orb]. change (MAZE_SIZE / 2) with 25. bool_cases.
Qed.

(** The [visited] flags after [createPatternMaze]. *)
Lemma createPatternMaze_visitedAt (st : State) (x y : Z) :
  wfGrid (grid st) ->
  visitedAt (grid (createPatternMaze st)) x y = visitedAt (grid st) x y || patternCell x y.
Proof.
  intros Hwf. unfold createPatternMaze.
  change (range (MAZE_SIZE - 1)) with (map Z.of_nat (seq 0 49)).
  destruct (fold_patternRow_visited (grid st) 49 (Nat.le_refl _) Hwf) as (Hwf' & Hc & Hvis).
  destruct (fold_left patternRow (map Z.of_nat (seq 0 49)) (grid st, MAZE_SIZE / 2)) as [g c].
  cbn [fst snd] in *. subst c.
  change (MAZE_SIZE / 2 + Z.of_nat 49 mod 2) with 26.
  assert (Hv : isValidCell 26 (MAZE_SIZE - 1) = true) by reflexivity.
  destruct (wfGrid_cellAt g 26 (MAZE_SIZE - 1) Hwf' Hv) as [c Ec].
  assert (Er : is_Some (arr_get g (MAZE_SIZE - 1))).
  { unfold cellAt in Ec. destruct (arr_get g (MAZE_SIZE - 1)); [eauto | discriminate]. }
  destruct Er as [row ->].
  change (negb (26 =? MAZE_SIZE / 2)) with true. cbv iota.
  change (if 26 <? MAZE_SIZE / 2 then 1 else -1) with (-1).
  change (colsToward 26 (MAZE_SIZE / 2) (-1)) with [26].
  cbn [fold_left grid set_grid]. unfold patternLastStep. rewrite Ec.
  change (0 <? -1) with false. cbv iota.
  transitivity (visitedAt (updCell g 26 (MAZE_SIZE - 1) markVisited) x y).
  - repeat first [ rewrite visitedAt_removeWall by (unfold MAZE_SIZE; lia)
                 | match goal with
                   | |- context [match ?o with Some _ => _ | None => _ end] =>
                     lazymatch o with cellAt _ _ _ => destruct o end
                   end ]; reflexivity.
  - rewrite visitedAt_markVisited by (try (unfold MAZE_SIZE; lia); eauto).
    rewrite Hvis. unfold patternCell. change (MAZE_SIZE / 2 + 1) with 26.
    change (Z.of_nat 49) with (MAZE_SIZE - 1). now rewrite orb_assoc.
Qed.

(** X23. The cells [createPatternMaze] makes walkable on a 50 by 50 grid:
    in each of the rows 0 to 48 the cell in column 25 (even rows) or 26 (odd
    rows), and in the last row the cell in column 26; [isWalkableCell] is
    unchanged everywhere else. *)
Theorem createPatternMaze_visited (st : State) (x z : Z) :
  wfGrid (grid st) ->
  isWalkableCell (createPatternMaze st) x z = isWalkableCell st x z || patternCell x z.
Proof.
  intros Hwf. unfold isWalkableCell. now apply createPatternMaze_visitedAt.
Qed.

(** X24. After [createPatternMaze] on a grid with no visited cell, the
    cell of the exit column in the last row is not walkable, and no two
    walkable cells are neighbours: the cells the method marks touch only
    diagonally. *)
Theorem createPatternMaze_isolated (st : State) :
  wfGrid (grid st) -> (forall x y, visitedAt (grid st) x y = false) ->
  let st' := createPatternMaze st in
  isWalkableCell st' (MAZE_SIZE / 2) (MAZE_SIZE - 1) = false /\
  forall p q, isWalkableCell st' (fst p) (snd p) = true ->
              isWalkableCell st' (fst q) (snd q) = true -> manhattan p q <> 1.
Proof.
  intros Hwf Hnone. cbn zeta. unfold isWalkableCell.
  assert (E : forall x y, visitedAt (grid (createPatternMaze st)) x y = patternCell x y).
  { intros x y. now rewrite createPatternMaze_visitedAt, Hnone. }
  split; [rewrite E; reflexivity|].
  intros [px py] [qx qy]. cbn [fst snd]. rewrite !E. unfold patternCell, manhattan.
  change (MAZE_SIZE / 2) with 25. change (MAZE_SIZE - 1) with 49. cbn [fst snd].
  intros Hp Hq.
  assert (Hp' : (0 <= py < 49 /\ px = 25 + py mod 2) \/ (px = 26 /\ py = 49)).
  { revert Hp. bool_cases; intros; try discriminate; lia. }
  assert (Hq' : (0 <= qy < 49 /\ qx = 25 + qy mod 2) \/ (qx = 26 /\ qy = 49)).
  { revert Hq. bool_cases; intros; try discriminate; lia. }
  clear Hp Hq. Z.to_euclidean_division_equations. lia.
Qed.

Lemma createPatternMaze_visited_witness :
  isWalkableCell (createPatternMaze (constructor 12345)) 26 49
  = isWalkableCell (constructor 12345) 26 49 || patternCell 26 49.
Proof.
  apply (createPatternMaze_visited (constructor 12345) 26 49). apply wfGrid_freshGrid.
Defined.

Lemma createPatternMaze_isolated_witness :
  let st' := createPatternMaze (constructor 12345) in
  isWalkableCell st' (MAZE_SIZE / 2) (MAZE_SIZE - 1) = false /\
  forall p q, isWalkableCell st' (fst p) (snd p) = true ->
              isWalkableCell st' (fst q) (snd q) = true -> manhattan p q <> 1.
Proof.
  apply (createPatternMaze_isolated (constructor 12345)).
  - apply wfGrid_freshGrid.
  - apply visitedAt_freshGrid.
Defined.

(** * Beyond the claims: the path [createPatternMaze] carves *)

Lemma passage_sym (g : Grid) (p q : Z * Z) : passage g p q -> passage g q p.
Proof.
  intros (dir & Hin & -> & H1 & H2). destruct p as [x y]. cbn [fst snd] in *.
  exists (dirOf (opposite dir)).
  destruct Hin as [<-|[<-|[<-|[<-|[]]]]];
    cbn [dirOf opposite wall dir_x dir_y fst snd] in *;
    (split; [cbn; tauto|]); (split; [f_equal; lia|]); (split; [exact H2|]);
    match goal with
    | |- wallAt g ?a ?b _ = _ => replace a with x by lia; replace b with y by lia
    end; exact H1.
Qed.

Lemma removeWallPair_passage (g : Grid) (x y : Z) (dir : Direction) :
  In dir DIRECTIONS ->
  isValidCell x y = true -> isValidCell (x + dir_x dir) (y + dir_y dir) = true ->
  wfGrid g ->
  passage (removeWallPair g x y (wall dir) (x + dir_x dir) (y + dir_y dir) (opposite dir))
    (x, y) (x + dir_x dir, y + dir_y dir).
Proof.
  intros Hin Hv Hv' Hwf. exists dir. split; [exact Hin|]. split; [reflexivity|].
  cbn [fst snd].
  pose proof (proj1 (isValidCell_true _ _) Hv) as [Hx Hy].
  pose proof (proj1 (isValidCell_true _ _) Hv') as [Hx' Hy'].
  destruct (removeWallPair_wallAt g x y (x + dir_x dir) (y + dir_y dir) (wall dir) (opposite dir))
    as (W1 & W2 & _); try lia; try (now apply wfGrid_cellAt).
  - apply DIRECTIONS_dirOf in Hin. rewrite Hin.
    destruct (wall dir); cbn [dirOf dir_x dir_y]; intros E; inversion E; lia.
  - auto.
Qed.

Lemma patternRow_passages (g : Grid) (currentCol row : Z) :
  wfGrid g -> 0 < currentCol < MAZE_SIZE - 1 -> 0 <= row < MAZE_SIZE - 1 ->
  let g' := fst (patternRow (g, currentCol) row) in
  let nextCol := if row mod 2 =? 0 then currentCol + 1 else currentCol - 1 in
  carved g g' /\ snd (patternRow (g, currentCol) row) = nextCol /\
  passage g' (currentCol, row) (currentCol, row + 1) /\
  passage g' (currentCol, row) (nextCol, row).
Proof.
  intros Hwf Hc Hr. cbn zeta.
  assert (Hc' : 0 <= currentCol < MAZE_SIZE) by lia.
  split; [apply pairCarved_carved; now apply patternRow_pairCarved|].
  unfold patternRow.
  assert (Hv : isValidCell currentCol row = true) by (apply isValidCell_true; lia).
  destruct (wfGrid_cellAt _ _ _ Hwf Hv) as [c Hcell]. rewrite Hcell. cbn [fst snd].
  set (g1 := updCell g currentCol row markVisited).
  assert (Hwf1 : wfGrid g1) by now apply wfGrid_updCell.
  assert (En : (if row mod 2 =? 0 then Z.min (currentCol + 1) (MAZE_SIZE - 1)
                else Z.max (currentCol - 1) 0)
               = (if row mod 2 =? 0 then currentCol + 1 else currentCol - 1)).
  { destruct (row mod 2 =? 0); lia. }
  rewrite En. set (nextCol := if row mod 2 =? 0 then currentCol + 1 else currentCol - 1).
  split; [reflexivity|].
  set (g2 := if currentCol <? nextCol then _ else _).
  assert (H2 : wfGrid g2 /\ passage g2 (currentCol, row) (nextCol, row)).
  { unfold g2, nextCol. destruct (row mod 2 =? 0).
    - rewrite (proj2 (Z.ltb_lt currentCol (currentCol + 1))) by lia.
      assert (Hv' : isValidCell (currentCol + 1) row = true) by (apply isValidCell_true; lia).
      destruct (wfGrid_cellAt _ _ _ (wfGrid_updCell g1 currentCol row (removeWall right) Hwf1) Hv')
        as [c' ->].
      split; [now do 2 apply wfGrid_updCell|].
      pose proof (removeWallPair_passage g1 currentCol row (mkDirection 1 0 right left)) as P.
      cbn [dir_x dir_y wall opposite] in P. replace (row + 0) with row in P by lia.
      apply P; [cbn; tauto | exact Hv | exact Hv' | exact Hwf1].
    - rewrite (proj2 (Z.ltb_ge currentCol (currentCol - 1))) by lia.
      rewrite (proj2 (Z.ltb_lt (currentCol - 1) currentCol)) by lia.
      assert (Hv' : isValidCell (currentCol - 1) row = true) by (apply isValidCell_true; lia).
      destruct (wfGrid_cellAt _ _ _ (wfGrid_updCell g1 currentCol row (removeWall left) Hwf1) Hv')
        as [c' ->].
      split; [now do 2 apply wfGrid_updCell|].
      pose proof (removeWallPair_passage g1 currentCol row (mkDirection (-1) 0 left right)) as P.
      cbn [dir_x dir_y wall opposite] in P. replace (row + 0) with row in P by lia.
      apply P; [cbn; tauto | exact Hv | exact Hv' | exact Hwf1]. }
  destruct H2 as [Hwf2 P2]. clearbody g2.
  assert (Hv' : isValidCell currentCol (row + 1) = true) by (apply isValidCell_true; lia).
  destruct (wfGrid_cellAt _ _ _ (wfGrid_updCell g2 currentCol row (removeWall bottom) Hwf2) Hv')
    as [c' ->].
  pose proof (removeWallPair_passage g2 currentCol row (mkDirection 0 1 bottom top)) as P.
  cbn [dir_x dir_y wall opposite] in P. replace (currentCol + 0) with currentCol in P by lia.
  split.
  - apply P; [cbn; tauto | exact Hv | exact Hv' | exact Hwf2].
  - eapply carved_passage; [|exact P2].
    apply (carved_removeWallPair g2 currentCol row currentCol (row + 1) bottom top); lia.
Qed.

Lemma fold_patternRow_connected (g : Grid) (n : nat) :
  (n <= 49)%nat -> wfGrid g ->
  let s := fold_left patternRow (map Z.of_nat (seq 0 n)) (g, MAZE_SIZE / 2) in
  wfGrid (fst s) /\ carved g (fst s) /\ snd s = MAZE_SIZE / 2 + Z.of_nat n mod 2 /\
  (n = 0%nat \/
   connected (fst s) (MAZE_SIZE / 2, 0) (MAZE_SIZE / 2 + (Z.of_nat n + 1) mod 2, Z.of_nat n)).
Proof.
  intros Hn Hwf. cbn zeta. induction n as [|n IH].
  - cbn [seq map fold_left fst snd].
    split; [exact Hwf|]. split; [constructor|]. split; [reflexivity | now left].
  - rewrite seq_S, map_app, fold_left_app. cbn [Nat.add map fold_left].
    destruct IH as (Hwf' & Hcv & Hc & Hconn); [lia|].
    destruct (fold_left patternRow (map Z.of_nat (seq 0 n)) (g, MAZE_SIZE / 2)) as [g' c].
    cbn [fst snd] in *. subst c.
    assert (Hcol : 0 < MAZE_SIZE / 2 + Z.of_nat n mod 2 < MAZE_SIZE - 1).
    { change (MAZE_SIZE / 2) with 25. unfold MAZE_SIZE.
      Z.to_euclidean_division_equations. lia. }
    assert (Hrow : 0 <= Z.of_nat n < MAZE_SIZE - 1) by (unfold MAZE_SIZE; lia).
    destruct (patternRow_passages g' _ _ Hwf' Hcol Hrow) as (Hcv2 & Hc2 & Pd & Ph).
    split; [exact (carved_wfGrid _ _ Hcv2 Hwf')|].
    split; [exact (carved_trans _ _ _ Hcv Hcv2)|].
    assert (Enext : (if Z.of_nat n mod 2 =? 0
                     then MAZE_SIZE / 2 + Z.of_nat n mod 2 + 1
                     else MAZE_SIZE / 2 + Z.of_nat n mod 2 - 1)
                    = MAZE_SIZE / 2 + (Z.of_nat n + 1) mod 2).
    { change (MAZE_SIZE / 2) with 25.
      destruct (Z.eqb_spec (Z.of_nat n mod 2) 0); Z.to_euclidean_division_equations; lia. }
    rewrite Enext in Hc2, Ph.
    split; [rewrite Hc2; f_equal; f_equal; lia|].
    right.
    assert (Hhere : connected (fst (patternRow (g', MAZE_SIZE / 2 + Z.of_nat n mod 2) (Z.of_nat n)))
                      (MAZE_SIZE / 2, 0) (MAZE_SIZE / 2 + Z.of_nat n mod 2, Z.of_nat n)).
    { destruct Hconn as [-> | Hconn].
      - change (MAZE_SIZE / 2 + Z.of_nat 0 mod 2, Z.of_nat 0) with (MAZE_SIZE / 2, 0).
        constructor.
      - eapply connected_step; [eapply carved_connected; [exact Hcv2 | exact Hconn]|].
        now apply passage_sym. }
    replace (MAZE_SIZE / 2 + (Z.of_nat (S n) + 1) mod 2, Z.of_nat (S n))
      with (MAZE_SIZE / 2 + Z.of_nat n mod 2, Z.of_nat n + 1).
    + eapply connected_step; [exact Hhere | exact Pd].
    + f_equal; [|lia]. f_equal. Z.to_euclidean_division_equations. lia.
Qed.

(** X25. [createPatternMaze] does carve the path its comment promises: on
    a 50 by 50 grid the top cell of the middle column is joined to the
    bottom cell of the middle column by passages, walls removed on both
    sides of every step. *)
Theorem createPatternMaze_path (st : State) :
  wfGrid (grid st) ->
  connected (grid (createPatternMaze st)) (MAZE_SIZE / 2, 0) (MAZE_SIZE / 2, MAZE_SIZE - 1).
Proof.
  intros Hwf.
  assert (Hcv : carved (grid st) (grid (createPatternMaze st)))
    by (apply pairCarved_carved, createPatternMaze_pairCarved; exact Hwf).
  revert Hcv. unfold createPatternMaze.
  change (range (MAZE_SIZE - 1)) with (map Z.of_nat (seq 0 49)).
  destruct (fold_patternRow_connected (grid st) 49 (Nat.le_refl _) Hwf)
    as (Hwf' & Hcv' & Hc & Hconn).
  destruct (fold_left patternRow (map Z.of_nat (seq 0 49)) (grid st, MAZE_SIZE / 2)) as [g c].
  cbn [fst snd] in *. subst c.
  destruct Hconn as [E | Hconn]; [discriminate E|].
  change (MAZE_SIZE / 2 + (Z.of_nat 49 + 1) mod 2, Z.of_nat 49)
    with (MAZE_SIZE / 2, MAZE_SIZE - 1) in Hconn.
  change (MAZE_SIZE / 2 + Z.of_nat 49 mod 2) with 26.
  assert (Hv : isValidCell 26 (MAZE_SIZE - 1) = true) by reflexivity.
  destruct (wfGrid_cellAt g 26 (MAZE_SIZE - 1) Hwf' Hv) as [c Ec].
  assert (Er : is_Some (arr_get g (MAZE_SIZE - 1))).
  { unfold cellAt in Ec. destruct (arr_get g (MAZE_SIZE - 1)); [eauto | discriminate]. }
  destruct Er as [row ->].
  change (negb (26 =? MAZE_SIZE / 2)) with true. cbv iota.
  change (if 26 <? MAZE_SIZE / 2 then 1 else -1) with (-1).
  change (colsToward 26 (MAZE_SIZE / 2) (-1)) with [26].
  cbn [fold_left grid set_grid]. intros _.
  eapply carved_connected; [|exact Hconn].
  apply pairCarved_carved, patternLastStep_pairCarved;
    [exact Hwf' | now right | unfold MAZE_SIZE; lia | unfold MAZE_SIZE; lia].
Qed.

Lemma createPatternMaze_path_witness :
  connected (grid (createPatternMaze (constructor 12345)))
    (MAZE_SIZE / 2, 0) (MAZE_SIZE / 2, MAZE_SIZE - 1).
Proof.
  apply (createPatternMaze_path (constructor 12345)). apply wfGrid_freshGrid.
Defined.

(** * Beyond the claims: openings have two sides *)

(** On a consistent grid an open side towards a neighbour is a passage. *)
Lemma wallsConsistent_passage (g : Grid) (x y : Z) (dir : Direction) :
  wallsConsistent g -> In dir DIRECTIONS ->
  isValidCell x y = true -> isValidCell (x + dir_x dir) (y + dir_y dir) = true ->
  (passage g (x, y) (x + dir_x dir, y + dir_y dir)
   <-> wallAt g x y (wall dir) = Some false).
Proof.
  intros Hc Hin Hv Hv'. split.
  - intros (dir' & Hin' & E & H1 & _). cbn [fst snd] in *.
    assert (dir' = dir); [|now subst].
    inversion E as [[Ex Ey]].
    destruct Hin as [<-|[<-|[<-|[<-|[]]]]], Hin' as [<-|[<-|[<-|[<-|[]]]]];
      cbn [dir_x dir_y] in Ex, Ey; try reflexivity; exfalso; lia.
  - intros H. exists dir. split; [exact Hin|]. split; [reflexivity|]. cbn [fst snd].
    split; [exact H|]. now apply (Hc x y dir Hin Hv Hv').
Qed.

Section TwoSided.

Variable Math_sin : Z -> Q.
Variable FIXED_SEED : Z.

(** X4. A generated maze has no one-sided opening: every build completes
    with the wall flags of neighbouring cells in agreement, so that a cell
    has an open side towards a neighbour exactly when there is a passage
    between the two, the facing flag of the neighbour open as well. *)
Theorem generateMaze_openings_two_sided (fuel : nat) (st : State) :
  (buildFuel <= fuel)%nat ->
  exists st', generateMaze Math_sin FIXED_SEED fuel st = Some st' /\
    wallsConsistent (grid st') /\
    forall x y dir, In dir DIRECTIONS ->
      isValidCell x y = true -> isValidCell (x + dir_x dir) (y + dir_y dir) = true ->
      (passage (grid st') (x, y) (x + dir_x dir, y + dir_y dir)
       <-> wallAt (grid st') x y (wall dir) = Some false).
Proof.
  intros Hfuel.
  destruct (generateMaze_built Math_sin FIXED_SEED fuel st Hfuel) as (st' & Hg & _).
  exists st'. split; [exact Hg|].
  pose proof (generateMaze_wallsConsistent Math_sin FIXED_SEED fuel st st' Hg) as Hc.
  split; [exact Hc|]. intros x y dir. now apply wallsConsistent_passage.
Qed.

End TwoSided.

(** X26. [createPatternMaze] opens walls on both sides: from a 50 by 50
    grid whose wall flags agree between neighbours it leaves a grid whose
    flags agree, on which an open side towards a neighbour is a passage. *)
Theorem createPatternMaze_openings_two_sided (st : State) :
  wfGrid (grid st) -> wallsConsistent (grid st) ->
  wallsConsistent (grid (createPatternMaze st)) /\
  forall x y dir, In dir DIRECTIONS ->
    isValidCell x y = true -> isValidCell (x + dir_x dir) (y + dir_y dir) = true ->
    (passage (grid (createPatternMaze st)) (x, y) (x + dir_x dir, y + dir_y dir)
     <-> wallAt (grid (createPatternMaze st)) x y (wall dir) = Some false).
Proof.
  intros Hwf Hc.
  pose proof (createPatternMaze_wallsConsistent st Hwf Hc) as Hc'.
  split; [exact Hc'|]. intros x y dir. now apply wallsConsistent_passage.
Qed.

Lemma generateMaze_openings_two_sided_witness :
  exists st', generateMaze sample_sin 12345 buildFuel (constructor 12345) = Some st' /\
    wallsConsistent (grid st') /\
    forall x y dir, In dir DIRECTIONS ->
      isValidCell x y = true -> isValidCell (x + dir_x dir) (y + dir_y dir) = true ->
      (passage (grid st') (x, y) (x + dir_x dir, y + dir_y dir)
       <-> wallAt (grid st') x y (wall dir) = Some false).
Proof.
  apply (generateMaze_openings_two_sided sample_sin 12345 buildFuel (constructor 12345)). lia.
Defined.

Lemma createPatternMaze_openings_two_sided_witness :
  wallsConsistent (grid (createPatternMaze (constructor 12345))) /\
  forall x y dir, In dir DIRECTIONS ->
    isValidCell x y = true -> isValidCell (x + dir_x dir) (y + dir_y dir) = true ->
    (passage (grid (createPatternMaze (constructor 12345))) (x, y) (x + dir_x dir, y + dir_y dir)
     <-> wallAt (grid (createPatternMaze (constructor 12345))) x y (wall dir) = Some false).
Proof.
  apply (createPatternMaze_openings_two_sided (constructor 12345)).
  - apply wfGrid_freshGrid.
  - apply wallsConsistent_freshGrid.
Defined.

(** * Beyond the claims: the number of draws of a build *)

Lemma filter_length_flip {A} (R : A -> A -> Prop) (f f' : A -> bool) (l : list A) (p : A) :
  (forall a, ~ R a a) -> StronglySorted R l ->
  In p l -> f p = true -> f' p = false ->
  (forall q, q <> p -> f' q = f q) ->
  length (List.filter f l) = S (length (List.filter f' l)).
Proof.
  intros Hirr Hs Hin Hp Hp' Hne.
  induction Hs as [|a l Hs IH Ha]; [destruct Hin|].
  rewrite Forall_forall in Ha.
  destruct Hin as [-> | Hin].
  - cbn [List.filter]. rewrite Hp, Hp'. cbn [length]. f_equal. f_equal.
    apply filter_ext_in. intros q Hq. symmetry. apply Hne.
    intros ->. apply (Hirr p). apply Ha. now apply list_elem_of_In.
  - assert (Hap : a <> p).
    { intros ->. apply (Hirr p). apply Ha. now apply list_elem_of_In. }
    cbn [List.filter]. rewrite (Hne a Hap).
    destruct (f a); cbn [length]; rewrite (IH Hin); reflexivity.
Qed.

Lemma unvisitedCount_mark_exact (g g' : Grid) (x y : Z) :
  isValidCell x y = true ->
  visitedAt g x y = false -> visitedAt g' x y = true ->
  (forall a b, (a, b) <> (x, y) -> visitedAt g' a b = visitedAt g a b) ->
  unvisitedCount g = S (unvisitedCount g').
Proof.
  intros Hv H0 H1 Hne. unfold unvisitedCount.
  apply (filter_length_flip rowMajorLt _ _ _ (x, y)).
  - intros a. unfold rowMajorLt. lia.
  - apply rowMajor_sorted.
  - now apply rowMajor_In.
  - cbn [fst snd]. now rewrite H0.
  - cbn [fst snd]. now rewrite H1.
  - intros [a b] Hq. cbn [fst snd]. now rewrite (Hne a b Hq).
Qed.

Lemma unvisitedCount_none (g : Grid) :
  (forall x y, visitedAt g x y = false) -> unvisitedCount g = length rowMajor.
Proof.
  intros H. unfold unvisitedCount. generalize rowMajor. intros l.
  induction l as [|[a b] l IH]; [reflexivity|].
  cbn [List.filter fst snd]. rewrite H. cbn [negb length]. now rewrite IH.
Qed.

Lemma unvisitedCount_all (g : Grid) : allVisited g -> unvisitedCount g = 0%nat.
Proof.
  intros H0. pose proof (proj1 (allVisited_visitedAt g) H0) as H. unfold unvisitedCount.
  assert (E : forall l, (forall p, In p l -> In p rowMajor) ->
            List.filter (fun p => negb (visitedAt g (fst p) (snd p))) l = []).
  { induction l as [|[a b] l IH]; intros Hl; [reflexivity|].
    cbn [List.filter fst snd]. rewrite (H a b).
    - cbn [negb]. apply IH. intros p Hp. apply Hl. now right.
    - apply rowMajor_In. apply Hl. now left. }
  rewrite E; [reflexivity | auto].
Qed.

Section Draws.

Variable Math_sin : Z -> Q.
Variable FIXED_SEED : Z.

(** One iteration of the carving loop draws once for each cell it marks. *)
Lemma dfsBody_draws (fuel : nat) (st st' : State) (x y sx sy : Z)
    (rest stack' : list (Z * Z)) :
  wfGrid (grid st) -> exitValid st ->
  isValidCell sx sy = true -> visitedAt (grid st) sx sy = true ->
  dfsInv (grid st) ((x, y) :: rest) ->
  dfsBody Math_sin fuel st x y rest = Some (st', stack') ->
  currentSeed st' + Z.of_nat (unvisitedCount (grid st'))
  = currentSeed st + Z.of_nat (unvisitedCount (grid st)).
Proof.
  intros Hwf Hex Hs Hsv Hinv. unfold dfsBody.
  destruct (unvisitedNeighbors (grid st) x y) as [|n0 ns] eqn:En.
  - pose proof (dfsInv_pop _ _ _ _ Hwf En Hinv) as Hinv'.
    assert (Hr : repairCheck fuel rest st = Some st).
    { destruct rest; [|reflexivity]. apply repairCheck_connected; [exact Hex|].
      apply allVisited_visitedAt. now apply (closed_allVisited _ sx sy). }
    rewrite Hr. intros E. inversion E; subst. reflexivity.
  - rewrite <- En. unfold seedRandom. cbn zeta beta iota.
    set (r := frac _).
    assert (Hidx : 0 <= scaleFloor r (Z.of_nat (length (unvisitedNeighbors (grid st) x y)))
                   < Z.of_nat (length (unvisitedNeighbors (grid st) x y))).
    { apply draw_range. rewrite En. cbn [length]. lia. }
    destruct (arr_get_lt _ _ Hidx) as [nb Hnb]. rewrite Hnb.
    apply arr_get_In in Hnb.
    apply unvisitedNeighbors_In in Hnb as (dir & Hdir & Hnx & Hny & Hnv & Hsome & Hunv).
    rewrite Hdir. cbn [grid set_seed].
    destruct Hinv as [Ha Hb].
    destruct (Ha (x, y) (or_introl eq_refl)) as [Hxy _]. cbn [fst snd] in Hxy.
    destruct (wfGrid_cellAt _ _ _ Hwf Hxy) as [c Hc]. rewrite Hc.
    destruct Hsome as [c' Hc']. rewrite Hc'.
    pose proof (proj1 (isValidCell_true _ _) Hxy) as Hxy'.
    pose proof (proj1 (isValidCell_true _ _) Hnv) as Hnv'.
    cbn [repairCheck]. intros E. inversion E; subst. clear E.
    cbn [grid set_grid set_seed currentSeed].
    set (g2 := updCell _ _ _ markVisited).
    assert (Hvis2 : visitedAt g2 (nb_x nb) (nb_y nb) = true).
    { apply visitedAt_markVisited_eq; try lia.
      unfold removeWallPair. rewrite !cellAt_updCell_is_Some by lia. eauto. }
    assert (Hne : forall a b, (a, b) <> (nb_x nb, nb_y nb) ->
                   visitedAt g2 a b = visitedAt (grid st) a b).
    { intros a b H. unfold g2. rewrite visitedAt_markVisited_ne by (try lia; assumption).
      now rewrite visitedAt_removeWallPair by lia. }
    rewrite (unvisitedCount_mark_exact (grid st) g2 _ _ Hnv Hunv Hvis2 Hne). lia.
Qed.

Lemma dfsLoop_draws (sx sy : Z) (fuel : nat) :
  forall st stack st',
    wfGrid (grid st) -> exitValid st ->
    isValidCell sx sy = true -> visitedAt (grid st) sx sy = true ->
    dfsInv (grid st) stack ->
    dfsLoop Math_sin fuel st stack = Some st' ->
    currentSeed st' + Z.of_nat (unvisitedCount (grid st'))
    = currentSeed st + Z.of_nat (unvisitedCount (grid st)).
Proof.
  induction fuel as [|fuel IH]; intros st [|[x y] rest] st' Hwf Hex Hs Hsv Hinv H;
    cbn [dfsLoop] in H; try discriminate H;
    try (inversion H; subst; reflexivity).
  destruct (dfsBody Math_sin fuel st x y rest) as [[st1 stack1]|] eqn:E; [|discriminate H].
  destruct (dfsBody_progress Math_sin fuel st x y sx sy rest Hwf Hex Hs Hsv Hinv)
    as (st1' & stack1' & Hbody & Hinv1 & _).
  rewrite E in Hbody. inversion Hbody; subst st1' stack1'.
  pose proof (dfsBody_framed _ _ _ _ _ _ _ _ E) as (Hc & _ & Hexit & _).
  rewrite (IH st1 stack1 st'); try assumption.
  - now apply (dfsBody_draws fuel st st1 x y sx sy rest stack1).
  - now apply (carved_wfGrid _ _ Hc).
  - unfold exitValid. now rewrite Hexit.
  - now apply (carved_visitedAt _ _ _ _ Hc).
Qed.

(** X5. Every build consumes the same number of draws, whatever the
    seed and whatever [Math.sin] returns: one for each of the 2499 cells the
    carver steps into and three for each of the 250 loop injections. The
    seed counter ends at [FIXED_SEED + 3249]. *)
Theorem generateMaze_draws (fuel : nat) (st : State) :
  (buildFuel <= fuel)%nat ->
  exists st', generateMaze Math_sin FIXED_SEED fuel st = Some st' /\
    currentSeed st' = FIXED_SEED + 3249.
Proof.
  intros Hfuel. unfold generateMaze.
  set (s0 := set_exit _ (openWall _ _ _ _)).
  assert (Hstart : isValidCell (MAZE_SIZE / 2) 0 = true) by reflexivity.
  assert (Hwf0 : wfGrid (grid s0)).
  { unfold s0. cbn [grid set_exit].
    eapply carved_wfGrid; [apply openWall_framed|]. apply wfGrid_freshGrid. }
  assert (Hex0 : exitValid s0) by reflexivity.
  assert (Hfresh : forall x y, visitedAt (grid s0) x y = false).
  { intros x y. unfold s0. cbn [grid set_exit]. rewrite openWall_visitedAt.
    apply visitedAt_freshGrid. }
  assert (Hseed0 : currentSeed s0 = FIXED_SEED).
  { unfold s0, openWall. cbn [currentSeed set_exit]. rewrite Hstart.
    cbn [grid initializeGrid set_grid set_entrance set_seed].
    now destruct (cellAt freshGrid (MAZE_SIZE / 2) 0). }
  destruct (depthFirstSearch_total Math_sin fuel (MAZE_SIZE / 2) 0 s0 Hwf0 Hex0 Hstart Hfresh Hfuel)
    as (s1 & Hdfs & Hall).
  rewrite Hdfs. eexists. split; [reflexivity|].
  (* the carver *)
  assert (Hs1 : currentSeed s1 = FIXED_SEED + 2499).
  { revert Hdfs. unfold depthFirstSearch. rewrite Hstart. cbn [negb].
    destruct (wfGrid_cellAt _ _ _ Hwf0 Hstart) as [c Hc]. rewrite Hc. intros Hloop.
    pose proof (proj1 (isValidCell_true _ _) Hstart) as Hv'.
    set (g1 := updCell (grid s0) (MAZE_SIZE / 2) 0 markVisited) in *.
    assert (Hvis1 : visitedAt g1 (MAZE_SIZE / 2) 0 = true).
    { apply visitedAt_markVisited_eq; try lia. eauto. }
    assert (Hne1 : forall a b, (a, b) <> (MAZE_SIZE / 2, 0) ->
                     visitedAt g1 a b = visitedAt (grid s0) a b).
    { intros a b H. apply visitedAt_markVisited_ne; try lia. exact H. }
    pose proof (dfsLoop_draws (MAZE_SIZE / 2) 0 fuel (set_grid g1 s0)
                  [(MAZE_SIZE / 2, 0)] s1) as Hd.
    cbn [grid set_grid currentSeed] in Hd.
    rewrite (unvisitedCount_all _ Hall) in Hd.
    pose proof (unvisitedCount_mark_exact (grid s0) g1 _ _ Hstart (Hfresh _ _) Hvis1 Hne1) as Hc1.
    rewrite (unvisitedCount_none _ Hfresh) in Hc1.
    change (length rowMajor) with 2500%nat in Hc1.
    assert (Hinv1 : dfsInv g1 [(MAZE_SIZE / 2, 0)]).
    { split.
      - intros p [<-|[]]. cbn [fst snd]. split; [exact Hstart | exact Hvis1].
      - intros x y _ Hvis. left. left.
        destruct (decide ((x, y) = (MAZE_SIZE / 2, 0))) as [E|E]; [now symmetry|].
        rewrite Hne1 in Hvis by exact E. now rewrite Hfresh in Hvis. }
    specialize (Hd (wfGrid_updCell _ _ _ _ Hwf0) Hex0 Hstart Hvis1 Hinv1 Hloop).
    rewrite Hseed0 in Hd. lia. }
  (* the loop injector *)
  destruct (depthFirstSearch_framed _ _ _ _ _ _ Hdfs) as (Hc1 & _).
  pose proof (carved_wfGrid _ _ Hc1 Hwf0) as Hwf1.
  set (s2 := openWall _ _ bottom s1).
  assert (Hwf2 : wfGrid (grid s2)).
  { eapply carved_wfGrid; [apply openWall_framed | exact Hwf1]. }
  assert (Hseed2 : currentSeed s2 = currentSeed s1).
  { unfold s2, openWall. destruct (isValidCell _ _); [|reflexivity].
    now destruct (cellAt (grid s1) _ _). }
  unfold addExtraConnections.
  destruct (iter_extraConnection_spec Math_sin (Z.to_nat connectionsToAdd) s2 Hwf2)
    as (-> & _ & -> & _).
  rewrite Hseed2, Hs1, connectionsToAdd_eq. lia.
Qed.

End Draws.

Lemma generateMaze_draws_witness :
  exists st', generateMaze sample_sin 12345 buildFuel (constructor 12345) = Some st' /\
    currentSeed st' = 12345 + 3249.
Proof.
  apply (generateMaze_draws sample_sin 12345 buildFuel (constructor 12345)). lia.
Defined.

(** * Beyond the claims: the outer boundary *)

Lemma outerKept_freshGrid : outerKept [] freshGrid.
Proof. intros x y d [Hv _] _. now apply wallAt_freshGrid. Qed.

Lemma outerKept_markVisited (opened : list (Z * Z * WallDirection)) (g : Grid) (x y : Z) :
  0 <= x -> 0 <= y -> outerKept opened g -> outerKept opened (updCell g x y markVisited).
Proof.
  intros Hx Hy H a b d Ho Hn. rewrite wallAt_markVisited by assumption. now apply H.
Qed.

(** Removing the wall between two cells of the grid leaves the boundary. *)
Lemma outerKept_removeWallPair (opened : list (Z * Z * WallDirection)) (g : Grid)
    (x y : Z) (dir : Direction) :
  In dir DIRECTIONS ->
  isValidCell x y = true -> isValidCell (x + dir_x dir) (y + dir_y dir) = true ->
  wfGrid g -> outerKept opened g ->
  outerKept opened
    (removeWallPair g x y (wall dir) (x + dir_x dir) (y + dir_y dir) (opposite dir)).
Proof.
  intros Hin Hv Hv' Hwf H a b d [Ha Hout] Hn.
  pose proof (proj1 (isValidCell_true _ _) Hv) as [Hx Hy].
  pose proof (proj1 (isValidCell_true _ _) Hv') as [Hx' Hy'].
  destruct (removeWallPair_wallAt g x y (x + dir_x dir) (y + dir_y dir) (wall dir) (opposite dir))
    as (_ & _ & Hrest); try lia; try (now apply wfGrid_cellAt).
  { now apply direction_moves. }
  rewrite Hrest; [apply H; [now split | exact Hn] | |].
  - intros E. inversion E; subst a b d.
    apply DIRECTIONS_dirOf in Hin. rewrite <- Hin in Hout. congruence.
  - intros E. inversion E; subst a b d.
    assert (Eb : (x + dir_x dir + dir_x (dirOf (opposite dir)),
                  y + dir_y dir + dir_y (dirOf (opposite dir))) = (x, y)).
    { destruct Hin as [<-|[<-|[<-|[<-|[]]]]]; cbn [dirOf opposite dir_x dir_y]; f_equal; lia. }
    inversion Eb as [[E1 E2]]. rewrite E1, E2 in Hout. congruence.
Qed.

Lemma outerKept_openWall (opened : list (Z * Z * WallDirection)) (x y : Z)
    (d : WallDirection) (st : State) :
  outerKept opened (grid st) -> outerKept ((x, y, d) :: opened) (grid (openWall x y d st)).
Proof.
  intros H a b d' Ho Hn. unfold openWall.
  destruct (isValidCell x y) eqn:Ev; [|apply H; [exact Ho | intros Hi; apply Hn; now right]].
  destruct (cellAt (grid st) x y) eqn:Ec;
    [|apply H; [exact Ho | intros Hi; apply Hn; now right]].
  cbn [grid set_grid]. apply isValidCell_true in Ev.
  rewrite wallAt_updCell_removeWall by lia.
  case_decide as Hd.
  - exfalso. apply Hn. left. destruct Hd as [E ->]. now inversion E.
  - apply H; [exact Ho | intros Hi; apply Hn; now right].
Qed.

Section Enclosure.

Variable Math_sin : Z -> Q.
Variable FIXED_SEED : Z.

(** The two ways an iteration of the carving loop can go, on a state that
    satisfies the invariant: backtrack, or step into an unvisited
    neighbour. *)
Lemma dfsBody_cases (fuel : nat) (st st' : State) (x y sx sy : Z)
    (rest stack' : list (Z * Z)) :
  wfGrid (grid st) -> exitValid st ->
  isValidCell sx sy = true -> visitedAt (grid st) sx sy = true ->
  dfsInv (grid st) ((x, y) :: rest) ->
  dfsBody Math_sin fuel st x y rest = Some (st', stack') ->
  (st' = st /\ stack' = rest) \/
  exists dir, In dir DIRECTIONS /\
    isValidCell x y = true /\ isValidCell (x + dir_x dir) (y + dir_y dir) = true /\
    visitedAt (grid st) (x + dir_x dir) (y + dir_y dir) = false /\
    st' = set_grid
            (updCell (removeWallPair (grid st) x y (wall dir)
                        (x + dir_x dir) (y + dir_y dir) (opposite dir))
               (x + dir_x dir) (y + dir_y dir) markVisited)
            (set_seed (currentSeed st + 1) st) /\
    stack' = (x + dir_x dir, y + dir_y dir) :: (x, y) :: rest.
Proof.
  intros Hwf Hex Hs Hsv Hinv. unfold dfsBody.
  destruct (unvisitedNeighbors (grid st) x y) as [|n0 ns] eqn:En.
  - pose proof (dfsInv_pop _ _ _ _ Hwf En Hinv) as Hinv'.
    assert (Hr : repairCheck fuel rest st = Some st).
    { destruct rest; [|reflexivity]. apply repairCheck_connected; [exact Hex|].
      apply allVisited_visitedAt. now apply (closed_allVisited _ sx sy). }
    rewrite Hr. intros E. inversion E; subst. now left.
  - rewrite <- En. unfold seedRandom. cbn zeta beta iota.
    set (r := frac _).
    assert (Hidx : 0 <= scaleFloor r (Z.of_nat (length (unvisitedNeighbors (grid st) x y)))
                   < Z.of_nat (length (unvisitedNeighbors (grid st) x y))).
    { apply draw_range. rewrite En. cbn [length]. lia. }
    destruct (arr_get_lt _ _ Hidx) as [nb Hnb]. rewrite Hnb.
    apply arr_get_In in Hnb.
    apply unvisitedNeighbors_In in Hnb as (dir & Hdir & Hnx & Hny & Hnv & Hsome & Hunv).
    rewrite Hdir. cbn [grid set_seed].
    destruct Hinv as [Ha Hb].
    destruct (Ha (x, y) (or_introl eq_refl)) as [Hxy _]. cbn [fst snd] in Hxy.
    destruct (wfGrid_cellAt _ _ _ Hwf Hxy) as [c Hc]. rewrite Hc.
    destruct Hsome as [c' Hc']. rewrite Hc'.
    cbn [repairCheck]. intros E. inversion E; subst st' stack'. clear E.
    right. exists dir. rewrite Hnx, Hny in *.
    split; [apply list_elem_of_In; eapply list_elem_of_lookup_2; exact Hdir|].
    split; [exact Hxy|]. split; [exact Hnv|]. split; [exact Hunv|].
    split; reflexivity.
Qed.

Lemma dfsLoop_outerKept (opened : list (Z * Z * WallDirection)) (sx sy : Z) (fuel : nat) :
  forall st stack st',
    wfGrid (grid st) -> exitValid st ->
    isValidCell sx sy = true -> visitedAt (grid st) sx sy = true ->
    dfsInv (grid st) stack ->
    dfsLoop Math_sin fuel st stack = Some st' ->
    outerKept opened (grid st) -> outerKept opened (grid st').
Proof.
  induction fuel as [|fuel IH]; intros st [|[x y] rest] st' Hwf Hex Hs Hsv Hinv H Hk;
    cbn [dfsLoop] in H; try discriminate H;
    try (inversion H; subst; exact Hk).
  destruct (dfsBody Math_sin fuel st x y rest) as [[st1 stack1]|] eqn:E; [|discriminate H].
  destruct (dfsBody_progress Math_sin fuel st x y sx sy rest Hwf Hex Hs Hsv Hinv)
    as (st1' & stack1' & Hbody & Hinv1 & _).
  rewrite E in Hbody. inversion Hbody; subst st1' stack1'.
  pose proof (dfsBody_framed _ _ _ _ _ _ _ _ E) as (Hc & _ & Hexit & _).
  apply (IH st1 stack1 st'); try assumption.
  - now apply (carved_wfGrid _ _ Hc).
  - unfold exitValid. now rewrite Hexit.
  - now apply (carved_visitedAt _ _ _ _ Hc).
  - destruct (dfsBody_cases fuel st st1 x y sx sy rest stack1 Hwf Hex Hs Hsv Hinv E)
      as [[-> _] | (dir & Hin & Hv & Hv' & _ & -> & _)]; [exact Hk|].
    cbn [grid set_grid]. pose proof (proj1 (isValidCell_true _ _) Hv') as [? ?].
    apply outerKept_markVisited; try lia.
    now apply outerKept_removeWallPair.
Qed.

Lemma injectOnceSpec_outerKept (opened : list (Z * Z * WallDirection)) (st : State) :
  wfGrid (grid st) -> outerKept opened (grid st) ->
  outerKept opened (grid (injectOnceSpec Math_sin st)).
Proof.
  intros Hwf Hk. unfold injectOnceSpec.
  pose proof (injectedCell_valid Math_sin (currentSeed st)) as Hv.
  destruct (injectedDirection_lookup Math_sin (currentSeed st)) as [_ Hin].
  destruct (injectedCell Math_sin (currentSeed st)) as [x y]. cbn [fst snd grid] in *.
  set (dir := injectedDirection Math_sin (currentSeed st)) in *.
  destruct (isValidCell (x + dir_x dir) (y + dir_y dir)) eqn:Ev'; [|exact Hk].
  now apply outerKept_removeWallPair.
Qed.

Lemma addExtraConnections_outerKept (opened : list (Z * Z * WallDirection)) (st : State) :
  wfGrid (grid st) -> outerKept opened (grid st) ->
  outerKept opened (grid (addExtraConnections Math_sin st)).
Proof.
  intros Hwf Hk. unfold addExtraConnections.
  generalize (Z.to_nat connectionsToAdd). intros n.
  destruct (iter_extraConnection_spec Math_sin n st Hwf) as (-> & _).
  induction n as [|n IH]; [exact Hk|]. rewrite Nat.iter_succ.
  apply injectOnceSpec_outerKept; [|exact IH].
  destruct (iter_extraConnection_spec Math_sin n st Hwf) as (_ & (Hc & _) & _).
  now apply (carved_wfGrid _ _ Hc).
Qed.

(** The boundary walls a build leaves standing. *)
Lemma generateMaze_outerKept (fuel : nat) (st st' : State) :
  generateMaze Math_sin FIXED_SEED fuel st = Some st' ->
  outerKept [(MAZE_SIZE / 2, MAZE_SIZE - 1, bottom); (MAZE_SIZE / 2, 0, top)] (grid st').
Proof.
  unfold generateMaze.
  set (s0 := set_exit _ (openWall _ _ _ _)).
  assert (Hstart : isValidCell (MAZE_SIZE / 2) 0 = true) by reflexivity.
  assert (Hwf0 : wfGrid (grid s0)).
  { unfold s0. cbn [grid set_exit].
    eapply carved_wfGrid; [apply openWall_framed|]. apply wfGrid_freshGrid. }
  assert (Hex0 : exitValid s0) by reflexivity.
  assert (Hk0 : outerKept [(MAZE_SIZE / 2, 0, top)] (grid s0)).
  { unfold s0. cbn [grid set_exit]. apply outerKept_openWall. apply outerKept_freshGrid. }
  destruct (depthFirstSearch Math_sin fuel (MAZE_SIZE / 2) 0 s0) as [s1|] eqn:Hdfs;
    [|discriminate].
  intros Hg. inversion Hg; subst st'. clear Hg.
  destruct (depthFirstSearch_framed _ _ _ _ _ _ Hdfs) as (Hc1 & _).
  pose proof (carved_wfGrid _ _ Hc1 Hwf0) as Hwf1.
  assert (Hk1 : outerKept [(MAZE_SIZE / 2, 0, top)] (grid s1)).
  { revert Hdfs. unfold depthFirstSearch. rewrite Hstart. cbn [negb].
    destruct (wfGrid_cellAt _ _ _ Hwf0 Hstart) as [c Hc]. rewrite Hc. intros Hloop.
    pose proof (proj1 (isValidCell_true _ _) Hstart) as Hv'.
    set (g1 := updCell (grid s0) (MAZE_SIZE / 2) 0 markVisited) in *.
    assert (Hvis1 : visitedAt g1 (MAZE_SIZE / 2) 0 = true).
    { apply visitedAt_markVisited_eq; try lia. eauto. }
    apply (dfsLoop_outerKept _ (MAZE_SIZE / 2) 0 fuel (set_grid g1 s0)
             [(MAZE_SIZE / 2, 0)] s1); try assumption.
    - now apply wfGrid_updCell.
    - split.
      + intros p [<-|[]]. cbn [fst snd]. split; [exact Hstart | exact Hvis1].
      + intros x y _ Hvis. left. left.
        destruct (decide ((x, y) = (MAZE_SIZE / 2, 0))) as [E|E]; [now symmetry|].
        unfold g1 in Hvis. cbn [grid set_grid] in Hvis.
        rewrite visitedAt_markVisited_ne in Hvis by (try lia; exact E).
        unfold s0 in Hvis. cbn [grid set_exit] in Hvis.
        rewrite openWall_visitedAt, visitedAt_freshGrid in Hvis. discriminate.
    - cbn [grid set_grid]. apply outerKept_markVisited; try lia. exact Hk0. }
  apply addExtraConnections_outerKept.
  - eapply carved_wfGrid; [apply openWall_framed | exact Hwf1].
  - now apply outerKept_openWall.
Qed.

(** X3. A generated maze is closed: every wall of the outer boundary
    stands, but for the top wall of the entrance cell and the bottom wall of
    the exit cell; the carver and the loop injector only ever remove walls
    between two cells. In the built world every such wall is there in full,
    four blocks along and seven high. *)
Theorem generateMaze_enclosed (fuel : nat) (st : State) :
  (buildFuel <= fuel)%nat ->
  exists st', generateMaze Math_sin FIXED_SEED fuel st = Some st' /\
    forall x y d, outerWall x y d ->
      (x, y, d) <> (MAZE_SIZE / 2, 0, top) ->
      (x, y, d) <> (MAZE_SIZE / 2, MAZE_SIZE - 1, bottom) ->
      wallAt (grid st') x y d = Some true /\
      forall w s i h, 0 <= i < PATH_WIDTH -> 1 <= h <= WALL_HEIGHT ->
        wallBlockAt (fst (buildMazeWorld Math_sin st' (w, s))) (wallBlock x y d i h).
Proof.
  intros Hfuel.
  destruct (generateMaze_built Math_sin FIXED_SEED fuel st Hfuel) as (st' & Hg & _).
  exists st'. split; [exact Hg|].
  pose proof (generateMaze_outerKept fuel st st' Hg) as Hk.
  intros x y d Ho Hn1 Hn2.
  assert (Hw : wallAt (grid st') x y d = Some true).
  { apply Hk; [exact Ho|]. intros [E | [E | []]]; congruence. }
  split; [exact Hw|]. intros w s i h Hi Hh.
  apply buildMazeWorld_walls. exists x, y, d, i, h. destruct Ho as [Hv _]. auto.
Qed.

End Enclosure.

Lemma generateMaze_enclosed_witness :
  exists st', generateMaze sample_sin 12345 buildFuel (constructor 12345) = Some st' /\
    forall x y d, outerWall x y d ->
      (x, y, d) <> (MAZE_SIZE / 2, 0, top) ->
      (x, y, d) <> (MAZE_SIZE / 2, MAZE_SIZE - 1, bottom) ->
      wallAt (grid st') x y d = Some true /\
      forall w s i h, 0 <= i < PATH_WIDTH -> 1 <= h <= WALL_HEIGHT ->
        wallBlockAt (fst (buildMazeWorld sample_sin st' (w, s))) (wallBlock x y d i h).
Proof.
  apply (generateMaze_enclosed sample_sin 12345 buildFuel (constructor 12345)). lia.
Defined.

(** * Beyond the claims: what [isWalkablePath] tells on a built maze *)



Section WalkableBuilt.

Variable Math_sin : Z -> Q.
Variable FIXED_SEED : Z.


End WalkableBuilt.


(** * Beyond the claims: building the maze a second time *)

Section Rebuild.

Variable Math_sin : Z -> Q.

Lemma same_sites (st st' : State) (p : Z * Z * Z) :
  grid st' = grid st -> entrance st' = entrance st -> exit st' = exit st ->
  (wallSite (grid st') p <-> wallSite (grid st) p) /\ (floorSite st' p <-> floorSite st p).
Proof.
  intros Hg He Hx. unfold floorSite. rewrite Hg, He, Hx. tauto.
Qed.

Lemma buildMaze_fields (st : State) :
  grid (buildMaze st) = grid st /\ entrance (buildMaze st) = entrance st /\
  exit (buildMaze st) = exit st.
Proof. repeat split. Qed.

(** X9. The server builds the maze twice, the second time after the
    potions are placed. Between two builds of the same maze (same grid,
    entrance and exit; any seed counter, any [blockSeed]) the second changes
    nothing but the texture of wall blocks: a position written as a wall
    holds a wall block after either build, and every other position holds
    after the second build the block it held after the first. *)
Theorem buildMazeWorld_twice (st st' : State) (w : World) (s s' : Z) (p : Z * Z * Z) :
  grid st' = grid st -> entrance st' = entrance st -> exit st' = exit st ->
  let w1 := fst (buildMazeWorld Math_sin st (w, s)) in
  let w2 := fst (buildMazeWorld Math_sin st' (w1, s')) in
  (wallSite (grid st) p -> wallBlockAt w1 p /\ wallBlockAt w2 p) /\
  (~ wallSite (grid st) p -> w2 !! p = w1 !! p).
Proof.
  intros Hg He Hx. cbn zeta. destruct (same_sites st st' p Hg He Hx) as [Hws Hfs].
  split.
  - intros Hs. split; apply buildMazeWorld_walls; tauto.
  - intros Hs. destruct p as [[x y] z].
    assert (Hdec : floorSite st (x, y, z) \/ ~ floorSite st (x, y, z)).
    { unfold floorSite. lia. }
    destruct Hdec as [Hf | Hf].
    + transitivity (Some FLOOR_BLOCK_ID);
        [apply buildMazeWorld_floor; tauto | symmetry; apply buildMazeWorld_floor; exact Hf].
    + apply buildMazeWorld_frame; tauto.
Qed.

End Rebuild.

Lemma buildMazeWorld_twice_witness :
  let w1 := fst (buildMazeWorld sample_sin sampleMaze (∅, BLOCK_SEED)) in
  let w2 := fst (buildMazeWorld sample_sin (buildMaze sampleMaze) (w1, BLOCK_SEED)) in
  (wallSite (grid sampleMaze) (0, 1, 0) -> wallBlockAt w1 (0, 1, 0) /\ wallBlockAt w2 (0, 1, 0)) /\
  (~ wallSite (grid sampleMaze) (0, 1, 0) -> w2 !! (0, 1, 0) = w1 !! (0, 1, 0)).
Proof.
  apply (buildMazeWorld_twice sample_sin sampleMaze (buildMaze sampleMaze) ∅
           BLOCK_SEED BLOCK_SEED (0, 1, 0)).
  - exact (proj1 (buildMaze_fields sampleMaze)).
  - exact (proj1 (proj2 (buildMaze_fields sampleMaze))).
  - exact (proj2 (proj2 (buildMaze_fields sampleMaze))).
Defined.

(** * Beyond the claims: what [addRandomPaths] leaves alone *)

Lemma randomPath_carved (rand : nat -> Q) (g : Grid) (k : nat) :
  carved g (fst (randomPath rand (g, k))) /\
  forall x y, visitedAt (fst (randomPath rand (g, k))) x y = visitedAt g x y.
Proof.
  unfold randomPath.
  set (row := scaleFloor (rand k) (MAZE_SIZE - 1)).
  set (col := scaleFloor (rand (S k)) (MAZE_SIZE - 1)).
  destruct (cellAt g col row) as [c|] eqn:Ec; [|split; [constructor | reflexivity]].
  apply cellAt_nonneg in Ec as [Hc Hr].
  assert (Hstep : forall d nx ny o,
            carved g (fst (match cellAt (updCell g col row (removeWall d)) nx ny with
                           | Some _ => (updCell (updCell g col row (removeWall d)) nx ny
                                          (removeWall o), S (S (S k)))
                           | None => (updCell g col row (removeWall d), S (S (S k)))
                           end)) /\
            forall x y,
              visitedAt (fst (match cellAt (updCell g col row (removeWall d)) nx ny with
                              | Some _ => (updCell (updCell g col row (removeWall d)) nx ny
                                             (removeWall o), S (S (S k)))
                              | None => (updCell g col row (removeWall d), S (S (S k)))
                              end)) x y = visitedAt g x y).
  { intros d nx ny o.
    assert (H1 : carved g (updCell g col row (removeWall d)))
      by (apply carved_step; [exact Hc | exact Hr | apply monotoneOp_removeWall]).
    destruct (cellAt (updCell g col row (removeWall d)) nx ny) as [c'|] eqn:En; cbn [fst].
    - apply cellAt_nonneg in En as [Hx Hy]. split.
      + apply carved_upd; [exact H1 | exact Hx | exact Hy | apply monotoneOp_removeWall].
      + intros x y. now rewrite !visitedAt_removeWall.
    - split; [exact H1|]. intros x y. now rewrite visitedAt_removeWall. }
  cbv zeta.
  repeat match goal with
         | |- context [if ?b then _ else _] =>
           match type of b with bool => destruct b end
         end;
    first [apply Hstep | split; [constructor | reflexivity]].
Qed.

Lemma iter_randomPath_carved (rand : nat -> Q) (n : nat) (g : Grid) :
  carved g (fst (Nat.iter n (randomPath rand) (g, 0%nat))) /\
  forall x y, visitedAt (fst (Nat.iter n (randomPath rand) (g, 0%nat))) x y = visitedAt g x y.
Proof.
  induction n as [|n [IH1 IH2]]; [split; [constructor | reflexivity]|].
  rewrite Nat.iter_succ.
  destruct (Nat.iter n (randomPath rand) (g, 0%nat)) as [g' k]. cbn [fst] in *.
  destruct (randomPath_carved rand g' k) as [H1 H2]. split.
  - eapply carved_trans; eassumption.
  - intros x y. now rewrite H2, IH2.
Qed.

(** X27. [addRandomPaths] only removes walls. Whatever [Math.random]
    returns and whatever the grid, it sets no wall flag and changes no
    [visited] flag, and it leaves the seed counter, the entrance and the exit
    alone: an absent wall stays absent, and [isWalkableCell],
    [isWalkablePath] and [getAllWalkableCells] answer as before. *)
Theorem addRandomPaths_frame (rand : nat -> Q) (count : nat) (st : State) :
  let st' := addRandomPaths rand count st in
  carved (grid st) (grid st') /\
  (forall x y d, wallAt (grid st) x y d = Some false -> wallAt (grid st') x y d = Some false) /\
  (forall x z, isWalkableCell st' x z = isWalkableCell st x z) /\
  (forall x y z, isWalkablePath st' x y z = isWalkablePath st x y z) /\
  getAllWalkableCells st' = getAllWalkableCells st /\
  currentSeed st' = currentSeed st /\ entrance st' = entrance st /\ exit st' = exit st.
Proof.
  cbn zeta. unfold addRandomPaths.
  destruct (iter_randomPath_carved rand count (grid st)) as [Hc Hv].
  set (g' := fst (Nat.iter count (randomPath rand) (grid st, 0%nat))) in *.
  cbn [grid set_grid currentSeed entrance exit].
  split; [exact Hc|].
  split; [intros x y d; now apply carved_wallAt|].
  assert (Hw : forall x z, isWalkableCell (set_grid g' st) x z = isWalkableCell st x z)
    by (intros x z; apply Hv).
  split; [exact Hw|]. split; [|split].
  - intros x y z. unfold isWalkablePath. now rewrite Hw.
  - unfold getAllWalkableCells. apply filter_ext. intros [x z]. apply Hw.
  - repeat split.
Qed.

(** * Beyond the claims: the list of walkable cells *)

Lemma StronglySorted_filter {A} (R : A -> A -> Prop) (f : A -> bool) (l : list A) :
  StronglySorted R l -> StronglySorted R (List.filter f l).
Proof.
  induction 1 as [|a l Hs IH Ha]; cbn [List.filter]; [constructor|].
  destruct (f a); [|exact IH]. constructor; [exact IH|].
  rewrite Forall_forall in *. intros x Hx. apply Ha.
  apply list_elem_of_In in Hx. apply filter_In in Hx as [Hx _]. now apply list_elem_of_In.
Qed.

(** X16. [getAllWalkableCells] lists the walkable in-bounds cells, each
    once, in the order of the scan: rows from the top, and within a row
    columns from the left. *)
Theorem getAllWalkableCells_sorted (st : State) :
  StronglySorted rowMajorLt (getAllWalkableCells st) /\
  (forall c, In c (getAllWalkableCells st)
             <-> isValidCell (fst c) (snd c) = true /\ isWalkableCell st (fst c) (snd c) = true) /\
  (length (getAllWalkableCells st) <= 2500)%nat.
Proof.
  split; [apply StronglySorted_filter, rowMajor_sorted|]. split.
  - intros [x z]. unfold getAllWalkableCells. rewrite filter_In, rowMajor_In. reflexivity.
  - unfold getAllWalkableCells. apply (filter_length_bound _ rowMajor).
Qed.

Lemma rowMajor_lookup (k : Z) :
  0 <= k < MAZE_SIZE * MAZE_SIZE ->
  arr_get rowMajor k = Some (k mod MAZE_SIZE, k / MAZE_SIZE).
Proof.
  intros Hk.
  assert (H : forallb (fun k => bool_decide
                         (arr_get rowMajor k = Some (k mod MAZE_SIZE, k / MAZE_SIZE)))
                (range (MAZE_SIZE * MAZE_SIZE)) = true) by (vm_compute; reflexivity).
  rewrite forallb_forall in H. specialize (H k (proj2 (range_In _ _) Hk)).
  now apply bool_decide_eq_true in H.
Qed.

Section AllCells.

Variable Math_sin : Z -> Q.
Variable FIXED_SEED : Z.

(** X15. While the server runs (after the build, any queries and further
    builds) every cell is walkable: [getAllWalkableCells] is the list of all
    2500 cells in row-major order, and without an exclusion radius
    ([excludeRadius <= 0]) [getRandomWalkablePosition] returns the centre of
    the cell number [k = floor(draw * 2500)] of that order, column
    [k mod 50] of row [k div 50]: the point
    [(4 (k mod 50) + 2, 2, 4 (k div 50) + 2)]. *)
Theorem getRandomWalkablePosition_all_cells (r : Q) (st : State) :
  served Math_sin FIXED_SEED st -> (r <= 0)%Q ->
  getAllWalkableCells st = rowMajor /\
  let k := scaleFloor (drawAt Math_sin (currentSeed st)) (MAZE_SIZE * MAZE_SIZE) in
  0 <= k < MAZE_SIZE * MAZE_SIZE /\
  exists p, fst (getRandomWalkablePosition Math_sin r st) = Some p /\
    (vx p == inject_Z (4 * (k mod 50) + 2))%Q /\ (vy p == 2)%Q /\
    (vz p == inject_Z (4 * (k / 50) + 2))%Q.
Proof.
  intros Hs Hr. destruct (served_facts _ _ _ Hs) as (_ & Hall & _ & _ & Hy).
  assert (Eall : getAllWalkableCells st = rowMajor).
  { unfold getAllWalkableCells.
    assert (E : forall l, (forall p, In p l -> In p rowMajor) ->
              List.filter (fun c => isWalkableCell st (fst c) (snd c)) l = l).
    { induction l as [|[a b] l IH]; intros Hl; [reflexivity|].
      cbn [List.filter fst snd]. unfold isWalkableCell at 1.
      rewrite (proj1 (allVisited_visitedAt _) Hall a b).
      - f_equal. apply IH. intros p Hp. apply Hl. now right.
      - apply rowMajor_In. apply Hl. now left. }
    apply E. auto. }
  split; [exact Eall|]. cbn zeta.
  assert (Hk : 0 <= scaleFloor (drawAt Math_sin (currentSeed st)) (MAZE_SIZE * MAZE_SIZE)
               < MAZE_SIZE * MAZE_SIZE) by (apply draw_range; reflexivity).
  split; [exact Hk|].
  assert (E0 : Qltb 0 r = false) by (now apply Qltb_ge).
  unfold getRandomWalkablePosition, seedRandom. cbv zeta. rewrite Eall, E0.
  change (length rowMajor) with 2500%nat. cbn [Nat.eqb].
  change (length rowMajor) with 2500%nat. cbn [Nat.eqb].
  change (Z.of_nat 2500) with (MAZE_SIZE * MAZE_SIZE).
  fold (drawAt Math_sin (currentSeed st)).
  set (k := scaleFloor (drawAt Math_sin (currentSeed st)) (MAZE_SIZE * MAZE_SIZE)) in *.
  rewrite Z.min_l by (unfold MAZE_SIZE in *; lia).
  rewrite (rowMajor_lookup _ Hk). cbn [fst snd]. eexists. split; [reflexivity|].
  destruct (centreOfCell_getCellCenter (set_seed (currentSeed st + 1) st)
              (k mod MAZE_SIZE) (k / MAZE_SIZE)) as [Hcx Hcz].
  split; [exact Hcx|]. split; [|exact Hcz].
  unfold getCellCenter. cbn [vy entranceWorldPosition set_seed]. rewrite Hy. reflexivity.
Qed.

End AllCells.

Lemma getRandomWalkablePosition_all_cells_witness :
  getAllWalkableCells sampleServed = rowMajor /\
  let k := scaleFloor (drawAt sample_sin (currentSeed sampleServed))
             (MAZE_SIZE * MAZE_SIZE) in
  0 <= k < MAZE_SIZE * MAZE_SIZE /\
  exists p, fst (getRandomWalkablePosition sample_sin 0 sampleServed) = Some p /\
    (vx p == inject_Z (4 * (k mod 50) + 2))%Q /\ (vy p == 2)%Q /\
    (vz p == inject_Z (4 * (k / 50) + 2))%Q.
Proof.
  apply (getRandomWalkablePosition_all_cells sample_sin 12345 0 sampleServed).
  - exact served_sampleServed.
  - apply Qle_refl.
Defined.

(** * Beyond the claims: the built maze can be walked *)

Lemma wallAt_valid (g : Grid) (x y : Z) (d : WallDirection) (b : bool) :
  wfGrid g -> wallAt g x y d = Some b -> isValidCell x y = true.
Proof.
  intros Hwf H. apply (wfGrid_cellAt_valid g x y Hwf).
  unfold wallAt in H. destruct (cellAt g x y); [eauto | discriminate].
Qed.

Section Walk.

Variable Math_sin : Z -> Q.
Variable FIXED_SEED : Z.

Lemma openCell_built (st : State) (s x y : Z) :
  isValidCell x y = true -> openCell (fst (buildMazeWorld Math_sin st (∅, s))) x y.
Proof.
  intros Hv i j Hi Hj. apply isValidCell_true in Hv. split.
  - apply buildMazeWorld_floor. split; [reflexivity|]. left.
    unfold MAZE_SIZE, PATH_WIDTH in *. lia.
  - intros h Hh.
    assert (Hm : forall k c, 1 <= c < PATH_WIDTH -> (k * PATH_WIDTH + c) mod PATH_WIDTH <> 0).
    { intros k c Hc. rewrite Z.add_comm, Z_mod_plus_full, Z.mod_small by lia. lia. }
    rewrite buildMazeWorld_frame; [apply lookup_empty | |].
    + intros Hs. apply wallSite_inv in Hs. destruct Hs as (_ & _ & _ & [Hs | Hs]);
        revert Hs; now apply Hm.
    + intros Hf. apply floorSite_height in Hf. lia.
Qed.

Lemma openSide_passage (st : State) (s x y : Z) (dir : Direction) :
  wfGrid (grid st) -> In dir DIRECTIONS ->
  wallAt (grid st) x y (wall dir) = Some false ->
  wallAt (grid st) (x + dir_x dir) (y + dir_y dir) (opposite dir) = Some false ->
  openSide (fst (buildMazeWorld Math_sin st (∅, s))) x y (wall dir).
Proof.
  intros Hwf Hin H1 H2 i Hi.
  pose proof (wallAt_valid _ _ _ _ _ Hwf H1) as Hv.
  pose proof (wallAt_valid _ _ _ _ _ Hwf H2) as Hv'.
  apply isValidCell_true in Hv, Hv'.
  pose proof Hin as Hd. apply DIRECTIONS_dirOf in Hd.
  split.
  - apply buildMazeWorld_floor.
    destruct Hin as [<-|[<-|[<-|[<-|[]]]]]; cbn [wall wallBlock dir_x dir_y] in *;
      (split; [reflexivity|]); left; unfold MAZE_SIZE, PATH_WIDTH in *; lia.
  - intros h Hh. rewrite buildMazeWorld_frame; [apply lookup_empty | |].
    + apply open_side_no_wallSite; [rewrite H1; discriminate | | exact Hi].
      rewrite <- Hd. intros _. rewrite H2. discriminate.
    + apply wallBlock_not_floor. lia.
Qed.

Lemma connected_walk (st : State) (s0 : Z) (s p : Z * Z) :
  wfGrid (grid st) -> isValidCell (fst s) (snd s) = true ->
  connected (grid st) s p ->
  walk (fst (buildMazeWorld Math_sin st (∅, s0))) s p.
Proof.
  intros Hwf Hs. induction 1 as [|p q Hc IH (dir & Hin & -> & H1 & H2)].
  - apply walk_refl. now apply openCell_built.
  - apply walk_step with p; [exact IH|]. exists dir.
    split; [exact Hin|]. split; [reflexivity|]. cbn [fst snd] in *. split.
    + now apply openSide_passage.
    + apply openCell_built. exact (wallAt_valid _ _ _ _ _ Hwf H2).
Qed.

(** X2. The built maze can be solved on foot. In the world built from a
    generated maze on an empty world, the top side of the entrance cell is
    open towards the entrance platform, the bottom side of the exit cell is
    open towards the exit platform, and from the entrance cell every cell,
    the exit cell among them, is reached by steps from cell to neighbouring
    cell, each through a side that is open three blocks wide at every height
    of the walls, over floor, into a cell whose inside is free. *)
Theorem built_world_walkable (fuel : nat) (st : State) :
  (buildFuel <= fuel)%nat ->
  exists st', generateMaze Math_sin FIXED_SEED fuel st = Some st' /\
    forall s, let w := fst (buildMazeWorld Math_sin st' (∅, s)) in
      openSide w (fst (entrance st')) (snd (entrance st')) top /\
      (forall x y, isValidCell x y = true -> walk w (entrance st') (x, y)) /\
      walk w (entrance st') (exit st') /\
      openSide w (fst (exit st')) (snd (exit st')) bottom.
Proof.
  intros Hfuel.
  destruct (generateMaze_built Math_sin FIXED_SEED fuel st Hfuel)
    as (st' & Hg & Hwf & _ & He & Hx & _ & Ht & Hb).
  exists st'. split; [exact Hg|]. intros s. cbn zeta. rewrite He, Hx. cbn [fst snd].
  apply wallAbsent_wallAt in Ht, Hb.
  assert (Hwalk : forall x y, isValidCell x y = true ->
            walk (fst (buildMazeWorld Math_sin st' (∅, s))) (MAZE_SIZE / 2, 0) (x, y)).
  { intros x y Hv. apply connected_walk; [exact Hwf | reflexivity|].
    now apply (generateMaze_reach Math_sin FIXED_SEED fuel st st' Hg). }
  split; [|split; [exact Hwalk | split; [now apply Hwalk|]]].
  - intros i Hi. split.
    + apply buildMazeWorld_floor. split; [reflexivity|]. left.
      unfold MAZE_SIZE, PATH_WIDTH in *. change (50 / 2 * 4) with 100. lia.
    + intros h Hh. rewrite buildMazeWorld_frame; [apply lookup_empty | |].
      * apply open_side_no_wallSite;
          [rewrite Ht; discriminate | intros H; vm_compute in H; discriminate H | exact Hi].
      * apply wallBlock_not_floor. lia.
  - intros i Hi. split.
    + apply buildMazeWorld_floor. split; [reflexivity|]. right; right.
      rewrite Hx. cbn [fst].
      unfold MAZE_SIZE, PATH_WIDTH, PLATFORM_DEPTH in *. change (50 / 2 * 4) with 100. lia.
    + intros h Hh. rewrite buildMazeWorld_frame; [apply lookup_empty | |].
      * apply open_side_no_wallSite;
          [rewrite Hb; discriminate | intros H; vm_compute in H; discriminate H | exact Hi].
      * apply wallBlock_not_floor. lia.
Qed.

End Walk.

Lemma built_world_walkable_witness :
  exists st', generateMaze sample_sin 12345 buildFuel (constructor 12345) = Some st' /\
    forall s, let w := fst (buildMazeWorld sample_sin st' (∅, s)) in
      openSide w (fst (entrance st')) (snd (entrance st')) top /\
      (forall x y, isValidCell x y = true -> walk w (entrance st') (x, y)) /\
      walk w (entrance st') (exit st') /\
      openSide w (fst (exit st')) (snd (exit st')) bottom.
Proof.
  apply (built_world_walkable sample_sin 12345 buildFuel (constructor 12345)). lia.
Defined.

(** * Beyond the claims: the queries before a maze is generated *)

Section BeforeGeneration.

Variable Math_sin : Z -> Q.

Lemma getAllWalkableCells_none (st : State) :
  (forall x y, visitedAt (grid st) x y = false) -> getAllWalkableCells st = [].
Proof.
  intros H. unfold getAllWalkableCells, isWalkableCell. generalize rowMajor.
  induction l as [|[a b] l IH]; [reflexivity|].
  cbn [List.filter fst snd]. now rewrite H.
Qed.

Lemma placeRandomPotions_none (count : nat) (st : State) (potions : list Potion) :
  getAllWalkableCells st = [] ->
  Nat.iter count (placeRandomPotionsStep Math_sin) (st, potions, []) = (st, potions, []).
Proof.
  intros H. induction count as [|n IH]; [reflexivity|].
  rewrite Nat.iter_succ, IH. unfold placeRandomPotionsStep, getRandomWalkablePosition.
  now rewrite H.
Qed.

(** X18. Before a maze is generated -- on any grid with no visited cell,
    the one the constructor leaves among them -- the query layer finds
    nothing: no cell is walkable, [isWalkablePath] is [false] at every
    position with [0 <= worldZ < 200], [getRandomWalkablePosition] returns
    [null] without drawing, and [placeRandomPotions] places no potion and
    leaves the generator and [potions] as they were. *)
Theorem queries_before_generation (st : State) :
  (forall x y, visitedAt (grid st) x y = false) ->
  getAllWalkableCells st = [] /\
  (forall worldX worldY worldZ,
     (0 <= worldZ)%Q -> (worldZ < inject_Z (MAZE_SIZE * PATH_WIDTH))%Q ->
     isWalkablePath st worldX worldY worldZ = false) /\
  (forall r, getRandomWalkablePosition Math_sin r st = (None, st)) /\
  (forall count potions,
     placeRandomPotions Math_sin count st potions = ([], st, potions)).
Proof.
  intros H. pose proof (getAllWalkableCells_none st H) as E.
  split; [exact E|]. split; [|split].
  - intros x y z H0 H200. unfold isWalkablePath.
    rewrite (proj2 (Qltb_ge z 0) H0). cbn [orb].
    destruct (Qle_bool (inject_Z (MAZE_SIZE * PATH_WIDTH)) z) eqn:E1.
    { apply Qle_bool_iff in E1. exfalso. apply (Qlt_not_le _ _ H200 E1). }
    unfold isWalkableCell. rewrite H. apply andb_false_r.
  - intros r. unfold getRandomWalkablePosition. now rewrite E.
  - intros count potions. unfold placeRandomPotions.
    now rewrite (placeRandomPotions_none count st potions E).
Qed.

End BeforeGeneration.

Lemma queries_before_generation_witness :
  getAllWalkableCells (constructor 12345) = [] /\
  (forall worldX worldY worldZ,
     (0 <= worldZ)%Q -> (worldZ < inject_Z (MAZE_SIZE * PATH_WIDTH))%Q ->
     isWalkablePath (constructor 12345) worldX worldY worldZ = false) /\
  (forall r, getRandomWalkablePosition sample_sin r (constructor 12345)
             = (None, constructor 12345)) /\
  (forall count potions,
     placeRandomPotions sample_sin count (constructor 12345) potions
     = ([], constructor 12345, potions)).
Proof.
  apply (queries_before_generation sample_sin (constructor 12345)).
  apply visitedAt_freshGrid.
Defined.

(** * Beyond the claims: the leaderboard *)

Lemma insertByTime_sorted (e : LeaderboardEntry) (l : list LeaderboardEntry) :
  StronglySorted byTime l ->
  StronglySorted byTime (insertByTime e l) /\
  (forall a, In a (insertByTime e l) <-> a = e \/ In a l).
Proof.
  induction 1 as [|a l Hs IH Ha]; cbn [insertByTime].
  - split; [repeat constructor | intros a; cbn; intuition congruence].
  - destruct IH as [IH1 IH2]. pose proof Ha as Ha'. rewrite Forall_forall in Ha.
    destruct (Z.leb_spec (time e) (time a)) as [Hle | Hlt].
    + split; [|intros b; cbn; intuition congruence].
      constructor; [constructor; assumption|]. apply Forall_forall. intros b Hb.
      apply list_elem_of_In in Hb. destruct Hb as [<- | Hb]; [exact Hle|].
      unfold byTime in *. etransitivity; [exact Hle|]. apply Ha. now apply list_elem_of_In.
    + split.
      * constructor; [exact IH1|]. apply Forall_forall. intros b Hb.
        apply list_elem_of_In, IH2 in Hb. destruct Hb as [-> | Hb].
        -- unfold byTime. lia.
        -- apply Ha. now apply list_elem_of_In.
      * intros b. cbn [In]. rewrite IH2. intuition congruence.
Qed.

Lemma sortByTime_sorted (l : list LeaderboardEntry) :
  StronglySorted byTime (sortByTime l) /\ length (sortByTime l) = length l.
Proof.
  induction l as [|a l [IH1 IH2]]; cbn [sortByTime fold_right]; [split; [constructor | reflexivity]|].
  fold (sortByTime l). split; [now apply insertByTime_sorted|].
  cbn [length]. rewrite <- IH2. clear.
  induction (sortByTime l) as [|b s IH]; cbn [insertByTime]; [reflexivity|].
  destruct (time a <=? time b); cbn [length]; [reflexivity | now rewrite IH].
Qed.

Lemma insertByTime_head (a : LeaderboardEntry) (l : list LeaderboardEntry) :
  Forall (byTime a) l -> insertByTime a l = a :: l.
Proof.
  intros H. destruct l as [|b l]; [reflexivity|]. cbn [insertByTime].
  inversion H as [|? ? Hb _]; subst. unfold byTime in Hb.
  now rewrite (proj2 (Z.leb_le _ _) Hb).
Qed.

(** A new entry goes behind the entries of a sorted board that are not
    above it. *)
Lemma sortByTime_snoc (e : LeaderboardEntry) (l : list LeaderboardEntry) :
  StronglySorted byTime l ->
  sortByTime (l ++ [e])
  = List.filter (fun a => time a <=? time e) l
    ++ e :: List.filter (fun a => time e <? time a) l.
Proof.
  induction 1 as [|a l Hs IH Ha]; [reflexivity|].
  cbn [app sortByTime fold_right]. fold (sortByTime (l ++ [e])). rewrite IH.
  cbn [List.filter]. rewrite Forall_forall in Ha.
  destruct (Z.leb_spec (time a) (time e)) as [Hle | Hlt].
  - rewrite (proj2 (Z.ltb_ge _ _) Hle). cbn [app]. apply insertByTime_head.
    apply Forall_forall. intros b Hb. apply list_elem_of_In in Hb.
    apply in_app_or in Hb as [Hb | [<- | Hb]]; [| exact Hle |];
      apply filter_In in Hb as [Hb _]; apply Ha; now apply list_elem_of_In.
  - rewrite (proj2 (Z.ltb_lt _ _) Hlt).
    assert (E1 : List.filter (fun b => time b <=? time e) l = []).
    { clear IH Hs. induction l as [|b l IHl]; [reflexivity|]. cbn [List.filter].
      assert (Hb : byTime a b) by (apply Ha; left).
      unfold byTime in Hb. rewrite (proj2 (Z.leb_gt _ _)) by lia.
      apply IHl. intros c Hc. apply Ha. now right. }
    assert (E2 : List.filter (fun b => time e <? time b) l = l).
    { clear IH Hs E1. induction l as [|b l IHl]; [reflexivity|]. cbn [List.filter].
      assert (Hb : byTime a b) by (apply Ha; left).
      unfold byTime in Hb. rewrite (proj2 (Z.ltb_lt _ _)) by lia.
      f_equal. apply IHl. intros c Hc. apply Ha. now right. }
    rewrite E1, E2. cbn [app insertByTime].
    rewrite (proj2 (Z.leb_gt _ _) Hlt). f_equal.
    apply insertByTime_head. apply Forall_forall. exact Ha.
Qed.

(** X22. The leaderboard update keeps the ten best times in order,
    earlier finishers first among equal times. Whatever the board, the
    updated board is sorted by time and holds at most ten entries. On a
    sorted board the new entry goes behind the entries whose time does not
    exceed its own, and the board is cut to ten; so on a full sorted board a
    time that does not beat the tenth leaves the board as it was. *)
Theorem updateLeaderboard_top_ten (entry : LeaderboardEntry)
    (leaderboardTimes : list LeaderboardEntry) :
  let board := updateLeaderboard entry leaderboardTimes in
  StronglySorted byTime board /\ (length board <= 10)%nat /\
  (StronglySorted byTime leaderboardTimes ->
   board = firstn 10 (List.filter (fun a => time a <=? time entry) leaderboardTimes
                      ++ entry :: List.filter (fun a => time entry <? time a) leaderboardTimes) /\
   (length leaderboardTimes = 10%nat ->
    Forall (fun a => time a <= time entry) leaderboardTimes ->
    board = leaderboardTimes)).
Proof.
  cbn zeta. unfold updateLeaderboard.
  destruct (sortByTime_sorted (leaderboardTimes ++ [entry])) as [Hs _].
  split; [|split].
  - revert Hs. generalize (sortByTime (leaderboardTimes ++ [entry])). intros l Hl.
    generalize 10%nat. intros n. revert l Hl.
    induction n as [|n IH]; intros l Hl; [constructor|].
    destruct Hl as [|a l Hl Ha]; cbn [firstn]; constructor; [now apply IH|].
    now apply Forall_take.
  - apply firstn_le_length.
  - intros Hsorted. rewrite (sortByTime_snoc entry leaderboardTimes Hsorted).
    split; [reflexivity|]. intros Hlen Hall.
    assert (E1 : List.filter (fun a => time a <=? time entry) leaderboardTimes
                 = leaderboardTimes).
    { clear Hlen Hsorted Hs. induction Hall as [|a l Ha _ IH]; [reflexivity|].
      cbn [List.filter]. rewrite (proj2 (Z.leb_le _ _) Ha). now rewrite IH. }
    rewrite E1, firstn_app, Hlen. cbn [Nat.sub firstn]. rewrite app_nil_r.
    rewrite <- Hlen. apply firstn_all.
Qed.
